(** * Humming-to-song: melody representation, alignment, window scan, ranking

    A shallow embedding of the pure core of the repository:
    - [src/melody_repr.py]  : [bin_interval_semitones], [notes_to_rep]
    - [src/similarity.py]   : [dp_distance] and its cost helpers
    - [src/database.py]     : [build_db], [load_db], [entry_to_rep]
    - [app.py]              : [find_windowed_matches]

    Python [int] is [Z].  A finite Python [float] is the real number it
    denotes, in [R] of the Standard Library; costs and scores are computed
    without rounding, while the loop that accumulates the window starts
    takes the rounded addition of floats as a parameter and is also run on
    binary64 itself.  [float("inf")] only occurs as a cost or a score and
    is a separate constructor of [xreal].  Python lists are [list]; a
    [dict] whose iteration order matters is an association list in
    insertion order. *)

From Stdlib Require Import Ascii String.
From Stdlib Require Import List ZArith Reals Lra Lia Bool Arith.
From Stdlib Require Import Permutation Sorted.
From Stdlib Require PrimFloat FloatOps.
Import ListNotations.

Local Open Scope Z_scope.

(* ================================================================== *)
(** * melody_repr.py *)
(* ================================================================== *)

Module Repr.

(** [midi_io.NoteEvent] *)
Record NoteEvent : Type := mkNote {
  pitch    : Z;
  onset    : R;
  duration : R
}.

(** [melody_repr.MelodyRep] *)
Record MelodyRep : Type := mkRep {
  pitches   : list Z;
  intervals : list Z;
  contour   : list Z;
  ioi       : list R
}.

(** The floor [1e-6] used for inter-onset intervals and timing ratios. *)
Definition eps : R := (1 / 1000000)%R.

(** [bin_interval_semitones]: the chain of [if ... return] statements,
    including the final [return 0] that no integer reaches. *)
Definition bin_interval_semitones (semi : Z) : Z :=
  if semi <=? -7 then -4
  else if (semi =? -6) || (semi =? -5) then -3
  else if (semi =? -4) || (semi =? -3) then -2
  else if (semi =? -2) || (semi =? -1) then -1
  else if semi =? 0 then 0
  else if (semi =? 1) || (semi =? 2) then 1
  else if (semi =? 3) || (semi =? 4) then 2
  else if (semi =? 5) || (semi =? 6) then 3
  else if 7 <=? semi then 4
  else 0.

(** [_contour_from_semitones] *)
Definition contour_from_semitones (semi : Z) : Z :=
  if 0 <? semi then 1
  else if semi <? 0 then -1
  else 0.

(** [[f(xs[i+1], xs[i]) for i in range(len(xs) - 1)]]: the comprehension
    over consecutive positions used for both the raw intervals and the
    inter-onset intervals.  [len(xs) - 1] is natural subtraction here
    because the caller has already returned when [len(notes) < 2]. *)
Definition consecutive {A B : Type} (d : A) (f : A -> A -> B) (xs : list A)
  : list B :=
  map (fun i => f (nth (i + 1) xs d) (nth i xs d))
      (seq 0 (length xs - 1)).

(** [notes_to_rep] *)
Definition notes_to_rep (notes : list NoteEvent) : MelodyRep :=
  if (length notes <? 2)%nat then
    mkRep (map pitch notes) [] [] []
  else
    let pitches := map pitch notes in
    let onsets := map onset notes in
    let raw_intervals := consecutive 0 (fun hi lo => hi - lo) pitches in
    let intervals := map bin_interval_semitones raw_intervals in
    let contour := map contour_from_semitones raw_intervals in
    let ioi := consecutive 0%R (fun hi lo => Rmax eps (hi - lo)) onsets in
    mkRep pitches intervals contour ioi.

(** The §4.1 table, written from the words of the specification, to be
    compared with [bin_interval_semitones]. *)
Definition table_4_1 (delta symbol : Z) : Prop :=
  (delta <= -7 -> symbol = -4) /\
  (delta = -6 \/ delta = -5 -> symbol = -3) /\
  (delta = -4 \/ delta = -3 -> symbol = -2) /\
  (delta = -2 \/ delta = -1 -> symbol = -1) /\
  (delta = 0 -> symbol = 0) /\
  (delta = 1 \/ delta = 2 -> symbol = 1) /\
  (delta = 3 \/ delta = 4 -> symbol = 2) /\
  (delta = 5 \/ delta = 6 -> symbol = 3) /\
  (7 <= delta -> symbol = 4).

(** The sign of an integer as the specification words it. *)
Definition sign_of (delta : Z) : Z :=
  match delta with
  | Z0 => 0
  | Zpos _ => 1
  | Zneg _ => -1
  end.

(** The length invariant of §3 on a representation. *)
Definition length_invariant (r : MelodyRep) : Prop :=
  let N := length (pitches r) in
  ((2 <= N)%nat ->
     length (intervals r) = (N - 1)%nat /\
     length (contour r) = (N - 1)%nat /\
     length (ioi r) = (N - 1)%nat) /\
  ((N < 2)%nat ->
     intervals r = [] /\ contour r = [] /\ ioi r = []).

End Repr.

(* ================================================================== *)
(** * similarity.py *)
(* ================================================================== *)

Module Similarity.
Import Repr.

Local Open Scope R_scope.

(** A Python float that may be [float("inf")]. *)
Inductive xreal : Type :=
| Fin (x : R)
| PInf.

(** [similarity.MatchResult] *)
Record MatchResult : Type := mkResult {
  cost  : xreal;
  end_j : Z
}.

(** The keyword arguments of [dp_distance]. *)
Record Weights : Type := mkWeights {
  w_int    : R;
  w_cont   : R;
  w_time   : R;
  w_abs    : R;
  ins_cost : R;
  del_cost : R
}.

(** Their default values in the signature of [dp_distance]. *)
Definition default_weights : Weights :=
  mkWeights 1 (7 / 10) (15 / 100) (2 / 10) (8 / 10) (8 / 10).

(** [INF = 1e18], the finite sentinel of the DP table. *)
Definition INF : R := 1000000000000000000.

(** The fixed merge penalty [0.6]. *)
Definition merge_penalty : R := 6 / 10.

(** [_interval_cost] *)
Definition interval_cost (a b : Z) : R := IZR (Z.abs (a - b)) / 8.

(** [_contour_cost] *)
Definition contour_cost (a b : Z) : R := if (a =? b)%Z then 0 else 1.

(** [_timing_ratio_cost] *)
Definition timing_ratio_cost (q_prev q s_prev s : R) : R :=
  let rq := q / Rmax eps q_prev in
  let rs := s / Rmax eps s_prev in
  Rabs (ln (Rmax eps rq) - ln (Rmax eps rs)).

(** [max(-4, min(4, x))] *)
Definition clamp4 (x : Z) : Z := Z.max (-4) (Z.min 4 x).

(** ** Errors

    Reading a list past its end raises [IndexError]; [None] stands for the
    raised exception, which [dp_distance] does not catch. *)

Definition bind {A B : Type} (m : option A) (f : A -> option B) : option B :=
  match m with
  | Some a => f a
  | None => None
  end.

Notation "x <- m ;; k" := (bind m (fun x => k))
  (at level 61, m at next level, right associativity).

(** A [for] loop whose body may raise. *)
Fixpoint foldM {A S : Type} (f : S -> A -> option S) (l : list A) (s : S)
  : option S :=
  match l with
  | [] => Some s
  | a :: l' => s' <- f s a ;; foldM f l' s'
  end.

(** [xs[k]] for [0 <= k]. *)
Definition idx {A : Type} (xs : list A) (k : nat) : option A := nth_error xs k.

(** ** The DP table, a list of rows *)

Definition Table : Type := list (list R).

(** [D[i][j]] at positions that exist; every read of the table in
    [dp_distance] is inside the [(m+1) x (n+1)] table it allocated. *)
Definition get (D : Table) (i j : nat) : R := nth j (nth i D []) 0.

(** [xs[k] = v] at a position that exists. *)
Fixpoint upd {A : Type} (xs : list A) (k : nat) (v : A) : list A :=
  match xs, k with
  | [], _ => []
  | _ :: t, O => v :: t
  | x :: t, S k' => x :: upd t k' v
  end.

(** [D[i][j] = v] *)
Definition set (D : Table) (i j : nat) (v : R) : Table :=
  upd D i (upd (nth i D []) j v).

(** [[[INF] * (n + 1) for _ in range(m + 1)]] followed by
    [for j in range(n + 1): D[0][j] = 0.0]. *)
Definition init_table (m n : nat) : Table :=
  fold_left (fun D j => set D 0 j 0) (seq 0 (n + 1))
            (repeat (repeat INF (n + 1)) (m + 1)).

Section DP.

Variables query song : MelodyRep.
Variable w : Weights.

Let QI := intervals query.
Let QC := contour query.
Let QT := ioi query.
Let SI := intervals song.
Let SC := contour song.
Let ST := ioi song.

(** The closure [local(i, j)]. *)
Definition local (i j : nat) : option R :=
  qi <- idx QI (i - 1) ;;
  si <- idx SI (j - 1) ;;
  qc <- idx QC (i - 1) ;;
  sc <- idx SC (j - 1) ;;
  tc <- (if (2 <=? i)%nat && (2 <=? j)%nat then
           qp <- idx QT (i - 2) ;;
           qt <- idx QT (i - 1) ;;
           sp <- idx ST (j - 2) ;;
           st <- idx ST (j - 1) ;;
           Some (timing_ratio_cost qp qt sp st)
         else Some 0) ;;
  Some (w_int w * interval_cost qi si + w_cont w * contour_cost qc sc
        + w_time w * tc).

(** The body of the inner loop: the value stored in [D[i][j]]. *)
Definition cell_value (D : Table) (i j : nat) : option R :=
  let best := INF in
  l <- local i j ;;
  let best := Rmin best (get D (i - 1) (j - 1) + l) in
  let best := Rmin best (get D (i - 1) j + ins_cost w) in
  let best := Rmin best (get D i (j - 1) + del_cost w) in
  best <- (if (2 <=? i)%nat then
             q2 <- idx QI (i - 2) ;;
             q1 <- idx QI (i - 1) ;;
             let merged_q := clamp4 (q2 + q1) in
             merged_c <- idx QC (i - 1) ;;
             sj <- idx SI (j - 1) ;;
             scj <- idx SC (j - 1) ;;
             let ic := interval_cost merged_q sj in
             let cc := contour_cost merged_c scj in
             Some (Rmin best (get D (i - 2) (j - 1) + w_int w * ic
                              + w_cont w * cc + merge_penalty))
           else Some best) ;;
  best <- (if (2 <=? j)%nat then
             s2 <- idx SI (j - 2) ;;
             s1 <- idx SI (j - 1) ;;
             let merged_s := clamp4 (s2 + s1) in
             merged_c <- idx SC (j - 1) ;;
             qi <- idx QI (i - 1) ;;
             qci <- idx QC (i - 1) ;;
             let ic := interval_cost qi merged_s in
             let cc := contour_cost qci merged_c in
             Some (Rmin best (get D (i - 1) (j - 2) + w_int w * ic
                              + w_cont w * cc + merge_penalty))
           else Some best) ;;
  Some best.

Definition fill_cell (i : nat) (D : Table) (j : nat) : option Table :=
  v <- cell_value D i j ;; Some (set D i j v).

(** [for j in range(1, n + 1)] *)
Definition fill_row (n : nat) (D : Table) (i : nat) : option Table :=
  foldM (fill_cell i) (seq 1 n) D.

(** [for i in range(1, m + 1)]: the filled table. *)
Definition dp_table : option Table :=
  let m := length QI in
  let n := length SI in
  foldM (fill_row n) (seq 1 m) (init_table m n).

(** The scan of the last row for the best end position. *)
Definition best_end (D : Table) (m n : nat) : R * Z :=
  fold_left
    (fun (acc : R * Z) j =>
       if Rlt_dec (get D m j) (fst acc)
       then (get D m j, (Z.of_nat j - 1)%Z)
       else acc)
    (seq 1 n) (INF, (-1)%Z).

(** [sum(ps) / len(ps)] *)
Definition mean (ps : list Z) : R :=
  IZR (fold_right Z.add 0%Z ps) / INR (length ps).

(** A non-empty list is truthy. *)
Definition truthy {A : Type} (xs : list A) : bool :=
  match xs with
  | [] => false
  | _ :: _ => true
  end.

(** [dp_distance] *)
Definition dp_distance : option MatchResult :=
  let m := length QI in
  let n := length SI in
  if (m =? 0)%nat || (n =? 0)%nat then
    Some (mkResult PInf (-1))
  else
    D <- dp_table ;;
    let '(best_cost, best_j) := best_end D m n in
    let best_cost :=
      if truthy (pitches query) && truthy (pitches song) then
        best_cost + w_abs w * (Rabs (mean (pitches query)
                                     - mean (pitches song)) / 12)
      else best_cost in
    Some (mkResult (Fin best_cost) best_j).

End DP.

End Similarity.

(* ================================================================== *)
(** * The alignment recurrence of §4.2, from the specification *)
(* ================================================================== *)

Module AlignSpec.
Import Repr Similarity.

Local Open Scope R_scope.

(** [xs[i]] with the 1-based positions of §4.2. *)
Definition at1 {A : Type} (d : A) (xs : list A) (i : nat) : A :=
  nth (i - 1) xs d.

(** The representations the engine is specified on carry one contour
    symbol and one inter-onset interval per interval symbol (§3). *)
Definition aligned (r : MelodyRep) : Prop :=
  length (contour r) = length (intervals r) /\
  length (ioi r) = length (intervals r).

Section Recurrence.

Variables query candidate : MelodyRep.
Variable w : Weights.

Definition qI (i : nat) : Z := at1 0%Z (intervals query) i.
Definition qC (i : nat) : Z := at1 0%Z (contour query) i.
Definition qT (i : nat) : R := at1 0 (ioi query) i.
Definition cI (j : nat) : Z := at1 0%Z (intervals candidate) j.
Definition cC (j : nat) : Z := at1 0%Z (contour candidate) j.
Definition cT (j : nat) : R := at1 0 (ioi candidate) j.

(** Timing cost of §4.2 at [(i, j)], [2 <= i], [2 <= j]. *)
Definition timing (i j : nat) : R :=
  let rq := qT i / Rmax eps (qT (i - 1)) in
  let rs := cT j / Rmax eps (cT (j - 1)) in
  Rabs (ln (Rmax eps rq) - ln (Rmax eps rs)).

(** Combined local substitution cost at [(i, j)]. *)
Definition local_cost (i j : nat) : R :=
  w_int w * (IZR (Z.abs (qI i - cI j)) / 8)
  + w_cont w * (if Z.eq_dec (qC i) (cC j) then 0 else 1)
  + w_time w * (if (2 <=? i)%nat && (2 <=? j)%nat then timing i j else 0).

(** Transitions (1) to (5) that are valid at [(i, j)], in that order. *)
Definition transitions (D : Table) (i j : nat) : list R :=
  [ get D (i - 1) (j - 1) + local_cost i j;
    get D (i - 1) j + ins_cost w;
    get D i (j - 1) + del_cost w ]
  ++ (if (2 <=? i)%nat then
        [ get D (i - 2) (j - 1)
          + w_int w * interval_cost (clamp4 (qI (i - 1) + qI i)) (cI j)
          + w_cont w * contour_cost (qC i) (cC j)
          + 6 / 10 ]
      else [])
  ++ (if (2 <=? j)%nat then
        [ get D (i - 1) (j - 2)
          + w_int w * interval_cost (qI i) (clamp4 (cI (j - 1) + cI j))
          + w_cont w * contour_cost (qC i) (cC j)
          + 6 / 10 ]
      else []).

(** The least element of a list, [d] for the empty list. *)
Definition minimum (d : R) (xs : list R) : R :=
  match xs with
  | [] => d
  | x :: t => fold_left Rmin t x
  end.

(** The recurrence as §4.2 words it: row 0 is [0], column 0 below row 0
    is never the minimum (the table holds its sentinel there), and every
    other cell is the minimum of its valid transitions. *)
Definition recurrence_4_2 (D : Table) : Prop :=
  let m := length (intervals query) in
  let n := length (intervals candidate) in
  (forall j, (j <= n)%nat -> get D 0 j = 0) /\
  (forall i, (1 <= i <= m)%nat -> get D i 0 = INF) /\
  (forall i j, (1 <= i <= m)%nat -> (1 <= j <= n)%nat ->
     get D i j = minimum INF (transitions D i j)).

(** What the table satisfies for every weight vector: the minimum is
    taken over the sentinel and the valid transitions. *)
Definition recurrence_capped (D : Table) : Prop :=
  let m := length (intervals query) in
  let n := length (intervals candidate) in
  (forall j, (j <= n)%nat -> get D 0 j = 0) /\
  (forall i, (1 <= i <= m)%nat -> get D i 0 = INF) /\
  (forall i j, (1 <= i <= m)%nat -> (1 <= j <= n)%nat ->
     get D i j = minimum INF (INF :: transitions D i j)).

(** The tie-breaker of §4.2: added exactly when both pitch lists are
    non-empty. *)
Definition tie_breaker : R :=
  match pitches query, pitches candidate with
  | _ :: _, _ :: _ =>
      w_abs w * Rabs (mean (pitches query) - mean (pitches candidate)) / 12
  | _, _ => 0
  end.

(** [j] is the first position of [[1, n]] at which row [m] of [D] attains
    its minimum over [[1, n]]. *)
Definition first_argmin (D : Table) (m n j : nat) : Prop :=
  (1 <= j <= n)%nat /\
  (forall k, (1 <= k <= n)%nat -> get D m j <= get D m k) /\
  (forall k, (1 <= k < j)%nat -> get D m j < get D m k).

(** The minimum of [D[m][j]] over [j] in [[1, n]]. *)
Definition row_min (D : Table) (m n : nat) : R :=
  minimum INF (map (get D m) (seq 1 n)).

(** The end index as §4.2 words it: [j - 1] for the first minimizing [j]. *)
Definition end_4_2 (D : Table) (m n : nat) (e : Z) : Prop :=
  exists j, first_argmin D m n j /\ e = (Z.of_nat j - 1)%Z.

(** The end index for every weight vector: that of §4.2 when the row
    minimum is below the sentinel, and [-1] when the whole row holds the
    sentinel. *)
Definition end_capped (D : Table) (m n : nat) (e : Z) : Prop :=
  (row_min D m n < INF -> end_4_2 D m n e) /\
  (row_min D m n = INF -> e = (-1)%Z).

(** No weight or cost is negative. *)
Definition nonneg_weights : Prop :=
  0 <= w_int w /\ 0 <= w_cont w /\ 0 <= w_time w /\ 0 <= w_abs w /\
  0 <= ins_cost w /\ 0 <= del_cost w.

End Recurrence.


End AlignSpec.

(* ================================================================== *)
(** * database.py *)
(* ================================================================== *)

Module Database.
Import Repr Similarity.

Local Open Scope string_scope.
Local Open Scope list_scope.

(** [database.SongEntry] *)
Record SongEntry : Type := mkEntry {
  song_id     : string;
  midi_path   : string;
  e_pitches   : list Z;
  e_intervals : list Z;
  e_contour   : list Z;
  e_ioi       : list R
}.

(** [entry_to_rep] *)
Definition entry_to_rep (entry : SongEntry) : MelodyRep :=
  mkRep (e_pitches entry) (e_intervals entry) (e_contour entry)
        (e_ioi entry).

(** ** [build_db] *)

Fixpoint has_char (c : Ascii.ascii) (s : string) : bool :=
  match s with
  | EmptyString => false
  | String a r => Ascii.eqb a c || has_char c r
  end.

(** [s.split(c)[-1]]: what follows the last [c], all of [s] without one. *)
Fixpoint after_last (c : Ascii.ascii) (s : string) : string :=
  match s with
  | EmptyString => EmptyString
  | String a r =>
      if has_char c r then after_last c r
      else if Ascii.eqb a c then r
      else String a r
  end.

(** [s.rsplit(c, 1)[0]]: what precedes the last [c], all of [s] without
    one. *)
Fixpoint before_last (c : Ascii.ascii) (s : string) : string :=
  match s with
  | EmptyString => EmptyString
  | String a r =>
      if has_char c r then String a (before_last c r)
      else if Ascii.eqb a c then EmptyString
      else String a r
  end.

(** [path.split("/")[-1].rsplit(".", 1)[0]] *)
Definition song_id_of_path (path : string) : string :=
  before_last "."%char (after_last "/"%char path).

Definition too_few : string :=
  "No usable melody extracted (too few notes/intervals).".

Section Build.

(** [midi_io.extract_melody_notes], the MIDI reader: the notes of the
    melody track, or the text [f"{type(e).__name__}: {e}"] of the
    exception it raised. *)
Variable extract_melody_notes : string -> R -> list NoteEvent + string.

(** The state of the loop of [build_db]: the entries kept and the log of
    rejected paths with their reasons. *)
Definition build_step (min_note_duration_s : R)
    (st : list SongEntry * list (string * string)) (path : string)
  : list SongEntry * list (string * string) :=
  let '(db, bad) := st in
  match extract_melody_notes path min_note_duration_s with
  | inl notes =>
      let rep := notes_to_rep notes in
      if (length (intervals rep) <? 2)%nat then
        (db, bad ++ [(path, too_few)])
      else
        (db ++ [mkEntry (song_id_of_path path) path (pitches rep)
                        (intervals rep) (contour rep) (ioi rep)],
         bad)
  | inr msg => (db, bad ++ [(path, msg)])
  end.

(** [build_db]: the database returned and the lines written to the log
    file. *)
Definition build_db (midi_paths : list string) (min_note_duration_s : R)
  : list SongEntry * list (string * string) :=
  fold_left (build_step min_note_duration_s) midi_paths ([], []).

(** A path from which [build_db] makes an entry. *)
Definition usable_path (min_note_duration_s : R) (path : string) : bool :=
  match extract_melody_notes path min_note_duration_s with
  | inl notes => (2 <=? length (intervals (notes_to_rep notes)))%nat
  | inr _ => false
  end.

(** What [build_db] logs for a path it rejects. *)
Definition logged_reason (d : R) (line : string * string) : Prop :=
  match extract_melody_notes (fst line) d with
  | inl _ => snd line = too_few
  | inr msg => snd line = msg
  end.

End Build.

(** What [build_db] guarantees of an entry it keeps. *)
Definition built_entry (e : SongEntry) : Prop :=
  length_invariant (entry_to_rep e) /\ (2 <= length (e_intervals e))%nat.


(** ** [load_db] *)

(** A JSON object of the payload after [json.load], as far as the call
    of [SongEntry] with its keywords tells objects apart: what it holds under
    each of the six field names, if it has the key, and the other keys it
    has.  The value under a field name is kept at the type [save_db]
    writes for that field, which is the type [entry_to_rep] and
    [dp_distance] compute on; the constructor itself looks at no value
    and compares no length. *)
Record jobject : Type := mkObject {
  j_song_id   : option string;
  j_midi_path : option string;
  j_pitches   : option (list Z);
  j_intervals : option (list Z);
  j_contour   : option (list Z);
  j_ioi       : option (list R);
  j_others    : list string
}.

(** [SongEntry] called with the keywords of [x]: [None] is the
    [TypeError] raised for an unexpected keyword or for a missing one.
    Whatever is found under the six names is stored as it is. *)
Definition SongEntry_kwargs (x : jobject) : option SongEntry :=
  match j_others x with
  | _ :: _ => None
  | [] =>
      sid <- j_song_id x ;;
      mp <- j_midi_path x ;;
      ps <- j_pitches x ;;
      it <- j_intervals x ;;
      ct <- j_contour x ;;
      io <- j_ioi x ;;
      Some (mkEntry sid mp ps it ct io)
  end.

(** The list comprehension of [load_db] over [payload]: an exception in
    one element leaves the comprehension. *)
Fixpoint load_db (payload : list jobject) : option (list SongEntry) :=
  match payload with
  | [] => Some []
  | x :: rest =>
      e <- SongEntry_kwargs x ;;
      es <- load_db rest ;;
      Some (e :: es)
  end.

(** [entry.__dict__] as [save_db] writes it. *)
Definition entry_dict (e : SongEntry) : jobject :=
  mkObject (Some (song_id e)) (Some (midi_path e)) (Some (e_pitches e))
           (Some (e_intervals e)) (Some (e_contour e)) (Some (e_ioi e)) [].

(** A stored record whose sequences break the length invariant of §3:
    two pitches, one interval, no contour and no inter-onset interval. *)
Definition ragged_entry : SongEntry :=
  mkEntry "ragged" "data/midi_songs/ragged.mid" [60; 62]%Z [1]%Z [] [].

(** A well-formed record that follows it in the file. *)
Definition sound_entry : SongEntry :=
  mkEntry "sound" "data/midi_songs/sound.mid" [60; 62; 64]%Z [1; 1]%Z
          [1; 1]%Z [(1 / 2)%R; (1 / 2)%R].

(** The entry that [build_db] makes of the notes read from [path]. *)
Definition entry_of (path : string) (notes : list NoteEvent) : SongEntry :=
  let rep := notes_to_rep notes in
  mkEntry (song_id_of_path path) path (pitches rep) (intervals rep)
          (contour rep) (ioi rep).

End Database.

(* ================================================================== *)
(** * app.py: [find_windowed_matches] *)
(* ================================================================== *)

Module App.
Import Repr Similarity Database.

Local Open Scope R_scope.

(** [a / r] for a float [a] that may be infinite and a finite [r > 0]. *)
Definition xdiv (a : xreal) (r : R) : xreal :=
  match a with
  | Fin x => Fin (x / r)
  | PInf => PInf
  end.

(** [a < b] on floats that may be infinite. *)
Definition xlt (a b : xreal) : bool :=
  match a, b with
  | Fin x, Fin y => if Rlt_dec x y then true else false
  | Fin _, PInf => true
  | PInf, _ => false
  end.

(** The values that [best_score], [best_cost], [best_start] and
    [best_len] hold for one song.  The four dicts are created with the
    same keys in the same order and are written together, so they are
    one dict of four slots here. *)
Record Best : Type := mkBest {
  best_score : xreal;
  best_cost  : xreal;
  best_start : option R;
  best_len   : nat
}.

(** [float("inf")], [float("inf")], [None], [0] *)
Definition init_best : Best := mkBest PInf PInf None 0.

(** A [dict] keyed by song id, in insertion order. *)
Definition dict : Type := list (string * Best).

(** [d[k]]; [None] is [KeyError]. *)
Fixpoint dict_get (d : dict) (k : string) : option Best :=
  match d with
  | [] => None
  | (k', v) :: d' => if String.eqb k k' then Some v else dict_get d' k
  end.

(** [d[k] = v]: a present key keeps its place, a new key goes last. *)
Fixpoint dict_set (d : dict) (k : string) (v : Best) : dict :=
  match d with
  | [] => [(k, v)]
  | (k', v') :: d' =>
      if String.eqb k k' then (k', v) :: d' else (k', v') :: dict_set d' k v
  end.

(** [{entry.song_id: ... for entry in db}] *)
Definition dict_init (db : list SongEntry) : dict :=
  fold_left (fun d e => dict_set d (song_id e) init_best) db [].

(** [a <= b] on finite floats: the order of the reals they denote. *)
Definition Rleb (a b : R) : bool := if Rle_dec a b then true else false.

Section Loop.

(** The carrier of the floats with its addition and its comparison:
    [s + win] and [s += hop] round, so the loop is written over the
    addition it is given.  The scan below runs it on the reals that the
    floats denote, [Doubles] on binary64 itself. *)
Variable F : Type.
Variable add : F -> F -> F.
Variable leb : F -> F -> bool.

(** The [while s + win <= duration] loop.  [fuel] bounds the number of
    iterations; the result is [None] when it runs out, which happens for
    every [fuel] when the loop does not terminate. *)
Fixpoint window_starts (fuel : nat) (win hop duration s : F)
  : option (list F) :=
  match fuel with
  | O => None
  | S fuel' =>
      if leb (add s win) duration then
        rest <- window_starts fuel' win hop duration (add s hop) ;;
        Some (s :: rest)
      else Some []
  end.

End Loop.

Arguments window_starts {F} add leb fuel win hop duration s.

(** [if not starts: starts = [0.0]] *)
Definition or_single (starts : list R) : list R :=
  match starts with
  | [] => [0]
  | _ :: _ => starts
  end.

(** [max(0.0, 1.0 - score / 5.0) * 100].  For an infinite score
    [1.0 - inf] is [-inf], [max(0.0, -inf)] is [0.0]. *)
Definition similarity (score : xreal) : R :=
  match score with
  | Fin x => Rmax 0 (1 - x / 5) * 100
  | PInf => 0 * 100
  end.

(** A tuple of [ranked]. *)
Record Row : Type := mkRow {
  r_similarity : R;
  r_sid        : string;
  r_cost       : xreal;
  r_len        : nat;
  r_start      : option R
}.

(** [ranked.sort(reverse=True, key=lambda x: x[0])].  The sort of Python
    is stable, and with [reverse=True] rows of equal key keep their
    original order; the stable insertion sort below returns that same
    list. *)
Fixpoint insert_desc (x : Row) (l : list Row) : list Row :=
  match l with
  | [] => [x]
  | y :: l' =>
      if Rle_dec (r_similarity y) (r_similarity x) then x :: y :: l'
      else y :: insert_desc x l'
  end.

Definition sort_desc (l : list Row) : list Row :=
  fold_right insert_desc [] l.

(** The loop [for sid in best_score] that fills [ranked]. *)
Definition rows_of (d : dict) : list Row :=
  map (fun kv =>
         mkRow (similarity (best_score (snd kv))) (fst kv)
               (best_cost (snd kv)) (best_len (snd kv))
               (best_start (snd kv)))
      d.

(** The end of [find_windowed_matches]: rank and cut. *)
Definition rank (d : dict) (topk : nat) : list Row :=
  firstn topk (sort_desc (rows_of d)).

Section Scan.

(** The addition of floats, on the reals that the floats denote: the
    sum, rounded to a float. *)
Variable fadd : R -> R -> R.

(** [librosa.get_duration(path=audio_path)] *)
Variable clip_duration : R.

(** The notes that [audio_window_to_rep] segments from the window of
    length [dur_s] starting at [start_s], before it calls
    [notes_to_rep]. *)
Variable window_notes : forall (start_s dur_s : R), list NoteEvent.

(** [audio_window_to_rep] *)
Definition audio_window_to_rep (start_s dur_s : R) : MelodyRep :=
  notes_to_rep (window_notes start_s dur_s).

(** The body of [for entry in db]. *)
Definition score_entry (q_rep : MelodyRep) (L : nat) (start_s : R)
    (d : dict) (entry : SongEntry) : option dict :=
  let sid := song_id entry in
  let s_rep := entry_to_rep entry in
  res <- dp_distance q_rep s_rep default_weights ;;
  let score := xdiv (cost res) (sqrt (INR L)) in
  old <- dict_get d sid ;;
  if xlt score (best_score old) then
    Some (dict_set d sid (mkBest score (cost res) (Some start_s) L))
  else Some d.

(** The body of [for start_s in starts]; the state is the dict and the
    counter [usable]. *)
Definition scan_window (db : list SongEntry) (win : R)
    (st : dict * nat) (start_s : R) : option (dict * nat) :=
  let q_rep := audio_window_to_rep start_s win in
  let L := length (intervals q_rep) in
  if (L <? 12)%nat then Some st
  else
    d <- foldM (score_entry q_rep L start_s) db (fst st) ;;
    Some (d, (snd st + 1)%nat).

(** [find_windowed_matches] up to the ranking: the dict of best windows,
    [len(starts)] and [usable]. *)
Definition scan (fuel : nat) (db : list SongEntry) (win hop max_sec : R)
  : option (dict * nat * nat) :=
  let duration := Rmin clip_duration max_sec in
  raw <- window_starts fadd Rleb fuel win hop duration 0 ;;
  let starts := or_single raw in
  st <- foldM (scan_window db win) starts (dict_init db, 0%nat) ;;
  Some (fst st, length starts, snd st).

(** [find_windowed_matches] *)
Definition find_windowed_matches (fuel : nat) (db : list SongEntry)
    (win hop max_sec : R) (topk : nat) : option (list Row * nat * nat) :=
  r <- scan fuel db win hop max_sec ;;
  let '(d, n_windows, usable) := r in
  Some (rank d topk, n_windows, usable).

End Scan.

End App.

(* ================================================================== *)
(** * The window loop on binary64 floats *)
(* ================================================================== *)

Module Doubles.
Import App PrimFloat SpecFloat FloatOps.

(** The loop of [find_windowed_matches] run on the doubles of Python
    themselves, from [s = 0.0]. *)
Definition starts (fuel : nat) (win hop duration : float)
  : option (list float) :=
  window_starts PrimFloat.add PrimFloat.leb fuel win hop duration
                0%float.

(** The doubles of Python for the literals [1.1], [5.0] and [16.0]. *)
Definition d1_1 : float := 0x1.199999999999ap+0%float.
Definition d5 : float := 5%float.
Definition d16 : float := 16%float.

(** The double just below [11.0], which Python prints as
    [10.999999999999998]. *)
Definition d11_below : float := 0x1.5ffffffffffffp+3%float.

(** The real number that a finite double denotes, as a fraction. *)
Definition ratio (x : float) : Z * Z :=
  match Prim2SF x with
  | S754_finite sign m e =>
      let n := if sign then Zneg m else Zpos m in
      if (0 <=? e)%Z then (n * 2 ^ e, 1)%Z else (n, 2 ^ (- e))%Z
  | _ => (0, 1)%Z
  end.

Definition to_R (x : float) : R :=
  (IZR (fst (ratio x)) / IZR (snd (ratio x)))%R.

End Doubles.

(* ================================================================== *)
(** * The scan and the ranking of §4.3 and §4.4, from the specification *)
(* ================================================================== *)

Module ScanSpec.
Import Repr Similarity Database App AlignSpec.

Local Open Scope R_scope.

(** The per-song combine of §4.3 and §5: keep the result whose score is
    strictly smaller, the first one on a tie. *)
Definition keep_min (seen new : Best) : Best :=
  if xlt (best_score new) (best_score seen) then new else seen.

(** The smaller of two scores. *)
Definition xmin (a b : xreal) : xreal := if xlt b a then b else a.

(** Two windows of one song with the same normalized score [0.5]:
    cost [2] over 16 intervals from offset 0, and cost [2.5] over 25
    intervals from offset 5. *)
Definition tie_first : Best := mkBest (Fin (1 / 2)) (Fin 2) (Some 0) 16.
Definition tie_second : Best := mkBest (Fin (1 / 2)) (Fin (5 / 2)) (Some 5) 25.

(** The start of window number [k] of §4.3: [hop] added [k] times to
    [0.0]. *)
Definition offset (fadd : R -> R -> R) (hop : R) (k : nat) : R :=
  Nat.iter k (fun s => fadd s hop) 0.

(** The windows of §4.3 are those before window [K]: every window
    before it satisfies [start + win <= duration], window [K] does not. *)
Definition loop_stops_at (fadd : R -> R -> R) (win hop duration : R)
    (K : nat) : Prop :=
  (forall k : nat, (k < K)%nat -> fadd (offset fadd hop k) win <= duration) /\
  ~ fadd (offset fadd hop K) win <= duration.

(** The generated windows: the [K] windows of §4.3, or the single
    window at [0] when there is none. *)
Definition generated (fadd : R -> R -> R) (hop : R) (K : nat) : list R :=
  match K with
  | O => [0]
  | S _ => map (offset fadd hop) (seq 0 K)
  end.

(** The ids of [ids] that are not in [seen], each once, in the order of
    their first occurrence. *)
Fixpoint first_seen (seen ids : list string) : list string :=
  match ids with
  | [] => []
  | k :: rest =>
      if existsb (String.eqb k) seen then first_seen seen rest
      else k :: first_seen (k :: seen) rest
  end.

(** The songs of the corpus, in corpus order: every song id once, at
    the place of its first entry. *)
Definition distinct_ids (db : list SongEntry) : list string :=
  first_seen [] (map song_id db).

(** The entries of the song [sid]. *)
Definition same_song (sid : string) (e : SongEntry) : bool :=
  String.eqb (song_id e) sid.

(** The dict with the keys [ks], in this order, and the value [f k] under
    the key [k]. *)
Definition keyed (f : string -> Best) (ks : list string) : dict :=
  map (fun k => (k, f k)) ks.

(** The dict that gives every song of the corpus the value [f] has for
    it, in corpus order. *)
Definition tabulate (f : SongEntry -> Best) (db : list SongEntry) : dict :=
  map (fun e => (song_id e, f e)) db.

Section Windows.

Variable window_notes : forall (start_s dur_s : R), list NoteEvent.
Variable win : R.

(** Number of intervals of the window at [start_s]. *)
Definition window_len (start_s : R) : nat :=
  length (intervals (audio_window_to_rep window_notes start_s win)).

(** A usable window has at least 12 intervals. *)
Definition usable_window (start_s : R) : bool :=
  (12 <=? window_len start_s)%nat.

(** The alignment of a window against a song; [dp_distance] raises
    nothing on aligned representations. *)
Definition alignment (start_s : R) (e : SongEntry) : MatchResult :=
  match dp_distance (audio_window_to_rep window_notes start_s win)
                    (entry_to_rep e) default_weights with
  | Some r => r
  | None => mkResult PInf (-1)
  end.

(** The normalized score of §4.3: [cost / sqrt(interval count)], infinite
    for an infinite cost. *)
Definition normalized (c : xreal) (L : nat) : xreal :=
  match c with
  | Fin x => Fin (x / sqrt (INR L))
  | PInf => PInf
  end.

(** The result of one usable window for one song: its normalized score,
    the cost, the start and the length. *)
Definition window_result (e : SongEntry) (start_s : R) : Best :=
  let c := cost (alignment start_s e) in
  mkBest (normalized c (window_len start_s)) c (Some start_s)
         (window_len start_s).

(** The best window of a song over the usable windows among [starts]. *)
Definition best_window (starts : list R) (e : SongEntry) : Best :=
  fold_left keep_min
            (map (window_result e) (filter usable_window starts))
            init_best.

(** The dict of best windows for a corpus. *)
Definition best_windows (starts : list R) (db : list SongEntry) : dict :=
  tabulate (best_window starts) db.

(** The results that the scan meets for the song [sid]: usable window
    by usable window, and for each window the entries of the song in
    corpus order. *)
Definition results_for (starts : list R) (db : list SongEntry)
    (sid : string) : list Best :=
  flat_map (fun start_s =>
              map (fun e => window_result e start_s)
                  (filter (same_song sid) db))
           (filter usable_window starts).

(** The best window of the song [sid]. *)
Definition best_for (starts : list R) (db : list SongEntry) (sid : string)
  : Best :=
  fold_left keep_min (results_for starts db sid) init_best.

(** The dict of best windows, one slot per song. *)
Definition slots (starts : list R) (db : list SongEntry) : dict :=
  keyed (best_for starts db) (distinct_ids db).

End Windows.

(** Rows in descending order of similarity. *)
Definition descending (rows : list Row) : Prop :=
  StronglySorted (fun a b => r_similarity b <= r_similarity a) rows.

(** The rows of similarity [v], in the order they have in [rows]. *)
Definition tied (v : R) (rows : list Row) : list Row :=
  filter (fun r => if Req_dec_T (r_similarity r) v then true else false)
         rows.

(** Every entry of the corpus is aligned. *)
Definition aligned_db (db : list SongEntry) : Prop :=
  Forall (fun e => aligned (entry_to_rep e)) db.

End ScanSpec.

(* ================================================================== *)
(** * Sample inputs *)
(* ================================================================== *)

Module Samples.
Import Repr Similarity.

Local Open Scope R_scope.

(** Two notes a fifth apart, rising: one interval of symbol [+4]. *)
Definition up_rep : MelodyRep :=
  mkRep [60; 67]%Z [4]%Z [1]%Z [1 / 2].

(** Two notes a fifth apart, falling: one interval of symbol [-4]. *)
Definition down_rep : MelodyRep :=
  mkRep [67; 60]%Z [-4]%Z [-1]%Z [1 / 2].

(** A caller-supplied weight vector whose interval weight and
    insertion and deletion costs exceed the sentinel:
    [dp_distance(q, s, w_int=2e18, ins_cost=2e18, del_cost=2e18)]. *)
Definition heavy_weights : Weights :=
  mkWeights (2 * INF) (7 / 10) (15 / 100) (2 / 10) (2 * INF) (2 * INF).

(** Three notes: C4, E4, D4 at 0 s, 0.5 s and 0.5 s (a repeated onset). *)
Definition three_notes : list NoteEvent :=
  [ mkNote 60 0 (1 / 2); mkNote 64 (1 / 2) (1 / 2); mkNote 62 (1 / 2) 1 ].

End Samples.

(* ================================================================== *)
(** * Loop invariants of the table fill *)
(* ================================================================== *)

Module TableInv.
Import Repr Similarity AlignSpec.

Local Open Scope R_scope.

(** The table has [m + 1] rows of [n + 1] entries. *)
Definition dims (D : Table) (m n : nat) : Prop :=
  length D = (m + 1)%nat /\
  forall i, (i <= m)%nat -> length (nth i D []) = (n + 1)%nat.

(** Row 0 and column 0 hold their initial values. *)
Definition base (D : Table) (m n : nat) : Prop :=
  (forall j, (j <= n)%nat -> get D 0 j = 0) /\
  (forall i, (1 <= i <= m)%nat -> get D i 0 = INF).

(** Cell [(a, b)] is written before cell [(i, j)] by the two loops. *)
Definition before (a b i j : nat) : Prop :=
  (a < i)%nat \/ (a = i /\ (b < j)%nat).

(** Every cell written before [(i, j)] holds the capped minimum of its
    transitions. *)
Definition filled (q s : MelodyRep) (w : Weights) (D : Table) (i j : nat)
  : Prop :=
  forall a b,
    (1 <= a <= length (intervals q))%nat ->
    (1 <= b <= length (intervals s))%nat ->
    before a b i j ->
    get D a b = minimum INF (INF :: transitions q s w D a b).

Definition fill_inv (q s : MelodyRep) (w : Weights) (i j : nat) (D : Table)
  : Prop :=
  dims D (length (intervals q)) (length (intervals s)) /\
  base D (length (intervals q)) (length (intervals s)) /\
  filled q s w D i j.

End TableInv.

(* ================================================================== *)
(** * Sample scans *)
(* ================================================================== *)

Module ScanSamples.
Import Repr Similarity Database App.

Local Open Scope string_scope.
Local Open Scope list_scope.

(** A recording in which no note is ever detected. *)
Definition silence (start_s dur_s : R) : list NoteEvent := [].

(** A corpus of one well-formed song. *)
Definition one_song : list SongEntry := [sound_entry].

(** Thirteen notes, one every half second: a scale up and back down. *)
Definition tune : list NoteEvent :=
  map (fun pk => mkNote (fst pk) (INR (snd pk) / 2) (1 / 2))
      (combine [60; 62; 64; 65; 67; 69; 71; 72; 71; 69; 67; 65; 64]%Z
               (seq 0 13)).

(** A recording in which every window is segmented into [tune]. *)
Definition humming (start_s dur_s : R) : list NoteEvent := tune.

(** The entries that [build_db] makes of three MIDI files: the tune, its
    first five notes and its last four. *)
Definition three_songs : list SongEntry :=
  [ entry_of "data/midi_songs/opening.mid" (firstn 5 tune);
    entry_of "data/midi_songs/tune.mid" tune;
    entry_of "data/midi_songs/ending.mid" (skipn 9 tune) ].

(** The entries that [build_db] makes of two files of the same name in
    two directories: they share the song id [take]. *)
Definition twins : list SongEntry :=
  [ entry_of "data/first/take.mid" (firstn 5 tune);
    entry_of "data/second/take.mid" (skipn 9 tune) ].

(** A corpus read by [load_db] from a file that holds a ragged
    record. *)
Definition ragged_corpus : list SongEntry := [ragged_entry; sound_entry].

End ScanSamples.

(* ================================================================== *)
(** * Transformations of a note sequence *)
(* ================================================================== *)

Module Transforms.
Import Repr.

(** The note [k] semitones higher. *)
Definition transpose (k : Z) (n : NoteEvent) : NoteEvent :=
  mkNote (pitch n + k) (onset n) (duration n).

(** The note [t] seconds later. *)
Definition delay (t : R) (n : NoteEvent) : NoteEvent :=
  mkNote (pitch n) (onset n + t)%R (duration n).

(** The note played [c] times slower. *)
Definition stretch (c : R) (n : NoteEvent) : NoteEvent :=
  mkNote (pitch n) (c * onset n)%R (c * duration n)%R.

(** Every gap between consecutive onsets is at least [g]. *)
Definition gaps_at_least (g : R) (notes : list NoteEvent) : Prop :=
  forall k, (k + 1 < length notes)%nat ->
    (g <= nth (k + 1) (map onset notes) 0 - nth k (map onset notes) 0)%R.

End Transforms.

(* ================================================================== *)
(** * Excerpts *)
(* ================================================================== *)

Module Excerpts.
Import Repr Similarity AlignSpec.

(** [ys[off : off + len]] *)
Definition slice {A : Type} (off len : nat) (ys : list A) : list A :=
  firstn len (skipn off ys).

(** The interval, contour and inter-onset sequences of [q] occur in
    those of [s] from position [off] on. *)
Definition excerpt_at (off : nat) (q s : MelodyRep) : Prop :=
  let m := length (intervals q) in
  slice off m (intervals s) = intervals q /\
  slice off m (contour s) = contour q /\
  slice off m (ioi s) = ioi q.

End Excerpts.

(* ================================================================== *)
(** * audio_query.py *)
(* ================================================================== *)

Module AudioQuery.
Import Repr.

Local Open Scope R_scope.

(** [hz_to_midi], on the voiced frames ([f > 0]) it is applied to;
    [log2 x] is [ln x / ln 2]. *)
Definition hz_to_midi (f : R) : R := 69 + 12 * (ln (f / 440) / ln 2).

(** The test of the final loop of [segment_notes_from_f0]:
    [abs(ev.pitch - prev.pitch) <= 1 and gap < 0.05]. *)
Definition mergeable (prev ev : NoteEvent) : bool :=
  (Z.abs (pitch ev - pitch prev) <=? 1)%Z
  && (if Rlt_dec (onset ev - (onset prev + duration prev)) (5 / 100)
      then true else false).

(** The note that replaces [merged[-1]] when [ev] is merged into it. *)
Definition absorb (prev ev : NoteEvent) : NoteEvent :=
  let new_end := Rmax (onset prev + duration prev)
                      (onset ev + duration ev) in
  mkNote (pitch prev) (onset prev) (new_end - onset prev).

(** The body of [for ev in notes] in the final loop of
    [segment_notes_from_f0]. *)
Definition merge_step (merged : list NoteEvent) (ev : NoteEvent)
  : list NoteEvent :=
  match merged with
  | [] => [ev]
  | _ :: _ =>
      let prev := last merged ev in
      if mergeable prev ev then removelast merged ++ [absorb prev ev]
      else merged ++ [ev]
  end.

(** The final loop of [segment_notes_from_f0]: merge near-identical
    consecutive notes separated by tiny gaps. *)
Definition merge_notes (notes : list NoteEvent) : list NoteEvent :=
  fold_left merge_step notes [].

(** No note of the list can be merged into the note before it. *)
Fixpoint separated (l : list NoteEvent) : Prop :=
  match l with
  | [] => True
  | a :: t =>
      match t with
      | [] => True
      | b :: _ => mergeable a b = false
      end /\ separated t
  end.

End AudioQuery.

(* ================================================================== *)
(** * midi_io.py *)
(* ================================================================== *)

Module MidiIO.
Import Repr.

Local Open Scope R_scope.

(** [pretty_midi.Note], without the velocity, which the code never
    reads. *)
Record MidiNote : Type := mkMidi {
  n_pitch : Z;
  n_start : R;
  n_end   : R
}.

(** [pretty_midi.Instrument], with the two attributes the code reads. *)
Record Instrument : Type := mkInst {
  is_drum : bool;
  i_notes : list MidiNote
}.

Definition Rle_bool (a b : R) : bool := if Rle_dec a b then true else false.
Definition Rlt_bool (a b : R) : bool := if Rlt_dec a b then true else false.
Definition Req_bool (a b : R) : bool := if Req_dec_T a b then true else false.

(** [_remove_too_short] *)
Definition remove_too_short (notes : list MidiNote) (min_dur : R)
  : list MidiNote :=
  filter (fun n => Rle_bool min_dur (Rmax 0 (n_end n - n_start n))) notes.

(** [sorted(xs, key=...)]: the sort of Python is stable; [le a b] says
    that the key of [a] is at most the key of [b].  The stable insertion
    sort returns the same list. *)
Fixpoint insert_by {A : Type} (le : A -> A -> bool) (x : A) (l : list A)
  : list A :=
  match l with
  | [] => [x]
  | y :: l' => if le x y then x :: y :: l' else y :: insert_by le x l'
  end.

Definition sorted_by {A : Type} (le : A -> A -> bool) (l : list A) : list A :=
  fold_right (insert_by le) [] l.

(** [(a.start, a.end) <= (b.start, b.end)], as tuples compare. *)
Definition le_start_end (a b : MidiNote) : bool :=
  Rlt_bool (n_start a) (n_start b)
  || (Req_bool (n_start a) (n_start b) && Rle_bool (n_end a) (n_end b)).

(** [(a.start, a.end, -a.pitch) <= (b.start, b.end, -b.pitch)] *)
Definition le_start_end_high (a b : MidiNote) : bool :=
  Rlt_bool (n_start a) (n_start b)
  || (Req_bool (n_start a) (n_start b)
      && (Rlt_bool (n_end a) (n_end b)
          || (Req_bool (n_end a) (n_end b)
              && (- n_pitch a <=? - n_pitch b)%Z))).

(** The loop of [_is_monophonic] over [notes_sorted[1:]]. *)
Fixpoint no_overlap (last_end : R) (l : list MidiNote) : bool :=
  match l with
  | [] => true
  | n :: t =>
      if Rlt_dec (n_start n) (last_end - eps) then false
      else no_overlap (Rmax last_end (n_end n)) t
  end.

(** [_is_monophonic] *)
Definition is_monophonic (notes : list MidiNote) : bool :=
  match notes with
  | [] => true
  | _ :: _ =>
      match sorted_by le_start_end notes with
      | [] => true
      | n0 :: rest => no_overlap (n_end n0) rest
      end
  end.

(** The score that [choose_melody_instrument] gives to the notes of an
    instrument. *)
Definition melody_score (notes : list MidiNote) : R :=
  let mono := is_monophonic notes in
  let pitches := map n_pitch notes in
  let len := INR (length pitches) in
  let avg_pitch := IZR (fold_right Z.add 0%Z pitches) / len in
  let var_pitch :=
    fold_right Rplus 0 (map (fun p => (IZR p - avg_pitch) ^ 2) pitches)
    / len in
  0 + (if mono then 3 else 0) + avg_pitch / 30 + sqrt var_pitch / 10.

(** The loop of [choose_melody_instrument] that collects the
    candidates [(score, inst, notes)]. *)
Definition candidates (instruments : list Instrument) (min_dur : R)
  : list (R * Instrument * list MidiNote) :=
  flat_map
    (fun inst =>
       if is_drum inst then []
       else
         let notes := remove_too_short (i_notes inst) min_dur in
         if (length notes <? 4)%nat then []
         else [(melody_score notes, inst, notes)])
    instruments.

(** [(key of a) >= (key of b)]: the order of
    [candidates.sort(key=lambda x: x[0], reverse=True)], which keeps
    candidates of equal score in their original order. *)
Definition ge_score (a b : R * Instrument * list MidiNote) : bool :=
  Rle_bool (fst (fst b)) (fst (fst a)).

(** [choose_melody_instrument] *)
Definition choose_melody_instrument (instruments : list Instrument)
    (min_dur : R) : option Instrument :=
  match sorted_by ge_score (candidates instruments min_dur) with
  | [] => None
  | c :: _ => Some (snd (fst c))
  end.

(** The loop of [extract_melody_notes] that drops overlapping notes. *)
Fixpoint clean_from (last_end : R) (melody : list NoteEvent)
  : list NoteEvent :=
  match melody with
  | [] => []
  | ev :: t =>
      if Rge_dec (onset ev) (last_end - eps)
      then ev :: clean_from (onset ev + duration ev) t
      else clean_from last_end t
  end.

(** [NoteEvent(pitch=int(n.pitch), onset=float(n.start),
    duration=float(max(0.0, n.end - n.start)))] *)
Definition to_event (n : MidiNote) : NoteEvent :=
  mkNote (n_pitch n) (n_start n) (Rmax 0 (n_end n - n_start n)).

Definition load_failed : string :=
  "ValueError: Could not lead MIDI file (even after cleaning).".

(** [extract_melody_notes] after [load_midi_robust]: [pm] is the list
    of instruments of the file read, or [None] when reading failed; the
    result is the melody, or the text that [build_db] logs for the
    [ValueError] raised. *)
Definition extract_melody_notes (pm : option (list Instrument))
    (min_note_duration_s : R) : list NoteEvent + string :=
  match pm with
  | None => inr load_failed
  | Some instruments =>
      match choose_melody_instrument instruments min_note_duration_s with
      | None => inl []
      | Some inst =>
          let notes := remove_too_short (i_notes inst) min_note_duration_s in
          let notes := sorted_by le_start_end_high notes in
          let melody := map to_event notes in
          inl (clean_from (-1) melody)
      end
  end.

(** A melody is in time order and monophonic up to the tolerance
    [1e-6]: each note starts no earlier than the note before it, and no
    earlier than [1e-6] before that note ends. *)
Fixpoint monophonic_melody (l : list NoteEvent) : Prop :=
  match l with
  | [] => True
  | a :: t =>
      match t with
      | [] => True
      | b :: _ =>
          onset a <= onset b /\ onset a + duration a - eps <= onset b
      end /\ monophonic_melody t
  end.

End MidiIO.

(* ================================================================== *)
(** * Part II: theorems *)
(* ================================================================== *)

Section ReprFacts.
Import Repr Samples.

Local Open Scope Z_scope.

Lemma bin_interval_table (d : Z) : table_4_1 d (bin_interval_semitones d).
Proof.
  unfold table_4_1, bin_interval_semitones.
  repeat match goal with
  | |- context [if ?b then _ else _] => destruct b eqn:?
  end; repeat split; intros; lia.
Qed.

Lemma bin_interval_monotone (d1 d2 : Z) :
  d1 <= d2 -> bin_interval_semitones d1 <= bin_interval_semitones d2.
Proof.
  unfold bin_interval_semitones; intros H.
  repeat match goal with
  | |- context [if ?b then _ else _] => destruct b eqn:?
  end; lia.
Qed.

Lemma contour_is_sign (d : Z) : contour_from_semitones d = sign_of d.
Proof.
  unfold contour_from_semitones; destruct d; reflexivity.
Qed.

Lemma sign_of_sgn (d : Z) : sign_of d = Z.sgn d.
Proof. destruct d; reflexivity. Qed.

Lemma bin_interval_sign (d : Z) :
  sign_of (bin_interval_semitones d) = contour_from_semitones d.
Proof.
  rewrite contour_is_sign, (sign_of_sgn d), sign_of_sgn.
  pose proof (Z.sgn_spec d) as Hd.
  unfold bin_interval_semitones.
  repeat match goal with
  | |- context [if ?b then _ else _] => destruct b eqn:?
  end; cbn [Z.sgn]; lia.
Qed.

Lemma consecutive_length {A B} (d : A) (f : A -> A -> B) xs :
  length (consecutive d f xs) = (length xs - 1)%nat.
Proof. unfold consecutive; now rewrite length_map, length_seq. Qed.

Lemma consecutive_nth {A B} (d : A) (e : B) (f : A -> A -> B) xs k :
  (k < length xs - 1)%nat ->
  nth k (consecutive d f xs) e = f (nth (k + 1) xs d) (nth k xs d).
Proof.
  intros Hk; unfold consecutive.
  rewrite (nth_indep _ e (f (nth (0 + 1) xs d) (nth 0%nat xs d)))
    by now rewrite length_map, length_seq.
  rewrite (map_nth (fun i => f (nth (i + 1) xs d) (nth i xs d))).
  now rewrite seq_nth.
Qed.

Lemma contour_bin_iff (d : Z) :
  (contour_from_semitones d = 1 <-> 0 < bin_interval_semitones d) /\
  (contour_from_semitones d = -1 <-> bin_interval_semitones d < 0) /\
  (contour_from_semitones d = 0 <-> bin_interval_semitones d = 0).
Proof.
  rewrite <- bin_interval_sign, sign_of_sgn.
  pose proof (Z.sgn_spec (bin_interval_semitones d)); lia.
Qed.

Lemma notes_to_rep_short notes :
  (length notes < 2)%nat ->
  notes_to_rep notes = mkRep (map pitch notes) [] [] [].
Proof.
  intros H; unfold notes_to_rep.
  now apply Nat.ltb_lt in H as ->.
Qed.

Lemma notes_to_rep_long notes :
  (2 <= length notes)%nat ->
  notes_to_rep notes =
    let raw := consecutive 0 (fun hi lo => hi - lo) (map pitch notes) in
    mkRep (map pitch notes)
          (map bin_interval_semitones raw)
          (map contour_from_semitones raw)
          (consecutive 0%R (fun hi lo => Rmax eps (hi - lo)) (map onset notes)).
Proof.
  intros H; unfold notes_to_rep.
  destruct (length notes <? 2)%nat eqn:E; [|reflexivity].
  apply Nat.ltb_lt in E; lia.
Qed.

Lemma nth_map_in {A B} (f : A -> B) (l : list A) (d : A) (e : B) k :
  (k < length l)%nat -> nth k (map f l) e = f (nth k l d).
Proof.
  intros H. rewrite (nth_indep _ e (f d)) by now rewrite length_map.
  apply map_nth.
Qed.

(** C6: [notes_to_rep] keeps the notes' pitches; for [N >= 2] notes the
    three derived sequences have length [N - 1], [intervals[k]] is the
    9-bin symbol of [pitches[k+1] - pitches[k]] as the table of §4.1 gives
    it, [contour[k]] is the sign of that delta and [ioi[k]] is
    [max(1e-6, onset[k+1] - onset[k])]; for [N < 2] the derived sequences
    are empty.  The binning is total on the integers and monotonic. *)
Theorem notes_to_rep_spec (notes : list NoteEvent) :
  let N := length notes in
  let r := notes_to_rep notes in
  let onsets := map onset notes in
  (pitches r = map pitch notes /\ length (pitches r) = N) /\
  ((2 <= N)%nat ->
     length (intervals r) = (N - 1)%nat /\
     length (contour r) = (N - 1)%nat /\
     length (ioi r) = (N - 1)%nat /\
     forall k, (k < N - 1)%nat ->
       let delta := nth (k + 1) (pitches r) 0 - nth k (pitches r) 0 in
       nth k (intervals r) 0 = bin_interval_semitones delta /\
       nth k (contour r) 0 = sign_of delta /\
       nth k (ioi r) 0%R
         = Rmax eps (nth (k + 1) onsets 0 - nth k onsets 0)%R) /\
  ((N < 2)%nat ->
     intervals r = [] /\ contour r = [] /\ ioi r = []) /\
  (forall delta, table_4_1 delta (bin_interval_semitones delta)) /\
  (forall d1 d2, d1 <= d2 ->
     bin_interval_semitones d1 <= bin_interval_semitones d2).
Proof.
  cbv zeta. split; [|split; [|split; [|split]]].
  - unfold notes_to_rep; destruct (length notes <? 2)%nat; cbn;
      (split; [reflexivity | apply length_map]).
  - intros H. rewrite (notes_to_rep_long _ H); cbn.
    rewrite !length_map, !consecutive_length, !length_map.
    repeat (split; [reflexivity|]).
    intros k Hk.
    rewrite !(nth_map_in _ _ 0)
      by now rewrite consecutive_length, length_map.
    rewrite !consecutive_nth by now rewrite length_map.
    repeat split. apply contour_is_sign.
  - intros H. now rewrite (notes_to_rep_short _ H).
  - apply bin_interval_table.
  - apply bin_interval_monotone.
Qed.

Lemma notes_to_rep_spec_witness :
  (2 <= length three_notes)%nat /\
  length (intervals (notes_to_rep three_notes)) = 2%nat /\
  nth 1 (intervals (notes_to_rep three_notes)) 0 = -1 /\
  nth 1 (contour (notes_to_rep three_notes)) 0 = -1 /\
  nth 1 (ioi (notes_to_rep three_notes)) 0%R = eps.
Proof.
  destruct (notes_to_rep_spec three_notes) as (_ & H & _).
  assert (H2 : (2 <= length three_notes)%nat) by (simpl; lia).
  destruct (H H2) as (Hi & _ & _ & Hk).
  destruct (Hk 1%nat) as (Ki & Kc & Kt); [simpl; lia|].
  split; [exact H2|]. split; [exact Hi|].
  split; [rewrite Ki; reflexivity|].
  split; [rewrite Kc; reflexivity|].
  rewrite Kt; cbn. unfold Rmax, eps.
  destruct (Rle_dec _ _); lra.
Defined.

(** C10: in every representation built by [notes_to_rep] the contour
    entry is the sign of the binned interval symbol at every position. *)
Theorem contour_is_sign_of_interval (notes : list NoteEvent) (k : nat) :
  let r := notes_to_rep notes in
  (k < length (intervals r))%nat ->
  (nth k (contour r) 0 = 1 <-> 0 < nth k (intervals r) 0) /\
  (nth k (contour r) 0 = -1 <-> nth k (intervals r) 0 < 0) /\
  (nth k (contour r) 0 = 0 <-> nth k (intervals r) 0 = 0).
Proof.
  cbv zeta.
  destruct (Nat.lt_ge_cases (length notes) 2) as [Hs|Hl].
  - rewrite (notes_to_rep_short _ Hs); cbn; lia.
  - rewrite (notes_to_rep_long _ Hl); cbn.
    rewrite length_map; intros Hk.
    rewrite !(nth_map_in _ _ 0) by assumption.
    apply contour_bin_iff.
Qed.

Lemma contour_is_sign_of_interval_witness :
  (1 < length (intervals (notes_to_rep three_notes)))%nat /\
  (nth 1 (contour (notes_to_rep three_notes)) 0 = -1 <->
   nth 1 (intervals (notes_to_rep three_notes)) 0 < 0).
Proof.
  assert (H : (1 < length (intervals (notes_to_rep three_notes)))%nat)
    by (simpl; lia).
  split; [exact H|].
  exact (proj1 (proj2 (contour_is_sign_of_interval three_notes 1 H))).
Defined.

End ReprFacts.

(* ------------------------------------------------------------------ *)
(** ** Lists, loops and the table *)

Section TableFacts.
Import Repr Similarity AlignSpec TableInv.

Local Open Scope R_scope.

Lemma upd_length {A} (xs : list A) k v : length (upd xs k v) = length xs.
Proof.
  revert k; induction xs as [|x t IH]; intros [|k]; simpl; auto.
Qed.

Lemma nth_upd_same {A} (xs : list A) k v d :
  (k < length xs)%nat -> nth k (upd xs k v) d = v.
Proof.
  revert k; induction xs as [|x t IH]; intros [|k] H; simpl in *;
    try lia; auto.
  apply IH; lia.
Qed.

Lemma nth_upd_other {A} (xs : list A) k k' v d :
  k <> k' -> nth k' (upd xs k v) d = nth k' xs d.
Proof.
  revert k k'; induction xs as [|x t IH]; intros [|k] [|k'] H; simpl;
    try reflexivity; try congruence.
  apply IH; congruence.
Qed.

Lemma idx_some {A} (xs : list A) k d :
  (k < length xs)%nat -> idx xs k = Some (nth k xs d).
Proof. intros H; unfold idx; now apply nth_error_nth'. Qed.

Lemma get_set_same D m n i j v :
  dims D m n -> (i <= m)%nat -> (j <= n)%nat -> get (set D i j v) i j = v.
Proof.
  intros [HL HR] Hi Hj; unfold get, set.
  rewrite nth_upd_same by lia.
  apply nth_upd_same. rewrite HR by assumption. lia.
Qed.

Lemma get_set_other D i j i' j' v :
  (i, j) <> (i', j') -> get (set D i j v) i' j' = get D i' j'.
Proof.
  intros H; unfold get, set.
  destruct (Nat.eq_dec i i') as [<-|Hi].
  - destruct (Nat.lt_ge_cases i (length D)) as [Hlt|Hge].
    + rewrite nth_upd_same by assumption.
      apply nth_upd_other; congruence.
    + assert (E : upd D i (upd (nth i D []) j v) = D).
      { clear -Hge. revert i Hge.
        induction D as [|r t IH]; intros [|i] Hge; simpl in *;
          try reflexivity; try lia.
        f_equal; apply IH; lia. }
      now rewrite E.
  - now rewrite nth_upd_other.
Qed.

Lemma dims_set D m n i j v : dims D m n -> dims (set D i j v) m n.
Proof.
  intros [HL HR]; split; unfold set.
  - now rewrite upd_length.
  - intros a Ha. destruct (Nat.eq_dec i a) as [<-|Hne].
    + rewrite nth_upd_same by lia. rewrite upd_length. now apply HR.
    + rewrite nth_upd_other by assumption. now apply HR.
Qed.

(** Invariant rule for a [for] loop over [range(a, a + k)]. *)
Lemma fold_left_seq_inv {S} (P : nat -> S -> Prop) (f : S -> nat -> S) :
  forall k a s,
    P a s ->
    (forall j s, (a <= j < a + k)%nat -> P j s -> P (Datatypes.S j) (f s j)) ->
    P (a + k)%nat (fold_left f (seq a k) s).
Proof.
  induction k as [|k IH]; intros a s H0 Hstep; simpl.
  - now rewrite Nat.add_0_r.
  - replace (a + Datatypes.S k)%nat with (Datatypes.S a + k)%nat by lia.
    apply IH.
    + apply Hstep; [lia | assumption].
    + intros j s' Hj; apply Hstep; lia.
Qed.

(** The same rule when the body may raise: the loop does not raise and
    ends in a state satisfying the invariant. *)
Lemma foldM_seq_inv {S} (P : nat -> S -> Prop) (f : S -> nat -> option S) :
  forall k a s,
    P a s ->
    (forall j s, (a <= j < a + k)%nat -> P j s ->
       exists s', f s j = Some s' /\ P (Datatypes.S j) s') ->
    exists s', foldM f (seq a k) s = Some s' /\ P (a + k)%nat s'.
Proof.
  induction k as [|k IH]; intros a s H0 Hstep; simpl.
  - exists s; now rewrite Nat.add_0_r.
  - destruct (Hstep a s) as (s1 & E1 & P1); [lia | assumption |].
    rewrite E1; simpl.
    replace (a + Datatypes.S k)%nat with (Datatypes.S a + k)%nat by lia.
    apply IH; [assumption|].
    intros j s' Hj; apply Hstep; lia.
Qed.

Lemma nth_repeat_in {A} (x d : A) k n : (k < n)%nat -> nth k (repeat x n) d = x.
Proof.
  revert k; induction n as [|n IH]; intros [|k] H; simpl; try lia; auto.
  apply IH; lia.
Qed.

Lemma init_table_inv m n :
  dims (init_table m n) m n /\
  (forall j, (j <= n)%nat -> get (init_table m n) 0 j = 0) /\
  (forall i j, (1 <= i <= m)%nat -> (j <= n)%nat ->
     get (init_table m n) i j = INF).
Proof.
  unfold init_table.
  pose (P := fun (k : nat) (D : Table) =>
    dims D m n /\
    (forall j, (j < k)%nat -> get D 0 j = 0) /\
    (forall i j, (1 <= i <= m)%nat -> (j <= n)%nat -> get D i j = INF)).
  assert (H : P (0 + (n + 1))%nat
                (fold_left (fun D j => set D 0 j 0) (seq 0 (n + 1))
                           (repeat (repeat INF (n + 1)) (m + 1)))).
  { apply fold_left_seq_inv.
    - split; [split | split].
      + apply repeat_length.
      + intros i Hi. rewrite nth_repeat_in by lia. apply repeat_length.
      + intros j Hj; lia.
      + intros i j Hi Hj; unfold get.
        rewrite nth_repeat_in by lia. apply nth_repeat_in; lia.
    - intros j D Hj (Hd & Hz & Hinf). split; [|split].
      + apply dims_set, Hd.
      + intros j' Hj'. destruct (Nat.eq_dec j j') as [<-|Hne].
        * apply (get_set_same D m n); [assumption | lia | lia].
        * rewrite get_set_other by congruence. apply Hz; lia.
      + intros i j' Hi Hj'. rewrite get_set_other; [now apply Hinf|].
        intros E; inversion E; lia. }
  destruct H as (Hd & Hz & Hinf). split; [exact Hd|]. split; [|exact Hinf].
  intros j Hj; apply Hz; lia.
Qed.

End TableFacts.

(* ------------------------------------------------------------------ *)
(** ** The table fill of [dp_distance] *)

Section FillFacts.
Import Repr Similarity AlignSpec TableInv.

Local Open Scope R_scope.

Variables q s : MelodyRep.
Variable w : Weights.
Hypothesis Hq : aligned q.
Hypothesis Hs : aligned s.

Let m := length (intervals q).
Let n := length (intervals s).

Lemma contour_cost_dec a b :
  contour_cost a b = if Z.eq_dec a b then 0 else 1.
Proof.
  unfold contour_cost.
  destruct (Z.eqb_spec a b), (Z.eq_dec a b); congruence.
Qed.

(** On aligned representations no read is out of range, and the value
    stored in [D[i][j]] is the capped minimum of the transitions. *)
Lemma cell_value_spec D i j :
  (1 <= i <= m)%nat -> (1 <= j <= n)%nat ->
  cell_value q s w D i j
  = Some (minimum INF (INF :: transitions q s w D i j)).
Proof.
  intros Hi Hj. destruct Hq as [Hqc Hqt], Hs as [Hsc Hst].
  fold m in Hqc, Hqt. fold n in Hsc, Hst.
  unfold cell_value, local.
  rewrite (idx_some (intervals q) (i - 1) 0%Z) by (fold m; lia).
  rewrite (idx_some (intervals s) (j - 1) 0%Z) by (fold n; lia).
  rewrite (idx_some (contour q) (i - 1) 0%Z) by lia.
  rewrite (idx_some (contour s) (j - 1) 0%Z) by lia.
  unfold transitions, local_cost, timing, qI, qC, qT, cI, cC, cT, at1,
    merge_penalty.
  rewrite <- !contour_cost_dec. fold (interval_cost (nth (i - 1) (intervals q) 0%Z) (nth (j - 1) (intervals s) 0%Z)).
  destruct (2 <=? i)%nat eqn:Ei, (2 <=? j)%nat eqn:Ej;
    try apply Nat.leb_le in Ei; try apply Nat.leb_le in Ej;
    cbn [andb bind app minimum fold_left];
    repeat match goal with
    | |- context [idx (intervals q) ?k] =>
        rewrite (idx_some (intervals q) k 0%Z) by (fold m; lia)
    | |- context [idx (intervals s) ?k] =>
        rewrite (idx_some (intervals s) k 0%Z) by (fold n; lia)
    | |- context [idx (ioi q) ?k] =>
        rewrite (idx_some (ioi q) k 0) by lia
    | |- context [idx (ioi s) ?k] =>
        rewrite (idx_some (ioi s) k 0) by lia
    end;
    cbn [andb bind app minimum fold_left];
    replace (i - 1 - 1)%nat with (i - 2)%nat by lia;
    replace (j - 1 - 1)%nat with (j - 2)%nat by lia;
    reflexivity.
Qed.

(** The transitions at [(i, j)] read only cells written before it. *)
Lemma transitions_ext D D' i j :
  (1 <= i)%nat -> (1 <= j)%nat ->
  (forall a b, before a b i j -> get D a b = get D' a b) ->
  transitions q s w D i j = transitions q s w D' i j.
Proof.
  intros Hi Hj H. unfold transitions.
  rewrite (H (i - 1) (j - 1))%nat by (unfold before; lia).
  rewrite (H (i - 1) j)%nat by (unfold before; lia).
  rewrite (H i (j - 1))%nat by (unfold before; lia).
  destruct (2 <=? i)%nat eqn:Ei, (2 <=? j)%nat eqn:Ej;
    try apply Nat.leb_le in Ei; try apply Nat.leb_le in Ej;
    try rewrite (H (i - 2) (j - 1))%nat by (unfold before; lia);
    try rewrite (H (i - 1) (j - 2))%nat by (unfold before; lia);
    reflexivity.
Qed.

Lemma fill_cell_inv i j D :
  (1 <= i <= m)%nat -> (1 <= j <= n)%nat ->
  fill_inv q s w i j D ->
  exists D', fill_cell q s w i D j = Some D' /\ fill_inv q s w i (S j) D'.
Proof.
  intros Hi Hj (Hd & (Hz & Hc) & Hf). fold m n in Hd, Hz, Hc.
  unfold fill_cell. rewrite cell_value_spec by assumption. cbn [bind].
  eexists; split; [reflexivity|].
  set (v := minimum INF (INF :: transitions q s w D i j)).
  assert (Hother : forall a b, (a, b) <> (i, j) ->
            get (set D i j v) a b = get D a b).
  { intros a b Hab; apply get_set_other; congruence. }
  split; [|split; [split|]].
  - apply dims_set, Hd.
  - intros b Hb. rewrite Hother; [now apply Hz|].
    intros E; inversion E; lia.
  - intros a Ha. rewrite Hother; [now apply Hc|].
    intros E; inversion E; lia.
  - intros a b Ha Hb Hab. fold m in Ha. fold n in Hb.
    assert (Hext : transitions q s w (set D i j v) a b
                   = transitions q s w D a b).
    { apply transitions_ext; try lia.
      intros a' b' Hb'. apply Hother.
      intros E; inversion E; subst. unfold before in *; lia. }
    cbn [minimum]. rewrite Hext.
    destruct (Nat.eq_dec a i) as [->|Hai];
      [destruct (Nat.eq_dec b j) as [->|Hbj]|].
    + rewrite (get_set_same D m n) by (assumption || lia). reflexivity.
    + rewrite Hother by congruence.
      apply Hf; [assumption | assumption | unfold before in *; lia].
    + rewrite Hother by congruence.
      apply Hf; [assumption | assumption | unfold before in *; lia].
Qed.

Lemma fill_row_inv i D :
  (1 <= i <= m)%nat ->
  fill_inv q s w i 1 D ->
  exists D', fill_row q s w n D i = Some D' /\ fill_inv q s w (S i) 1 D'.
Proof.
  intros Hi H0. unfold fill_row.
  destruct (foldM_seq_inv (fill_inv q s w i) (fill_cell q s w i) n 1 D H0)
    as (D' & E & (Hd & Hb & Hf)).
  { intros j D1 Hj H1. apply fill_cell_inv; [assumption | lia | assumption]. }
  exists D'; split; [exact E|].
  split; [exact Hd|]. split; [exact Hb|].
  intros a b Ha Hb' Hab. apply Hf; try assumption.
  fold n in Hb'. unfold before in *; lia.
Qed.

(** With aligned representations the fill raises nothing and ends with
    every cell of rows [1..m], columns [1..n] written once. *)
Lemma dp_table_inv :
  exists D, dp_table q s w = Some D /\ fill_inv q s w (S m) 1 D.
Proof.
  unfold dp_table. fold m n.
  destruct (init_table_inv m n) as (Hd & Hz & Hinf).
  destruct (foldM_seq_inv (fun i D => fill_inv q s w i 1 D)
              (fill_row q s w n) m 1 (init_table m n))
    as (D & E & HD).
  - split; [exact Hd|]. split; [split|].
    + exact Hz.
    + intros i Hi; apply Hinf; [assumption | lia].
    + intros a b Ha Hb Hab. unfold before in Hab; lia.
  - intros i D Hi HD. apply fill_row_inv; [lia | assumption].
  - exists D; split; [exact E|]. exact HD.
Qed.

Lemma dp_table_capped :
  exists D, dp_table q s w = Some D /\
            dims D m n /\ recurrence_capped q s w D.
Proof.
  destruct dp_table_inv as (D & E & Hd & (Hz & Hc) & Hf).
  exists D; split; [exact E|]. split; [exact Hd|].
  split; [exact Hz|]. split; [exact Hc|].
  intros i j Hi Hj. apply Hf; try assumption. unfold before; lia.
Qed.

End FillFacts.

(* ------------------------------------------------------------------ *)
(** ** Minima *)

Section MinFacts.

Local Open Scope R_scope.

Lemma fold_min_le_init l : forall x, fold_left Rmin l x <= x.
Proof.
  induction l as [|y l IH]; intros x; simpl; [lra|].
  eapply Rle_trans; [apply IH | apply Rmin_l].
Qed.

Lemma fold_min_le_in l : forall x y, In y l -> fold_left Rmin l x <= y.
Proof.
  induction l as [|z l IH]; intros x y Hy; simpl in *; [tauto|].
  destruct Hy as [->|Hy].
  - eapply Rle_trans; [apply fold_min_le_init | apply Rmin_r].
  - now apply IH.
Qed.

Lemma fold_min_ge l : forall x c,
  c <= x -> (forall y, In y l -> c <= y) -> c <= fold_left Rmin l x.
Proof.
  induction l as [|z l IH]; intros x c Hx Hl; simpl; [assumption|].
  apply IH.
  - apply Rmin_glb; [assumption | apply Hl; now left].
  - intros y Hy; apply Hl; now right.
Qed.

Lemma fold_min_attained l : forall x,
  fold_left Rmin l x = x \/ In (fold_left Rmin l x) l.
Proof.
  induction l as [|z l IH]; intros x; simpl; [now left|].
  destruct (IH (Rmin x z)) as [E|Hin]; [|now right; right].
  rewrite E. unfold Rmin; destruct (Rle_dec x z); [now left | right; now left].
Qed.

Lemma fold_min_init l : forall a b,
  fold_left Rmin l (Rmin a b) = Rmin a (fold_left Rmin l b).
Proof.
  induction l as [|y l IH]; intros a b; cbn [fold_left]; [reflexivity|].
  now rewrite <- IH, Rmin_assoc.
Qed.

End MinFacts.

Section CapFacts.
Import Similarity AlignSpec.

Local Open Scope R_scope.

(** A list with an element other than its head that does not exceed the
    sentinel has the same minimum with and without the sentinel. *)
Lemma minimum_capped_exact t1 tl y :
  In y tl -> y <= INF ->
  minimum INF (INF :: t1 :: tl) = minimum INF (t1 :: tl).
Proof.
  intros Hin Hy. cbn [minimum fold_left].
  rewrite fold_min_init. apply Rmin_right.
  eapply Rle_trans; [apply fold_min_le_in; exact Hin | exact Hy].
Qed.

End CapFacts.

(** Decide the comparisons of a closed expression built from [Rmin]. *)
Ltac case_rmin :=
  unfold Rmin; repeat (destruct (Rle_dec _ _)); try lra.

(* ------------------------------------------------------------------ *)
(** ** Sample alignments *)

Section SampleFacts.
Import Repr Similarity AlignSpec TableInv Samples.

Local Open Scope R_scope.

Lemma aligned_up_rep : aligned up_rep.
Proof. split; reflexivity. Qed.

Lemma aligned_down_rep : aligned down_rep.
Proof. split; reflexivity. Qed.

(** The single cell of the table for [up_rep] against [down_rep]. *)
Lemma heavy_cell D :
  recurrence_capped up_rep down_rep heavy_weights D ->
  get D 1 1 = INF /\
  minimum INF (transitions up_rep down_rep heavy_weights D 1 1) = 2 * INF.
Proof.
  intros (Hz & Hc & Hr).
  pose proof (Hr 1%nat 1%nat) as H11.
  pose proof (Hz 0%nat) as H00. pose proof (Hz 1%nat) as H01.
  pose proof (Hc 1%nat) as H10.
  cbn in H11, H00, H01, H10.
  specialize (H11 ltac:(lia) ltac:(lia)).
  specialize (H00 ltac:(lia)). specialize (H01 ltac:(lia)).
  specialize (H10 ltac:(lia)).
  unfold transitions, local_cost, qI, qC, cI, cC, at1 in *.
  cbn [Nat.leb Nat.sub andb app minimum fold_left up_rep down_rep
       intervals contour nth heavy_weights w_int w_cont w_time ins_cost
       del_cost] in *.
  rewrite H00, H01, H10 in *.
  unfold interval_cost in *. cbn [Z.sub Z.abs Z.add Z.opp Z.pos_sub
    Pos.add Pos.succ Z.eq_dec] in *.
  destruct (Z.eq_dec 1 (-1)) as [E|_]; [discriminate E|].
  unfold INF in *.
  split.
  - rewrite H11. case_rmin.
  - case_rmin.
Qed.

End SampleFacts.

(* ------------------------------------------------------------------ *)
(** ** Where [dp_distance] raises [IndexError] *)

Section RaiseFacts.
Import Repr Similarity AlignSpec.

Lemma foldM_raises {A S} (f : S -> A -> option S) (l : list A) (a : A) :
  In a l -> (forall s, f s a = None) -> forall s, foldM f l s = None.
Proof.
  intros Hin Hf. induction l as [|x l IH]; intros s; [contradiction|].
  cbn [foldM]. destruct Hin as [->|Hin].
  - now rewrite Hf.
  - destruct (f s x); cbn [bind]; [now apply IH | reflexivity].
Qed.

Lemma idx_none {A} (xs : list A) k : (length xs <= k)%nat -> idx xs k = None.
Proof. intros H. unfold idx. now apply nth_error_None. Qed.

Lemma local_raises q s w i j :
  idx (contour q) (i - 1) = None \/ idx (contour s) (j - 1) = None \/
  ((2 <= i)%nat /\ (2 <= j)%nat /\
   (idx (ioi q) (i - 1) = None \/ idx (ioi s) (j - 1) = None)) ->
  local q s w i j = None.
Proof.
  intros H. unfold local.
  destruct (idx (intervals q) (i - 1)); cbn [bind]; [|reflexivity].
  destruct (idx (intervals s) (j - 1)); cbn [bind]; [|reflexivity].
  destruct (idx (contour q) (i - 1)) eqn:Eqc; cbn [bind]; [|reflexivity].
  destruct (idx (contour s) (j - 1)) eqn:Esc; cbn [bind]; [|reflexivity].
  destruct H as [H|[H|(Hi & Hj & H)]]; try discriminate.
  apply Nat.leb_le in Hi, Hj. rewrite Hi, Hj. cbn [andb].
  destruct (idx (ioi q) (i - 2)); cbn [bind]; [|reflexivity].
  destruct (idx (ioi q) (i - 1)) eqn:Eqt; cbn [bind]; [|reflexivity].
  destruct (idx (ioi s) (j - 2)); cbn [bind]; [|reflexivity].
  destruct (idx (ioi s) (j - 1)) eqn:Est; cbn [bind]; [|reflexivity].
  destruct H; discriminate.
Qed.

Lemma dp_table_raises q s w i j :
  (1 <= i <= length (intervals q))%nat ->
  (1 <= j <= length (intervals s))%nat ->
  local q s w i j = None ->
  dp_table q s w = None.
Proof.
  intros Hi Hj Hl. unfold dp_table.
  apply (foldM_raises _ _ i); [apply in_seq; lia|].
  intros D. unfold fill_row.
  apply (foldM_raises _ _ j); [apply in_seq; lia|].
  intros D'. unfold fill_cell, cell_value. now rewrite Hl.
Qed.

Lemma dp_distance_raises q s w i j :
  (1 <= i <= length (intervals q))%nat ->
  (1 <= j <= length (intervals s))%nat ->
  local q s w i j = None ->
  dp_distance q s w = None.
Proof.
  intros Hi Hj Hl. unfold dp_distance.
  destruct (length (intervals q) =? 0)%nat eqn:Em;
    [apply Nat.eqb_eq in Em; lia|].
  destruct (length (intervals s) =? 0)%nat eqn:En;
    [apply Nat.eqb_eq in En; lia|].
  cbn [orb]. now rewrite (dp_table_raises q s w i j Hi Hj Hl).
Qed.

(** Against the ragged record every query with an interval raises at
    the first cell. *)
Lemma ragged_entry_raises q w :
  intervals q <> [] ->
  dp_distance q (Database.entry_to_rep Database.ragged_entry) w = None.
Proof.
  intros Hq. apply (dp_distance_raises _ _ _ 1 1).
  - destruct (intervals q); [congruence | simpl; lia].
  - simpl; lia.
  - apply local_raises. right; left. reflexivity.
Qed.

End RaiseFacts.

(* ------------------------------------------------------------------ *)
(** ** C2, C3: the returned cost and end index *)

Section ResultFacts.
Import Repr Similarity AlignSpec TableInv Samples.

Local Open Scope R_scope.

(** The scan of row [m]: the running minimum starts at the sentinel and
    the index moves only on a strict improvement. *)
Lemma best_end_spec D m n :
  let c := fst (best_end D m n) in
  let e := snd (best_end D m n) in
  c = fold_left Rmin (map (get D m) (seq 1 n)) INF /\
  ((c < INF /\ exists j, first_argmin D m n j /\ e = (Z.of_nat j - 1)%Z
                         /\ c = get D m j)
   \/ (c = INF /\ e = (-1)%Z)).
Proof.
  cbv zeta. unfold best_end.
  set (f := fun (acc : R * Z) j =>
              if Rlt_dec (get D m j) (fst acc)
              then (get D m j, (Z.of_nat j - 1)%Z) else acc).
  pose (P := fun (k : nat) (acc : R * Z) =>
    fst acc = fold_left Rmin (map (get D m) (seq 1 (k - 1))) INF /\
    ((fst acc < INF /\
      exists j, (1 <= j < k)%nat /\ snd acc = (Z.of_nat j - 1)%Z /\
                fst acc = get D m j /\
                (forall j', (1 <= j' < k)%nat -> fst acc <= get D m j') /\
                (forall j', (1 <= j' < j)%nat -> fst acc < get D m j'))
     \/ (fst acc = INF /\ snd acc = (-1)%Z))).
  assert (H : P (1 + n)%nat (fold_left f (seq 1 n) (INF, (-1)%Z))).
  { apply fold_left_seq_inv.
    - split; [reflexivity | right; split; reflexivity].
    - intros j [c e] Hj (Hc & Hcase). cbn [fst snd] in *.
      assert (Hfold : fold_left Rmin (map (get D m) (seq 1 (S j - 1))) INF
                      = Rmin c (get D m j)).
      { replace (S j - 1)%nat with (S (j - 1)) by lia.
        rewrite seq_S, map_app, fold_left_app, <- Hc. cbn [map fold_left].
        now replace (1 + (j - 1))%nat with j by lia. }
      assert (Hle : forall j', (1 <= j' < j)%nat -> c <= get D m j').
      { intros j' Hj'. destruct Hcase as [(_ & j0 & _ & _ & _ & Hall & _)|(Hinf & _)].
        - now apply Hall.
        - rewrite Hc. apply fold_min_le_in, in_map, in_seq. lia. }
      unfold f; cbn [fst snd].
      destruct (Rlt_dec (get D m j) c) as [Hlt|Hge]; unfold P; cbn [fst snd].
      + split; [rewrite Hfold; unfold Rmin; destruct (Rle_dec _ _); lra|].
        left. split.
        * assert (c <= INF) by (rewrite Hc; apply fold_min_le_init). lra.
        * exists j. repeat split; try lia.
          -- intros j' Hj'. destruct (Nat.eq_dec j' j) as [->|Hne]; [lra|].
             specialize (Hle j' ltac:(lia)). lra.
          -- intros j' Hj'. specialize (Hle j' ltac:(lia)). lra.
      + split; [rewrite Hfold; unfold Rmin; destruct (Rle_dec _ _); lra|].
        destruct Hcase as [(Hfin & j0 & Hj0 & He & Hc0 & Hall & Hfirst)|Hinf].
        * left; split; [assumption|]. exists j0.
          repeat split; try lia; try assumption.
          intros j' Hj'. destruct (Nat.eq_dec j' j) as [->|Hne]; [lra|].
          apply Hall; lia.
        * now right. }
  destruct H as (Hc & Hcase). fold f.
  replace (1 + n - 1)%nat with n in Hc by lia.
  split; [exact Hc|].
  destruct Hcase as [(Hfin & j0 & Hj0 & He & Hc0 & Hall & Hfirst)|Hinf];
    [left | now right].
  split; [assumption|]. exists j0. split; [|split; assumption].
  split; [lia|]. split.
  - intros k Hk. rewrite <- Hc0. apply Hall; lia.
  - intros k Hk. rewrite <- Hc0. now apply Hfirst.
Qed.

Lemma capped_le_INF q s w D i j :
  recurrence_capped q s w D ->
  (1 <= i <= length (intervals q))%nat ->
  (1 <= j <= length (intervals s))%nat ->
  get D i j <= INF.
Proof.
  intros (_ & _ & Hr) Hi Hj. rewrite (Hr i j Hi Hj). cbn [minimum].
  apply fold_min_le_init.
Qed.

(** With [n >= 1] and a capped row, the running minimum that starts at
    the sentinel is the minimum of the row. *)
Lemma row_min_fold D m n :
  (1 <= n)%nat -> get D m 1 <= INF ->
  fold_left Rmin (map (get D m) (seq 1 n)) INF = row_min D m n.
Proof.
  intros Hn H1. unfold row_min.
  destruct n as [|n]; [lia|]. cbn [seq map fold_left minimum].
  now rewrite Rmin_right.
Qed.

Lemma tie_breaker_guard q s w c :
  (if truthy (pitches q) && truthy (pitches s)
   then c + w_abs w * (Rabs (mean (pitches q) - mean (pitches s)) / 12)
   else c)
  = c + tie_breaker q s w.
Proof.
  unfold tie_breaker.
  destruct (pitches q), (pitches s); cbn [truthy andb];
    first [lra | unfold Rdiv; ring].
Qed.

Lemma dp_distance_unfold q s w D :
  (1 <= length (intervals q))%nat -> (1 <= length (intervals s))%nat ->
  dp_table q s w = Some D ->
  dp_distance q s w
  = Some (mkResult
            (Fin (fst (best_end D (length (intervals q))
                                  (length (intervals s)))
                  + tie_breaker q s w))
            (snd (best_end D (length (intervals q))
                             (length (intervals s))))).
Proof.
  intros Hm Hn E. unfold dp_distance.
  destruct (length (intervals q) =? 0)%nat eqn:Em;
    [apply Nat.eqb_eq in Em; lia|].
  destruct (length (intervals s) =? 0)%nat eqn:En;
    [apply Nat.eqb_eq in En; lia|].
  cbn [orb]. rewrite E. cbn [bind].
  destruct (best_end D _ _) as [c e]. cbn [fst snd].
  now rewrite tie_breaker_guard.
Qed.

(** Cost and end index in terms of the table. *)
Lemma dp_distance_result q s w :
  aligned q -> aligned s ->
  (1 <= length (intervals q))%nat -> (1 <= length (intervals s))%nat ->
  let m := length (intervals q) in
  let n := length (intervals s) in
  exists D r,
    dp_table q s w = Some D /\ recurrence_capped q s w D /\
    dp_distance q s w = Some r /\
    cost r = Fin (row_min D m n + tie_breaker q s w) /\
    end_capped D m n (end_j r).
Proof.
  intros Hq Hs Hm Hn m n.
  destruct (dp_table_capped q s w Hq Hs) as (D & E & _ & Hrec).
  exists D. eexists. split; [exact E|]. split; [exact Hrec|].
  split; [exact (dp_distance_unfold q s w D Hm Hn E)|]. cbn [cost end_j].
  fold m n.
  destruct (best_end_spec D m n) as (Hc & Hcase).
  assert (H1 : get D m 1 <= INF)
    by (apply (capped_le_INF q s w); [assumption | lia | lia]).
  rewrite (row_min_fold D m n Hn H1) in Hc.
  split; [now rewrite Hc|]. unfold end_capped. rewrite <- Hc.
  destruct Hcase as [(Hfin & j & Hj & He & _)|(Hinf & He)]; split.
  - intros _. now exists j.
  - intros Habs. lra.
  - intros Habs. lra.
  - intros _. exact He.
Qed.

(** *** Bounds on the table *)

Lemma interval_cost_nonneg a b : 0 <= interval_cost a b.
Proof.
  unfold interval_cost.
  pose proof (IZR_le _ _ (Z.abs_nonneg (a - b))) as H. lra.
Qed.

Lemma contour_cost_nonneg a b : 0 <= contour_cost a b.
Proof. unfold contour_cost; destruct (a =? b)%Z; lra. Qed.

Lemma local_cost_nonneg q s w i j :
  nonneg_weights w -> 0 <= local_cost q s w i j.
Proof.
  intros (Hi & Hc & Ht & _). unfold local_cost.
  fold (interval_cost (qI q i) (cI s j)).
  pose proof (interval_cost_nonneg (qI q i) (cI s j)).
  assert (0 <= (if Z.eq_dec (qC q i) (cC s j) then 0 else 1))
    by (destruct (Z.eq_dec _ _); lra).
  assert (0 <= (if (2 <=? i)%nat && (2 <=? j)%nat
                then timing q s i j else 0)).
  { destruct (_ && _); [apply Rabs_pos | lra]. }
  repeat apply Rplus_le_le_0_compat; apply Rmult_le_pos; assumption.
Qed.

(** With non-negative weights no cell of the table is negative. *)
Lemma table_nonneg q s w D :
  nonneg_weights w -> recurrence_capped q s w D ->
  forall k i j, (i + j <= k)%nat ->
    (i <= length (intervals q))%nat -> (j <= length (intervals s))%nat ->
    0 <= get D i j.
Proof.
  intros Hw (Hz & Hc & Hr).
  pose proof Hw as (Hwi & Hwc & Hwt & _ & Hins & Hdel).
  induction k as [|k IH]; intros i j Hk Hi Hj.
  - assert (i = 0%nat) as -> by lia. rewrite Hz by assumption. lra.
  - destruct i as [|i]; [rewrite Hz by assumption; lra|].
    destruct j as [|j]; [rewrite Hc by lia; unfold INF; lra|].
    rewrite Hr by lia. cbn [minimum].
    apply fold_min_ge; [unfold INF; lra|].
    intros y Hy. unfold transitions in Hy.
    pose proof (local_cost_nonneg q s w (S i) (S j) Hw).
    pose proof (interval_cost_nonneg
                  (clamp4 (qI q (S i - 1) + qI q (S i))) (cI s (S j))).
    pose proof (interval_cost_nonneg
                  (qI q (S i)) (clamp4 (cI s (S j - 1) + cI s (S j)))).
    pose proof (contour_cost_nonneg (qC q (S i)) (cC s (S j))).
    assert (0 <= w_int w * interval_cost
                   (clamp4 (qI q (S i - 1) + qI q (S i))) (cI s (S j)))
      by (apply Rmult_le_pos; assumption).
    assert (0 <= w_int w * interval_cost
                   (qI q (S i)) (clamp4 (cI s (S j - 1) + cI s (S j))))
      by (apply Rmult_le_pos; assumption).
    assert (0 <= w_cont w * contour_cost (qC q (S i)) (cC s (S j)))
      by (apply Rmult_le_pos; assumption).
    assert (A : forall a b, (a + b <= k)%nat ->
                (a <= S i)%nat -> (b <= S j)%nat -> 0 <= get D a b)
      by (intros a b Hab Ha Hb; apply IH; lia).
    pose proof (A (S i - 1) (S j - 1))%nat ltac:(lia) ltac:(lia) ltac:(lia).
    pose proof (A (S i - 1) (S j))%nat ltac:(lia) ltac:(lia) ltac:(lia).
    pose proof (A (S i) (S j - 1))%nat ltac:(lia) ltac:(lia) ltac:(lia).
    pose proof (A (S i - 2) (S j - 1))%nat ltac:(lia) ltac:(lia) ltac:(lia).
    pose proof (A (S i - 1) (S j - 2))%nat ltac:(lia) ltac:(lia) ltac:(lia).
    destruct (2 <=? S i)%nat, (2 <=? S j)%nat; cbn [app In] in Hy;
      repeat (destruct Hy as [<-|Hy]; [lra|]); contradiction.
Qed.

(** Taking only insertions bounds row [i] by [i * ins_cost]. *)
Lemma table_le_insertions q s w D :
  recurrence_capped q s w D ->
  forall i j, (i <= length (intervals q))%nat ->
    (1 <= j <= length (intervals s))%nat ->
    get D i j <= INR i * ins_cost w.
Proof.
  intros (Hz & Hc & Hr). induction i as [|i IH]; intros j Hi Hj.
  - rewrite Hz by lia. cbn [INR]. lra.
  - rewrite Hr by lia. cbn [minimum].
    eapply Rle_trans.
    + apply fold_min_le_in with (y := get D (S i - 1) j + ins_cost w).
      unfold transitions. cbn [app In]. right; now left.
    + replace (S i - 1)%nat with i by lia.
      specialize (IH j ltac:(lia) Hj). rewrite S_INR. lra.
Qed.


Lemma row_min_nonneg D m n :
  (1 <= n)%nat -> (forall j, (1 <= j <= n)%nat -> 0 <= get D m j) ->
  0 <= row_min D m n.
Proof.
  intros Hn H. unfold row_min. destruct n as [|n]; [lia|].
  cbn [seq map minimum]. apply fold_min_ge.
  - apply H; lia.
  - intros y Hy. apply in_map_iff in Hy as (j & <- & Hj).
    apply in_seq in Hj. apply H; lia.
Qed.

Lemma row_min_le_first D m n :
  (1 <= n)%nat -> row_min D m n <= get D m 1.
Proof.
  intros Hn. unfold row_min. destruct n as [|n]; [lia|].
  cbn [seq map minimum]. apply fold_min_le_init.
Qed.

Lemma tie_breaker_nonneg q s w : 0 <= w_abs w -> 0 <= tie_breaker q s w.
Proof.
  intros H. unfold tie_breaker.
  destruct (pitches q), (pitches s); try lra.
  pose proof (Rabs_pos (mean (z :: l) - mean (z0 :: l0))).
  unfold Rdiv. apply Rmult_le_pos; [apply Rmult_le_pos; assumption | lra].
Qed.

Lemma default_weights_nonneg : nonneg_weights default_weights.
Proof. unfold nonneg_weights; cbn; repeat split; lra. Qed.

(** When [m * ins_cost] does not exceed the sentinel, the sentinel is
    never the minimum: the table satisfies the recurrence of §4.2 as it is
    worded. *)
Lemma capped_exact q s w D :
  recurrence_capped q s w D ->
  INR (length (intervals q)) * ins_cost w <= INF ->
  recurrence_4_2 q s w D.
Proof.
  intros Hrec Hbound. pose proof Hrec as (Hz & Hc & Hr).
  split; [exact Hz|]. split; [exact Hc|].
  intros i j Hi Hj. rewrite (Hr i j Hi Hj).
  unfold transitions. cbn [app].
  apply minimum_capped_exact with (y := get D (i - 1) j + ins_cost w);
    [now left|].
  pose proof (table_le_insertions q s w D Hrec (i - 1) j
                ltac:(lia) Hj) as Hb.
  assert (Hi' : INR (i - 1) + 1 = INR i).
  { rewrite <- S_INR. f_equal. lia. }
  assert (Hle : INR i <= INR (length (intervals q)))
    by (apply le_INR; lia).
  pose proof (pos_INR i) as Hpos.
  destruct (Rle_dec 0 (ins_cost w)); unfold INF in *; nra.
Qed.

(** C1 (as amended): for aligned representations with [m >= 1] and
    [n >= 1] the table computed by [dp_distance] has [D[0][j] = 0] for all
    [j], holds the finite sentinel [1e18] in [D[i][0]] for [i >= 1], and
    each [D[i][j]], [i, j >= 1], is the minimum of that sentinel and the
    transitions (1) to (5) that are valid at [(i, j)]; when
    [m * ins_cost <= 1e18], as with the default weights on any list that
    fits in memory, the sentinel is never the minimum and [D[i][j]] is the
    minimum of the valid transitions alone. *)
Theorem dp_table_recurrence (q s : MelodyRep) (w : Weights) :
  aligned q -> aligned s ->
  (1 <= length (intervals q))%nat -> (1 <= length (intervals s))%nat ->
  exists D,
    dp_table q s w = Some D /\
    recurrence_capped q s w D /\
    (INR (length (intervals q)) * ins_cost w <= INF ->
     recurrence_4_2 q s w D).
Proof.
  intros Hq Hs _ _.
  destruct (dp_table_capped q s w Hq Hs) as (D & E & _ & H).
  exists D. split; [exact E|]. split; [exact H|].
  now apply capped_exact.
Qed.

Lemma dp_table_recurrence_witness :
  exists D,
    dp_table up_rep down_rep default_weights = Some D /\
    recurrence_capped up_rep down_rep default_weights D /\
    (INR (length (intervals up_rep)) * ins_cost default_weights <= INF ->
     recurrence_4_2 up_rep down_rep default_weights D).
Proof.
  apply dp_table_recurrence.
  - exact aligned_up_rep.
  - exact aligned_down_rep.
  - simpl; lia.
  - simpl; lia.
Defined.

(** C1 as stated fails: with [w_int = ins_cost = del_cost = 2e18] every
    transition into [D[1][1]] costs at least [2e18], and the cell holds
    the sentinel [1e18], which is the cost of no transition. *)
Lemma dp_table_recurrence_counterexample :
  aligned up_rep /\ aligned down_rep /\
  (1 <= length (intervals up_rep))%nat /\
  (1 <= length (intervals down_rep))%nat /\
  exists D, dp_table up_rep down_rep heavy_weights = Some D /\
            get D 1 1 = INF /\
            minimum INF (transitions up_rep down_rep heavy_weights D 1 1)
              = 2 * INF /\
            ~ recurrence_4_2 up_rep down_rep heavy_weights D.
Proof.
  split; [exact aligned_up_rep|]. split; [exact aligned_down_rep|].
  split; [simpl; lia|]. split; [simpl; lia|].
  destruct (dp_table_capped up_rep down_rep heavy_weights
              aligned_up_rep aligned_down_rep) as (D & E & _ & H).
  destruct (heavy_cell D H) as (H1 & H2).
  exists D. repeat split; try assumption.
  intros (_ & _ & Hr).
  specialize (Hr 1%nat 1%nat ltac:(simpl; lia) ltac:(simpl; lia)).
  rewrite H1, H2 in Hr. unfold INF in Hr. lra.
Qed.

(** C2 (as amended): for aligned representations with [m >= 1] and
    [n >= 1], the returned cost is the minimum of [D[m][j]] over [j] in
    [[1, n]] plus the tie-breaker [w_abs * |mean - mean| / 12], which is
    added exactly when both pitch lists are non-empty; the returned end
    index is [j - 1] for the first [j] attaining that minimum when the
    minimum is below the sentinel [1e18], which is so when
    [m * ins_cost < 1e18], and [-1] when the whole row holds the
    sentinel. *)
Theorem dp_distance_cost_and_end (q s : MelodyRep) (w : Weights) :
  aligned q -> aligned s ->
  (1 <= length (intervals q))%nat -> (1 <= length (intervals s))%nat ->
  let m := length (intervals q) in
  let n := length (intervals s) in
  exists D r,
    dp_table q s w = Some D /\
    dp_distance q s w = Some r /\
    cost r = Fin (row_min D m n + tie_breaker q s w) /\
    end_capped D m n (end_j r) /\
    (INR m * ins_cost w < INF -> end_4_2 D m n (end_j r)).
Proof.
  intros Hq Hs Hm Hn. cbv zeta.
  destruct (dp_distance_result q s w Hq Hs Hm Hn)
    as (D & r & E & Hrec & Er & Hc & He).
  exists D, r. split; [exact E|]. split; [exact Er|].
  split; [exact Hc|]. split; [exact He|].
  intros Hb. apply (proj1 He).
  pose proof (row_min_le_first D (length (intervals q))
                (length (intervals s)) Hn).
  pose proof (table_le_insertions q s w D Hrec (length (intervals q)) 1%nat
                ltac:(lia) ltac:(lia)).
  lra.
Qed.

Lemma dp_distance_cost_and_end_witness :
  exists D r,
    dp_table up_rep down_rep default_weights = Some D /\
    dp_distance up_rep down_rep default_weights = Some r /\
    cost r = Fin (row_min D 1 1
                  + tie_breaker up_rep down_rep default_weights) /\
    end_capped D 1 1 (end_j r) /\
    (INR 1 * ins_cost default_weights < INF -> end_4_2 D 1 1 (end_j r)).
Proof.
  apply (dp_distance_cost_and_end up_rep down_rep default_weights).
  - exact aligned_up_rep.
  - exact aligned_down_rep.
  - simpl; lia.
  - simpl; lia.
Defined.

(** C2 as stated fails on the end index: with
    [w_int = ins_cost = del_cost = 2e18] the only cell of row [m] holds
    the sentinel, the strict comparison never fires, and [dp_distance]
    returns [end_j = -1] where the first minimizing [j] is [1]. *)
Lemma dp_distance_cost_and_end_counterexample :
  aligned up_rep /\ aligned down_rep /\
  exists D r,
    dp_table up_rep down_rep heavy_weights = Some D /\
    dp_distance up_rep down_rep heavy_weights = Some r /\
    first_argmin D 1 1 1 /\
    end_j r = (-1)%Z /\
    ~ end_4_2 D 1 1 (end_j r).
Proof.
  split; [exact aligned_up_rep|]. split; [exact aligned_down_rep|].
  destruct (dp_distance_result up_rep down_rep heavy_weights
              aligned_up_rep aligned_down_rep)
    as (D & r & E & Hrec & Er & _ & (_ & He)); try (simpl; lia).
  destruct (heavy_cell D Hrec) as (H11 & _).
  assert (Hend : end_j r = (-1)%Z).
  { apply He. unfold row_min. cbn [seq map minimum fold_left].
    exact H11. }
  exists D, r. split; [exact E|]. split; [exact Er|]. split; [|split].
  - split; [lia|]. split.
    + intros k Hk. assert (k = 1%nat) as -> by lia. lra.
    + intros k Hk. lia.
  - exact Hend.
  - rewrite Hend. intros (j & (Hj & _) & Hneg). lia.
Qed.




End ResultFacts.

(* ------------------------------------------------------------------ *)
(** ** C9: tempo invariance of the timing cost *)

Section TimingFacts.
Import Repr Similarity AlignSpec Samples.

Local Open Scope R_scope.

Lemma eps_pos : 0 < eps.
Proof. unfold eps; lra. Qed.

Lemma scaled_ratio (c q_prev q : R) :
  0 < c -> eps <= q_prev -> eps <= c * q_prev ->
  c * q / Rmax eps (c * q_prev) = q / Rmax eps q_prev.
Proof.
  intros Hc Hp Hcp. pose proof eps_pos.
  rewrite !Rmax_right by assumption.
  field. split; lra.
Qed.

(** C9: for a scale factor [c > 0] and consecutive query IOIs
    [(q_prev, q)] with [q_prev >= 1e-6] and [c * q_prev >= 1e-6], the
    timing cost against the candidate IOIs [(c * q_prev, c * q)] is [0];
    hence an IOI sequence and its uniform scaling by [c] have timing cost
    [0] at every position [i >= 2] they share. *)
Theorem timing_tempo_invariant (c : R) :
  0 < c ->
  (forall q_prev q,
     eps <= q_prev -> eps <= c * q_prev ->
     timing_ratio_cost q_prev q (c * q_prev) (c * q) = 0) /\
  (forall query candidate i,
     ioi candidate = map (Rmult c) (ioi query) ->
     (forall x, In x (ioi query) -> eps <= x /\ eps <= c * x) ->
     (2 <= i <= length (ioi query))%nat ->
     timing query candidate i i = 0).
Proof.
  intros Hc. split.
  - intros q_prev q Hp Hcp. unfold timing_ratio_cost. cbv zeta.
    rewrite scaled_ratio by assumption.
    rewrite Rminus_diag. apply Rabs_R0.
  - intros query candidate i Hioi Hall Hi.
    unfold timing, qT, cT, at1. rewrite Hioi. cbv zeta.
    rewrite !(nth_map_in (Rmult c) (ioi query) 0 0) by lia.
    destruct (Hall (nth (i - 1 - 1) (ioi query) 0)) as (Hp & Hcp);
      [apply nth_In; lia|].
    rewrite scaled_ratio by assumption.
    rewrite Rminus_diag. apply Rabs_R0.
Qed.

Lemma timing_tempo_invariant_witness :
  timing_ratio_cost (1 / 2) (1 / 4) (2 * (1 / 2)) (2 * (1 / 4)) = 0.
Proof.
  apply (proj1 (timing_tempo_invariant 2 ltac:(lra))); unfold eps; lra.
Defined.

End TimingFacts.

(* ------------------------------------------------------------------ *)
(** ** C4: building and loading the corpus *)

Section DatabaseFacts.
Import Repr Similarity Database.

Variable extract_melody_notes : string -> R -> list NoteEvent + string.

Lemma notes_to_rep_length_invariant notes :
  length_invariant (notes_to_rep notes).
Proof.
  unfold length_invariant. cbv zeta.
  destruct (Nat.lt_ge_cases (length notes) 2) as [Hs|Hl].
  - rewrite (notes_to_rep_short _ Hs); cbn. rewrite length_map.
    split; [lia | auto].
  - rewrite (notes_to_rep_long _ Hl); cbn.
    rewrite !length_map, !consecutive_length, !length_map.
    split; [auto | lia].
Qed.


Lemma build_step_spec (d : R) db bad p :
  let out := build_step extract_melody_notes d (db, bad) p in
  let ok := usable_path extract_melody_notes d p in
  (Forall built_entry db -> Forall built_entry (fst out)) /\
  (Forall (logged_reason extract_melody_notes d) bad -> Forall (logged_reason extract_melody_notes d) (snd out)) /\
  map midi_path (fst out)
    = map midi_path db ++ (if ok then [p] else []) /\
  map fst (snd out) = map fst bad ++ (if ok then [] else [p]).
Proof.
  cbv zeta. unfold build_step, usable_path.
  destruct (extract_melody_notes p d) as [notes|msg] eqn:Ex.
  - destruct (length (intervals (notes_to_rep notes)) <? 2)%nat eqn:El.
    + apply Nat.ltb_lt in El.
      replace (2 <=? length (intervals (notes_to_rep notes)))%nat
        with false by (symmetry; apply Nat.leb_gt; lia).
      cbn [fst snd]. rewrite app_nil_r, map_app. cbn [map fst].
      repeat split; auto.
      intros Hb. apply Forall_app; split; [exact Hb|].
      constructor; [|constructor]. unfold logged_reason. cbn [fst snd].
      now rewrite Ex.
    + apply Nat.ltb_ge in El.
      replace (2 <=? length (intervals (notes_to_rep notes)))%nat
        with true by (symmetry; apply Nat.leb_le; lia).
      cbn [fst snd]. rewrite app_nil_r, map_app. cbn [map midi_path].
      repeat split; auto.
      intros Hb. apply Forall_app; split; [exact Hb|].
      constructor; [|constructor]. split; [|exact El].
      unfold entry_to_rep. cbn.
      pose proof (notes_to_rep_length_invariant notes) as Hinv.
      now destruct (notes_to_rep notes).
  - cbn [fst snd]. rewrite app_nil_r, map_app. cbn [map fst].
    repeat split; auto.
    intros Hb. apply Forall_app; split; [exact Hb|].
    constructor; [|constructor]. unfold logged_reason. cbn [fst snd].
    now rewrite Ex.
Qed.

Lemma build_fold (d : R) (paths : list string) :
  forall db bad,
    let out := fold_left (build_step extract_melody_notes d) paths
                         (db, bad) in
    (Forall built_entry db -> Forall built_entry (fst out)) /\
    (Forall (logged_reason extract_melody_notes d) bad -> Forall (logged_reason extract_melody_notes d) (snd out)) /\
    map midi_path (fst out)
      = map midi_path db ++ filter (usable_path extract_melody_notes d) paths /\
    map fst (snd out)
      = map fst bad
        ++ filter (fun p => negb (usable_path extract_melody_notes d p)) paths.
Proof.
  induction paths as [|p paths IH]; intros db bad; cbn [fold_left filter].
  - cbn [fst snd]. rewrite !app_nil_r. auto.
  - destruct (build_step_spec d db bad p) as (S1 & S2 & S3 & S4).
    destruct (build_step extract_melody_notes d (db, bad) p)
      as [db1 bad1].
    cbn [fst snd] in S1, S2, S3, S4.
    destruct (IH db1 bad1) as (H1 & H2 & H3 & H4).
    split; [auto|]. split; [auto|].
    rewrite H3, H4, S3, S4, <- !app_assoc.
    destruct (usable_path extract_melody_notes d p); cbn [negb app];
      split; reflexivity.
Qed.

Example song_id_of_path_sample :
  song_id_of_path "data/midi_songs/twinkle.v2.mid"%string
  = "twinkle.v2"%string.
Proof. reflexivity. Qed.

Lemma kwargs_entry_dict e : SongEntry_kwargs (entry_dict e) = Some e.
Proof. destruct e; reflexivity. Qed.

Lemma load_db_entry_dicts entries :
  load_db (map entry_dict entries) = Some entries.
Proof.
  induction entries as [|e es IH]; [reflexivity|].
  cbn [map load_db]. rewrite kwargs_entry_dict, IH. reflexivity.
Qed.

(** C4 (as amended): [load_db] validates nothing: every stored record
    is returned unchanged and in order, whatever the lengths of its
    sequences.  The length invariant of §3 holds for every entry that
    [build_db] creates; [build_db] rejects with a logged reason every path
    whose extraction raises or whose melody has fewer than two intervals,
    and goes on with the remaining paths. *)
Theorem corpus_build_and_load :
  (forall entries, load_db (map entry_dict entries) = Some entries) /\
  (forall paths d,
     let db := fst (build_db extract_melody_notes paths d) in
     let bad := snd (build_db extract_melody_notes paths d) in
     Forall built_entry db /\
     Forall (logged_reason extract_melody_notes d) bad /\
     map midi_path db = filter (usable_path extract_melody_notes d) paths /\
     map fst bad
       = filter (fun p => negb (usable_path extract_melody_notes d p)) paths).
Proof.
  split; [exact load_db_entry_dicts|].
  intros paths d. cbv zeta. unfold build_db.
  destruct (build_fold d paths [] []) as (H1 & H2 & H3 & H4).
  split; [apply H1; constructor|]. split; [apply H2; constructor|].
  split; [exact H3 | exact H4].
Qed.

End DatabaseFacts.

Section DatabaseCounterexample.
Import Repr Similarity Database.

(** C4 as stated fails: a stored record with two pitches, one interval
    and no contour is loaded as it is, next to a well-formed one; nothing
    is rejected and no reason is produced. *)
Lemma corpus_build_and_load_counterexample :
  load_db [entry_dict ragged_entry; entry_dict sound_entry]
    = Some [ragged_entry; sound_entry] /\
  ~ length_invariant (entry_to_rep ragged_entry) /\
  length_invariant (entry_to_rep sound_entry).
Proof.
  split; [reflexivity|]. split.
  - intros (H & _). cbn in H. destruct H as (_ & H & _); [lia | discriminate H].
  - split; cbn; intros; [auto | lia].
Qed.

End DatabaseCounterexample.

(* ------------------------------------------------------------------ *)
(** ** C5: the keep-minimum combine *)

Section CombineFacts.
Import Repr Similarity Database App ScanSpec.

Local Open Scope R_scope.


Ltac case_xlt :=
  unfold xlt in *;
  repeat match goal with
  | |- context [Rlt_dec ?x ?y] => destruct (Rlt_dec x y)
  | H : context [Rlt_dec ?x ?y] |- _ => destruct (Rlt_dec x y)
  end.

Lemma xmin_comm a b : xmin a b = xmin b a.
Proof.
  unfold xmin; destruct a as [x|], b as [y|]; case_xlt;
    try reflexivity; try discriminate; f_equal; lra.
Qed.

Lemma xmin_assoc a b c : xmin (xmin a b) c = xmin a (xmin b c).
Proof.
  unfold xmin; destruct a as [x|], b as [y|], c as [z|]; case_xlt;
    try reflexivity; try discriminate; try (f_equal; lra);
    case_xlt; try reflexivity; try discriminate; try (f_equal; lra).
Qed.

Lemma keep_min_score a b :
  best_score (keep_min a b) = xmin (best_score a) (best_score b).
Proof.
  unfold keep_min, xmin. now destruct (xlt (best_score b) (best_score a)).
Qed.

Lemma keep_min_assoc a b c :
  keep_min (keep_min a b) c = keep_min a (keep_min b c).
Proof.
  unfold keep_min.
  destruct (best_score a) as [x|] eqn:Ea, (best_score b) as [y|] eqn:Eb,
           (best_score c) as [z|] eqn:Ec;
    cbn [xlt];
    repeat match goal with
    | |- context [Rlt_dec ?u ?v] => destruct (Rlt_dec u v)
    end;
    rewrite ?Ea, ?Eb, ?Ec; cbn [xlt];
    repeat match goal with
    | |- context [Rlt_dec ?u ?v] => destruct (Rlt_dec u v)
    end;
    try reflexivity; exfalso; lra.
Qed.

Lemma fold_keep_min_score l : forall i,
  best_score (fold_left keep_min l i)
  = fold_left xmin (map best_score l) (best_score i).
Proof.
  induction l as [|a l IH]; intros i; [reflexivity|].
  cbn [fold_left map]. now rewrite IH, keep_min_score.
Qed.

Lemma fold_xmin_perm l l' :
  Permutation l l' -> forall i, fold_left xmin l i = fold_left xmin l' i.
Proof.
  induction 1 as [|x l l' _ IH|x y l|l1 l2 l3 _ IH1 _ IH2]; intros i;
    cbn [fold_left].
  - reflexivity.
  - apply IH.
  - f_equal. rewrite !xmin_assoc. f_equal. apply xmin_comm.
  - now rewrite IH1.
Qed.


(** C5 (as amended): the keep-minimum combine is associative; it is
    commutative in the score it yields, and commutative outright when the
    two scores differ; on a tie it keeps its first argument.  So the best
    score of a song does not depend on the order in which its windows are
    reduced, while the cost, length and start reported for a tie are those
    of the window reduced first. *)
Theorem keep_min_algebra :
  (forall a b c, keep_min (keep_min a b) c = keep_min a (keep_min b c)) /\
  (forall a b, best_score (keep_min a b) = best_score (keep_min b a)) /\
  (forall a b, best_score a <> best_score b ->
               keep_min a b = keep_min b a) /\
  (forall a b, best_score a = best_score b -> keep_min a b = a) /\
  (forall l l' i, Permutation l l' ->
     best_score (fold_left keep_min l i)
     = best_score (fold_left keep_min l' i)).
Proof.
  split; [exact keep_min_assoc|]. split; [|split; [|split]].
  - intros a b. rewrite !keep_min_score. apply xmin_comm.
  - intros a b Hne. unfold keep_min.
    destruct (best_score a) as [x|], (best_score b) as [y|]; cbn [xlt];
      try reflexivity; try congruence.
    destruct (Rlt_dec y x), (Rlt_dec x y); try reflexivity; try lra.
    exfalso. apply Hne. f_equal. lra.
  - intros a b E. unfold keep_min. rewrite E.
    destruct (best_score b) as [y|]; cbn [xlt]; [|reflexivity].
    destruct (Rlt_dec y y); [lra | reflexivity].
  - intros l l' i Hp. rewrite !fold_keep_min_score.
    apply fold_xmin_perm. now apply Permutation_map.
Qed.

Lemma keep_min_algebra_witness :
  best_score tie_first = best_score tie_second /\
  keep_min tie_first tie_second = tie_first /\
  best_score (fold_left keep_min [tie_first; tie_second] init_best)
  = best_score (fold_left keep_min [tie_second; tie_first] init_best).
Proof.
  destruct keep_min_algebra as (_ & _ & _ & Htie & Hperm).
  split; [reflexivity|]. split.
  - apply Htie. reflexivity.
  - apply Hperm. apply perm_swap.
Defined.

(** C5 as stated fails: the combine is not commutative.  Two windows
    that tie are each kept when they come first. *)
Lemma keep_min_algebra_counterexample :
  keep_min tie_first tie_second = tie_first /\
  keep_min tie_second tie_first = tie_second /\
  keep_min tie_first tie_second <> keep_min tie_second tie_first /\
  fold_left keep_min [tie_first; tie_second] init_best
  <> fold_left keep_min [tie_second; tie_first] init_best.
Proof.
  assert (E1 : keep_min tie_first tie_second = tie_first).
  { unfold keep_min, tie_first, tie_second; cbn [best_score xlt].
    destruct (Rlt_dec _ _); [lra | reflexivity]. }
  assert (E2 : keep_min tie_second tie_first = tie_second).
  { unfold keep_min, tie_first, tie_second; cbn [best_score xlt].
    destruct (Rlt_dec _ _); [lra | reflexivity]. }
  assert (E3 : keep_min init_best tie_first = tie_first) by reflexivity.
  assert (E4 : keep_min init_best tie_second = tie_second) by reflexivity.
  assert (Hne : tie_first <> tie_second).
  { intros E. apply (f_equal best_len) in E. discriminate E. }
  split; [exact E1|]. split; [exact E2|]. split.
  - rewrite E1, E2. exact Hne.
  - cbn [fold_left]. rewrite E3, E4, E1, E2. exact Hne.
Qed.

End CombineFacts.

(* ------------------------------------------------------------------ *)
(** ** The window scan of [find_windowed_matches] *)

Section WindowFacts.
Import Repr Similarity Database App ScanSpec.

Local Open Scope R_scope.

Lemma nat_above (x : R) : exists N : nat, x < INR N.
Proof.
  destruct (archimed x) as (Hup & _).
  destruct (Z_lt_le_dec 0 (up x)) as [Hpos|Hneg].
  - exists (Z.to_nat (up x)).
    rewrite INR_IZR_INZ, Z2Nat.id by lia. lra.
  - exists 0%nat. apply IZR_le in Hneg. cbn [INR]. lra.
Qed.

Lemma offset_exact (hop : R) (k : nat) : offset Rplus hop k = INR k * hop.
Proof.
  induction k as [|k IH]; [cbn; lra|].
  change (offset Rplus hop (S k)) with (offset Rplus hop k + hop).
  rewrite IH, S_INR. lra.
Qed.

(** In exact arithmetic and with a positive hop the loop ends. *)
Lemma exact_loop_stops (win hop duration : R) :
  0 < hop ->
  exists K : nat,
    loop_stops_at Rplus win hop duration K /\
    forall k : nat, (k < K)%nat <-> INR k * hop + win <= duration.
Proof.
  intros Hhop.
  assert (Hmono : forall a b : nat, (a <= b)%nat -> INR a * hop <= INR b * hop).
  { intros a b Hab. apply Rmult_le_compat_r; [lra | now apply le_INR]. }
  assert (G : forall N : nat, ~ INR N * hop + win <= duration ->
            exists K : nat,
              (forall k : nat, (k < K)%nat -> INR k * hop + win <= duration) /\
              ~ INR K * hop + win <= duration).
  { induction N as [|N IH]; intros HN.
    - exists 0%nat. split; [lia | exact HN].
    - destruct (Rle_dec (INR N * hop + win) duration) as [Hle|Hgt].
      + exists (S N). split; [|exact HN].
        intros k Hk. pose proof (Hmono k N ltac:(lia)). lra.
      + exact (IH Hgt). }
  destruct (nat_above ((duration - win) / hop)) as (N & HN).
  destruct (G N) as (K & Hbelow & Hstop).
  { apply (Rmult_lt_compat_r hop) in HN; [|assumption].
    unfold Rdiv in HN. rewrite Rmult_assoc, Rinv_l in HN by lra. lra. }
  exists K. split.
  - split.
    + intros k Hk. rewrite offset_exact. now apply Hbelow.
    + rewrite offset_exact. exact Hstop.
  - intros k. split; [apply Hbelow|].
    intros Hle. destruct (Nat.lt_ge_cases k K) as [Hlt|Hge]; [exact Hlt|].
    exfalso. apply Hstop. pose proof (Hmono K k Hge). lra.
Qed.

Lemma Rleb_le (a b : R) : Rleb a b = true <-> a <= b.
Proof.
  unfold Rleb. destruct (Rle_dec a b); split; auto; discriminate.
Qed.

Section Rounded.

Variable fadd : R -> R -> R.

(** The loop appends the windows before the one at which it leaves, and
    any fuel above their number suffices. *)
Lemma window_starts_run (win hop duration : R) (K : nat) :
  loop_stops_at fadd win hop duration K ->
  forall n j fuel, (j + n = K)%nat -> (n < fuel)%nat ->
    window_starts fadd Rleb fuel win hop duration (offset fadd hop j)
    = Some (map (offset fadd hop) (seq j n)).
Proof.
  intros (Hbelow & Hstop).
  induction n as [|n IH]; intros j [|fuel] Hj Hf; try lia;
    cbn [window_starts seq map].
  - replace j with K by lia.
    destruct (Rleb _ _) eqn:E; [|reflexivity].
    apply Rleb_le in E. contradiction.
  - destruct (Rleb _ _) eqn:E.
    + change (fadd (offset fadd hop j) hop) with (offset fadd hop (S j)).
      rewrite (IH (S j) fuel) by lia. reflexivity.
    + assert (E' : Rleb (fadd (offset fadd hop j) win) duration = true)
        by (apply Rleb_le, Hbelow; lia).
      congruence.
Qed.

Lemma window_starts_stops (win hop duration : R) (K fuel : nat) :
  loop_stops_at fadd win hop duration K -> (K < fuel)%nat ->
  window_starts fadd Rleb fuel win hop duration 0
  = Some (map (offset fadd hop) (seq 0 K)).
Proof.
  intros Hstop Hf.
  exact (window_starts_run win hop duration K Hstop K 0%nat fuel
           eq_refl Hf).
Qed.

Lemma or_single_generated (hop : R) (K : nat) :
  or_single (map (offset fadd hop) (seq 0 K)) = generated fadd hop K.
Proof. destruct K; reflexivity. Qed.

(** A loop whose test never fails uses up any fuel. *)
Lemma window_starts_endless (win hop duration : R) :
  (forall k : nat, fadd (offset fadd hop k) win <= duration) ->
  forall fuel j,
    window_starts fadd Rleb fuel win hop duration (offset fadd hop j) = None.
Proof.
  intros Hall. induction fuel as [|fuel IH]; intros j;
    cbn [window_starts]; [reflexivity|].
  rewrite (proj2 (Rleb_le _ _) (Hall j)).
  change (fadd (offset fadd hop j) hop) with (offset fadd hop (S j)).
  now rewrite IH.
Qed.

End Rounded.

End WindowFacts.

(* ------------------------------------------------------------------ *)
(** ** The window loop on doubles *)

Section DoubleFacts.
Import App ScanSpec Doubles.

Local Open Scope R_scope.

Lemma to_R_d5 : to_R d5 = 5.
Proof.
  unfold to_R.
  replace (ratio d5) with (5629499534213120, 1125899906842624)%Z
    by (vm_compute; reflexivity).
  cbn [fst snd]. lra.
Qed.

Lemma to_R_d16 : to_R d16 = 16.
Proof.
  unfold to_R.
  replace (ratio d16) with (4503599627370496, 281474976710656)%Z
    by (vm_compute; reflexivity).
  cbn [fst snd]. lra.
Qed.

(** The double [1.1] lies above the real number [1.1]. *)
Lemma to_R_d1_1 : to_R d1_1 = 4953959590107546 / 4503599627370496.
Proof.
  unfold to_R.
  replace (ratio d1_1) with (4953959590107546, 4503599627370496)%Z
    by (vm_compute; reflexivity).
  reflexivity.
Qed.

(** On the doubles [win = 5.0], [hop = 1.1], [duration = 16.0] the loop
    appends eleven starts: the sums accumulate rounding errors and the
    eleventh start is [10.999999999999998]. *)
Lemma doubles_eleven_starts :
  exists l, starts 12 d5 d1_1 d16 = Some l /\ length l = 11%nat /\
            nth 10 l d5 = d11_below.
Proof.
  eexists. split; [vm_compute; reflexivity|]. split; reflexivity.
Qed.

(** In exact arithmetic on the same three doubles there are ten windows
    [0, hop, ..., 9 hop]: [10 hop + win] exceeds the duration. *)
Lemma exact_ten_windows :
  loop_stops_at Rplus (to_R d5) (to_R d1_1) (to_R d16) 10.
Proof.
  rewrite to_R_d5, to_R_d16, to_R_d1_1. split.
  - intros k Hk. rewrite offset_exact.
    do 10 (destruct k as [|k]; [cbn [INR]; lra|]). lia.
  - rewrite offset_exact. cbn [INR]. lra.
Qed.

End DoubleFacts.

(* ------------------------------------------------------------------ *)
(** ** Dicts keyed by song id *)

Section DictFacts.
Import Repr Similarity Database App ScanSpec.

Lemma dict_set_new d k v :
  ~ In k (map fst d) -> dict_set d k v = d ++ [(k, v)].
Proof.
  induction d as [|[k' w] d IH]; intros Hk; cbn [app dict_set];
    [reflexivity|].
  cbn [map fst In] in Hk.
  destruct (String.eqb_spec k k') as [->|_]; [tauto|].
  f_equal. apply IH; tauto.
Qed.

Lemma filter_none {A} (f : A -> bool) l :
  (forall x, In x l -> f x = false) -> filter f l = [].
Proof.
  induction l as [|x l IH]; intros H; cbn [filter]; [reflexivity|].
  rewrite (H x) by now left. apply IH. intros y Hy. apply H. now right.
Qed.

Lemma existsb_eqb_In k (l : list string) :
  existsb (String.eqb k) l = true <-> In k l.
Proof.
  rewrite existsb_exists. split.
  - intros (x & Hx & E). apply String.eqb_eq in E. now subst.
  - intros H. exists k. split; [exact H | apply String.eqb_refl].
Qed.

Lemma first_seen_ext ids : forall seen seen',
  (forall k, In k seen <-> In k seen') ->
  first_seen seen ids = first_seen seen' ids.
Proof.
  induction ids as [|k ids IH]; intros seen seen' H; cbn [first_seen];
    [reflexivity|].
  assert (E : existsb (String.eqb k) seen = existsb (String.eqb k) seen').
  { destruct (existsb (String.eqb k) seen) eqn:E1,
             (existsb (String.eqb k) seen') eqn:E2; try reflexivity.
    - apply existsb_eqb_In, H, existsb_eqb_In in E1. congruence.
    - apply existsb_eqb_In, H, existsb_eqb_In in E2. congruence. }
  rewrite E. destruct (existsb (String.eqb k) seen').
  - now apply IH.
  - f_equal. apply IH. intros x. cbn [In]. now rewrite H.
Qed.

(** [first_seen] lists every new id once. *)
Lemma first_seen_spec ids : forall seen,
  NoDup (first_seen seen ids) /\
  forall k, In k (first_seen seen ids) <-> In k ids /\ ~ In k seen.
Proof.
  induction ids as [|a ids IH]; intros seen; cbn [first_seen].
  - split; [constructor|]. intros k. cbn [In]. tauto.
  - destruct (existsb (String.eqb a) seen) eqn:E.
    + apply existsb_eqb_In in E.
      destruct (IH seen) as (Hnd & Hin). split; [exact Hnd|].
      intros k. rewrite Hin. cbn [In]. split; [tauto|].
      intros ([<-|Hk] & Hs); [contradiction | tauto].
    + assert (Ha : ~ In a seen).
      { intros Hin. apply existsb_eqb_In in Hin. congruence. }
      destruct (IH (a :: seen)) as (Hnd & Hin). split.
      * constructor; [|exact Hnd]. rewrite Hin. cbn [In]. tauto.
      * intros k. cbn [In]. rewrite Hin. cbn [In].
        destruct (string_dec a k) as [->|Hne]; tauto.
Qed.

(** Ids without repetition are their own list of distinct ids. *)
Lemma first_seen_distinct ids : forall seen,
  NoDup ids -> (forall k, In k ids -> ~ In k seen) ->
  first_seen seen ids = ids.
Proof.
  induction ids as [|a ids IH]; intros seen Hnd Hs; cbn [first_seen];
    [reflexivity|].
  inversion Hnd as [|? ? Ha Hnd']; subst.
  destruct (existsb (String.eqb a) seen) eqn:E.
  - apply existsb_eqb_In in E. exfalso. apply (Hs a); [now left | exact E].
  - f_equal. apply IH; [exact Hnd'|].
    intros k Hk [<-|Hin]; [contradiction|].
    apply (Hs k); [now right | exact Hin].
Qed.

Lemma distinct_ids_spec db :
  NoDup (distinct_ids db) /\
  forall k, In k (distinct_ids db) <-> In k (map song_id db).
Proof.
  unfold distinct_ids. destruct (first_seen_spec (map song_id db) [])
    as (Hnd & Hin).
  split; [exact Hnd|]. intros k. rewrite Hin. cbn [In]. tauto.
Qed.

Lemma distinct_ids_length db : (length (distinct_ids db) <= length db)%nat.
Proof.
  unfold distinct_ids. rewrite <- (length_map song_id db).
  generalize (map song_id db) as ids. intros ids.
  generalize (@nil string) as seen.
  induction ids as [|a ids IH]; intros seen; cbn [first_seen length];
    [lia|].
  destruct (existsb _ _); cbn [length].
  - specialize (IH seen). lia.
  - specialize (IH (a :: seen)). lia.
Qed.

Lemma keyed_keys f ks : map fst (keyed f ks) = ks.
Proof. unfold keyed. rewrite map_map. cbn [fst]. apply map_id. Qed.

Lemma keyed_ext f g ks :
  (forall k, In k ks -> f k = g k) -> keyed f ks = keyed g ks.
Proof.
  intros H. unfold keyed. apply map_ext_in. intros k Hk. now rewrite H.
Qed.

Lemma keyed_app f a b : keyed f (a ++ b) = keyed f a ++ keyed f b.
Proof. apply map_app. Qed.

Lemma dict_get_keyed f ks k :
  In k ks -> dict_get (keyed f ks) k = Some (f k).
Proof.
  induction ks as [|a ks IH]; intros Hin; [destruct Hin|].
  cbn [keyed map dict_get]. fold (keyed f ks).
  destruct (String.eqb_spec k a) as [->|Hne]; [reflexivity|].
  apply IH. destruct Hin as [->|Hin]; [congruence | exact Hin].
Qed.

(** Writing under a key of a dict without repeated keys changes the
    value of that key and nothing else. *)
Lemma dict_set_keyed f ks k v :
  NoDup ks -> In k ks ->
  dict_set (keyed f ks) k v
  = keyed (fun k' => if String.eqb k' k then v else f k') ks.
Proof.
  induction ks as [|a ks IH]; intros Hnd Hin; [destruct Hin|].
  inversion Hnd as [|? ? Ha Hnd']; subst.
  cbn [keyed map dict_set]. fold (keyed f ks).
  fold (keyed (fun k' => if String.eqb k' k then v else f k') ks).
  destruct (String.eqb_spec k a) as [->|Hne].
  - rewrite String.eqb_refl. f_equal.
    apply keyed_ext. intros x Hx.
    destruct (String.eqb_spec x a) as [->|_]; [contradiction | reflexivity].
  - destruct (String.eqb_spec a k) as [->|_]; [congruence|].
    f_equal. apply IH; [exact Hnd'|].
    destruct Hin as [->|Hin]; [congruence | exact Hin].
Qed.

(** The dict comprehension gives every song one slot, at the place of
    its first entry. *)
Lemma dict_init_keyed db :
  dict_init db = keyed (fun _ => init_best) (distinct_ids db).
Proof.
  unfold dict_init, distinct_ids.
  assert (G : forall rest ks,
            fold_left (fun d e => dict_set d (song_id e) init_best) rest
                      (keyed (fun _ => init_best) ks)
            = keyed (fun _ => init_best)
                    (ks ++ first_seen ks (map song_id rest))).
  { induction rest as [|e rest IH]; intros ks;
      cbn [fold_left map first_seen].
    - now rewrite app_nil_r.
    - destruct (existsb (String.eqb (song_id e)) ks) eqn:E.
      + apply existsb_eqb_In in E.
        replace (dict_set (keyed (fun _ => init_best) ks) (song_id e)
                          init_best)
          with (keyed (fun _ : string => init_best) ks); [apply IH|].
        clear IH. induction ks as [|a ks IHk]; [destruct E|].
        cbn [keyed map dict_set]. fold (keyed (fun _ : string => init_best) ks).
        destruct (String.eqb_spec (song_id e) a) as [_|Hne]; [reflexivity|].
        f_equal. apply IHk. destruct E as [->|E]; [congruence | exact E].
      + assert (Hn : ~ In (song_id e) ks).
        { intros Hin. apply existsb_eqb_In in Hin. congruence. }
        rewrite dict_set_new by now rewrite keyed_keys.
        change [(song_id e, init_best)]
          with (keyed (fun _ : string => init_best) [song_id e]).
        rewrite <- keyed_app, IH, <- app_assoc. cbn [app].
        do 3 f_equal. apply first_seen_ext.
        intros x. rewrite in_app_iff. cbn [In]. tauto. }
  exact (G db []).
Qed.

End DictFacts.

(* ------------------------------------------------------------------ *)
(** ** The scan loops *)

Section ScanFacts.
Import Repr Similarity Database App AlignSpec ScanSpec.

Local Open Scope R_scope.

Variable clip_duration : R.
Variable window_notes : forall (start_s dur_s : R), list NoteEvent.
Variable win : R.

Lemma notes_to_rep_aligned notes : aligned (notes_to_rep notes).
Proof.
  unfold aligned.
  destruct (Nat.lt_ge_cases (length notes) 2) as [Hs|Hl].
  - rewrite (notes_to_rep_short _ Hs); cbn. auto.
  - rewrite (notes_to_rep_long _ Hl); cbn.
    rewrite !length_map, !consecutive_length, !length_map. auto.
Qed.

(** On aligned representations [dp_distance] raises nothing. *)
Lemma dp_distance_total q s w :
  aligned q -> aligned s -> exists r, dp_distance q s w = Some r.
Proof.
  intros Hq Hs.
  destruct (Nat.eq_dec (length (intervals q)) 0) as [Em|Em];
    [|destruct (Nat.eq_dec (length (intervals s)) 0) as [En|En]].
  - unfold dp_distance. rewrite Em. cbn [Nat.eqb orb]. eauto.
  - unfold dp_distance. rewrite En. cbn [Nat.eqb]. rewrite orb_true_r. eauto.
  - destruct (dp_distance_result q s w Hq Hs ltac:(lia) ltac:(lia))
      as (D & r & _ & _ & Er & _).
    now exists r.
Qed.

(** With the default weights the cost returned is infinite or a
    non-negative real. *)
Lemma dp_distance_cost_nonneg q s r :
  aligned q -> aligned s ->
  dp_distance q s default_weights = Some r ->
  cost r = PInf \/ exists c, cost r = Fin c /\ 0 <= c.
Proof.
  intros Hq Hs Er.
  destruct (Nat.eq_dec (length (intervals q)) 0) as [Em|Em];
    [|destruct (Nat.eq_dec (length (intervals s)) 0) as [En|En]].
  - unfold dp_distance in Er. rewrite Em in Er. cbn [Nat.eqb orb] in Er.
    injection Er as <-. now left.
  - unfold dp_distance in Er. rewrite En in Er. cbn [Nat.eqb] in Er.
    rewrite orb_true_r in Er. injection Er as <-. now left.
  - destruct (dp_distance_result q s default_weights Hq Hs
                ltac:(lia) ltac:(lia))
      as (D & r' & _ & Hrec & Er' & Hc & _).
    rewrite Er in Er'. injection Er' as <-.
    right. eexists; split; [exact Hc|].
    apply Rplus_le_le_0_compat.
    + apply row_min_nonneg; [lia|]. intros j Hj.
      apply (table_nonneg q s default_weights D default_weights_nonneg Hrec
               (length (intervals q) + j)); lia.
    + apply tie_breaker_nonneg; cbn; lra.
Qed.

Lemma alignment_eq start_s e :
  aligned (entry_to_rep e) ->
  dp_distance (audio_window_to_rep window_notes start_s win)
              (entry_to_rep e) default_weights
  = Some (alignment window_notes win start_s e).
Proof.
  intros He. unfold alignment.
  destruct (dp_distance_total (audio_window_to_rep window_notes start_s win)
              (entry_to_rep e) default_weights) as (r & Er);
    [apply notes_to_rep_aligned | exact He |].
  now rewrite Er.
Qed.

Lemma usable_window_ltb start_s :
  (window_len window_notes win start_s <? 12)%nat
  = negb (usable_window window_notes win start_s).
Proof.
  unfold usable_window.
  destruct (Nat.ltb_spec (window_len window_notes win start_s) 12),
           (Nat.leb_spec 12 (window_len window_notes win start_s));
    try reflexivity; lia.
Qed.

(** One song against one window, in a dict with one slot per song:
    the slot of the song becomes the combine of what it held and the
    result of the window; no other slot changes. *)
Lemma score_entry_keyed start_s e (f : string -> Best) ks :
  aligned (entry_to_rep e) -> NoDup ks -> In (song_id e) ks ->
  score_entry (audio_window_to_rep window_notes start_s win)
              (window_len window_notes win start_s) start_s
              (keyed f ks) e
  = Some (keyed (fun k =>
                   if same_song k e
                   then keep_min (f k)
                          (window_result window_notes win e start_s)
                   else f k)
                ks).
Proof.
  intros He Hnd Hin. unfold score_entry. cbv zeta.
  rewrite (alignment_eq start_s e He). cbn [bind].
  rewrite (dict_get_keyed f ks _ Hin). cbn [bind].
  set (r := alignment window_notes win start_s e).
  set (L := window_len window_notes win start_s).
  assert (Es : xdiv (cost r) (sqrt (INR L))
               = best_score (window_result window_notes win e start_s)).
  { unfold window_result, normalized, xdiv. cbn [best_score].
    fold r L. destruct (cost r); reflexivity. }
  rewrite Es.
  destruct (xlt (best_score (window_result window_notes win e start_s))
                (best_score (f (song_id e)))) eqn:El.
  - rewrite dict_set_keyed by assumption. f_equal.
    apply keyed_ext. intros k _. unfold same_song, keep_min.
    destruct (String.eqb_spec k (song_id e)) as [->|Hne].
    + rewrite String.eqb_refl, El. reflexivity.
    + destruct (String.eqb_spec (song_id e) k) as [E|_];
        [congruence | reflexivity].
  - f_equal. apply keyed_ext. intros k _. unfold same_song, keep_min.
    destruct (String.eqb_spec (song_id e) k) as [<-|_]; [|reflexivity].
    now rewrite El.
Qed.

(** The loop over the corpus for one window. *)
Lemma score_entries_keyed start_s ks :
  NoDup ks ->
  forall entries (f : string -> Best),
    Forall (fun e => aligned (entry_to_rep e)) entries ->
    (forall e, In e entries -> In (song_id e) ks) ->
    foldM (score_entry (audio_window_to_rep window_notes start_s win)
                       (window_len window_notes win start_s) start_s)
          entries (keyed f ks)
    = Some (keyed (fun k =>
                     fold_left keep_min
                       (map (fun e => window_result window_notes win e start_s)
                            (filter (same_song k) entries))
                       (f k))
                  ks).
Proof.
  intros Hnd. induction entries as [|e entries IH]; intros f Hal Hin.
  - cbn [foldM filter map fold_left]. reflexivity.
  - cbn [foldM]. inversion Hal as [|? ? He Hrest]; subst.
    rewrite (score_entry_keyed start_s e f ks He Hnd)
      by (apply Hin; now left).
    cbn [bind]. rewrite IH; [|exact Hrest | intros x Hx; apply Hin; now right].
    f_equal. apply keyed_ext. intros k _. cbn [filter].
    destruct (same_song k e); reflexivity.
Qed.

(** One window: skipped when it has fewer than 12 intervals, else
    counted and scored against every entry. *)
Lemma scan_window_keyed db (f : string -> Best) (u : nat) start_s ks :
  NoDup ks -> aligned_db db -> (forall e, In e db -> In (song_id e) ks) ->
  scan_window window_notes db win (keyed f ks, u) start_s
  = Some (if usable_window window_notes win start_s
          then (keyed (fun k =>
                         fold_left keep_min
                           (map (fun e =>
                                   window_result window_notes win e start_s)
                                (filter (same_song k) db))
                           (f k))
                      ks,
                (u + 1)%nat)
          else (keyed f ks, u)).
Proof.
  intros Hnd Hal Hin. unfold scan_window. cbv zeta.
  fold (window_len window_notes win start_s).
  rewrite usable_window_ltb.
  destruct (usable_window window_notes win start_s); cbn [negb fst snd];
    [|reflexivity].
  rewrite (score_entries_keyed start_s ks Hnd db f Hal Hin). reflexivity.
Qed.

(** The loop over the windows. *)
Lemma scan_windows_keyed db ks :
  NoDup ks -> aligned_db db -> (forall e, In e db -> In (song_id e) ks) ->
  forall starts (f : string -> Best) (u : nat),
    foldM (scan_window window_notes db win) starts (keyed f ks, u)
    = Some (keyed (fun k =>
                     fold_left keep_min
                       (results_for window_notes win starts db k) (f k))
                  ks,
            (u + length (filter (usable_window window_notes win) starts))%nat).
Proof.
  intros Hnd Hal Hin. induction starts as [|st starts IH]; intros f u.
  - cbn [foldM filter length]. unfold results_for.
    cbn [filter flat_map fold_left]. now rewrite Nat.add_0_r.
  - cbn [foldM]. rewrite (scan_window_keyed db f u st ks Hnd Hal Hin).
    cbn [bind]. unfold results_for. cbn [filter].
    destruct (usable_window window_notes win st).
    + rewrite IH. cbn [length flat_map]. f_equal. f_equal; [|lia].
      apply keyed_ext. intros k _. unfold results_for.
      now rewrite fold_left_app.
    + apply IH.
Qed.

(** A loop whose test never fails: the scan does not return. *)
Lemma scan_endless (fadd : R -> R -> R) db hop max_sec :
  (forall k : nat,
     fadd (offset fadd hop k) win <= Rmin clip_duration max_sec) ->
  forall fuel,
    scan fadd clip_duration window_notes fuel db win hop max_sec = None.
Proof.
  intros Hall fuel. unfold scan. cbv zeta.
  change 0 with (offset fadd hop 0) at 1.
  now rewrite (window_starts_endless fadd win hop _ Hall fuel 0%nat).
Qed.

(** A usable window against an entry on which [dp_distance] raises: the
    exception leaves the scan. *)
Lemma scan_windows_raise e rest st starts d u :
  usable_window window_notes win st = true ->
  dp_distance (audio_window_to_rep window_notes st win) (entry_to_rep e)
              default_weights = None ->
  foldM (scan_window window_notes (e :: rest) win) (st :: starts) (d, u)
  = None.
Proof.
  intros Hus Hdp. cbn [foldM]. unfold scan_window at 1. cbv zeta.
  fold (window_len window_notes win st).
  rewrite usable_window_ltb, Hus. cbn [negb foldM fst].
  unfold score_entry at 1. cbv zeta. rewrite Hdp. reflexivity.
Qed.

(** [find_windowed_matches] up to the ranking, for a loop that leaves at
    window [K]. *)
Lemma scan_result (fadd : R -> R -> R) db hop max_sec (K fuel : nat) :
  loop_stops_at fadd win hop (Rmin clip_duration max_sec) K ->
  aligned_db db -> (K < fuel)%nat ->
  let starts := generated fadd hop K in
  scan fadd clip_duration window_notes fuel db win hop max_sec
  = Some (slots window_notes win starts db,
          length starts,
          length (filter (usable_window window_notes win) starts)).
Proof.
  intros Hstop Hal Hf. cbv zeta. unfold scan. cbv zeta.
  rewrite (window_starts_stops fadd win hop _ K fuel Hstop Hf).
  cbn [bind]. rewrite or_single_generated, dict_init_keyed.
  destruct (distinct_ids_spec db) as (Hnd & Hkeys).
  rewrite (scan_windows_keyed db (distinct_ids db) Hnd Hal).
  - cbn [bind fst snd]. reflexivity.
  - intros e He. apply Hkeys. now apply in_map.
Qed.

(** With one entry per song the slots are those of the entries. *)
Lemma results_for_distinct db starts e :
  NoDup (map song_id db) -> In e db ->
  results_for window_notes win starts db (song_id e)
  = map (window_result window_notes win e)
        (filter (usable_window window_notes win) starts).
Proof.
  intros Hnd He. unfold results_for.
  assert (Hf : filter (same_song (song_id e)) db = [e]).
  { clear starts. induction db as [|a db IH]; [destruct He|].
    cbn [map] in Hnd. inversion Hnd as [|? ? Ha Hnd']; subst.
    cbn [filter]. unfold same_song at 1.
    destruct He as [->|He].
    - rewrite String.eqb_refl. f_equal.
      apply filter_none. intros x Hx. unfold same_song.
      destruct (String.eqb_spec (song_id x) (song_id e)) as [E|_];
        [|reflexivity].
      exfalso. apply Ha. rewrite <- E. now apply in_map.
    - destruct (String.eqb_spec (song_id a) (song_id e)) as [E|_].
      + exfalso. apply Ha. rewrite E. now apply in_map.
      + now apply IH. }
  rewrite Hf. cbn [map].
  induction (filter (usable_window window_notes win) starts) as [|st l IH];
    cbn [flat_map map app]; [reflexivity|]. now rewrite IH.
Qed.

Lemma slots_distinct db starts :
  NoDup (map song_id db) ->
  slots window_notes win starts db = best_windows window_notes win starts db.
Proof.
  intros Hnd. unfold slots, best_windows, tabulate, keyed, distinct_ids.
  rewrite first_seen_distinct; [|exact Hnd | intros k _ []].
  rewrite map_map. apply map_ext_in. intros e He.
  unfold best_for, best_window.
  now rewrite (results_for_distinct db starts e Hnd He).
Qed.

(** The same for a corpus with one entry per song. *)
Lemma scan_result_distinct (fadd : R -> R -> R) db hop max_sec
    (K fuel : nat) :
  loop_stops_at fadd win hop (Rmin clip_duration max_sec) K ->
  NoDup (map song_id db) -> aligned_db db -> (K < fuel)%nat ->
  let starts := generated fadd hop K in
  scan fadd clip_duration window_notes fuel db win hop max_sec
  = Some (best_windows window_notes win starts db,
          length starts,
          length (filter (usable_window window_notes win) starts)).
Proof.
  intros Hstop Hnd Hal Hf. cbv zeta.
  rewrite (scan_result fadd db hop max_sec K fuel Hstop Hal Hf).
  now rewrite slots_distinct.
Qed.

End ScanFacts.

(* ------------------------------------------------------------------ *)
(** ** C7: the window scanner *)

Section ScannerTheorem.
Import Repr Similarity Database App AlignSpec ScanSpec.

Local Open Scope R_scope.

Lemma in_results_for window_notes win starts db sid r :
  In r (results_for window_notes win starts db sid) <->
  exists e st,
    In e db /\ song_id e = sid /\
    In st (filter (usable_window window_notes win) starts) /\
    r = window_result window_notes win e st.
Proof.
  unfold results_for. rewrite in_flat_map. split.
  - intros (st & Hst & Hr). apply in_map_iff in Hr as (e & <- & He).
    apply filter_In in He as (He & Hs). unfold same_song in Hs.
    apply String.eqb_eq in Hs. now exists e, st.
  - intros (e & st & He & Hs & Hst & ->). exists st. split; [exact Hst|].
    apply in_map_iff. exists e. split; [reflexivity|].
    apply filter_In. split; [exact He|]. unfold same_song.
    now apply String.eqb_eq.
Qed.

Lemma generated_length fadd hop K :
  length (generated fadd hop K) = Nat.max 1 K.
Proof.
  destruct K as [|K]; [reflexivity|].
  unfold generated. rewrite length_map, length_seq. lia.
Qed.

(** C7 (as amended): in exact arithmetic and with a positive hop the
    loop leaves at some window [K], the first with
    [K hop + win > min(duration, max duration)].  Whenever the loop, run
    with the addition of floats, leaves at window [K], the scanner
    generates the starts of the windows before [K], each the float sum of
    the start before it and the hop (in exact arithmetic [0, hop,
    2 hop, ...]), or the single window at [0] when [K = 0]; a window with
    fewer than 12 intervals adds nothing to any slot and is not counted;
    every other window is counted and its result for every entry of an
    aligned corpus, with the score [cost / sqrt(interval count)], is
    combined into the slot of the song of the entry; the scan reports
    the number of generated windows and the number of usable ones. *)
Theorem window_scan_spec (fadd : R -> R -> R) (clip_duration : R)
    (window_notes : R -> R -> list NoteEvent)
    (db : list SongEntry) (win hop max_sec : R) :
  (0 < hop ->
   exists K : nat,
     loop_stops_at Rplus win hop (Rmin clip_duration max_sec) K /\
     forall k : nat,
       (k < K)%nat <-> INR k * hop + win <= Rmin clip_duration max_sec) /\
  forall K : nat,
  loop_stops_at fadd win hop (Rmin clip_duration max_sec) K ->
  aligned_db db ->
  let starts := generated fadd hop K in
  let usable := filter (usable_window window_notes win) starts in
  let d := slots window_notes win starts db in
  (forall fuel, (K < fuel)%nat ->
     scan fadd clip_duration window_notes fuel db win hop max_sec
     = Some (d, length starts, length usable) /\
     forall topk,
       find_windowed_matches fadd clip_duration window_notes fuel db win
                             hop max_sec topk
       = Some (rank d topk, length starts, length usable)) /\
  (K = 0%nat -> starts = [0]) /\
  (K <> 0%nat -> starts = map (offset fadd hop) (seq 0 K)) /\
  length starts = Nat.max 1 K /\
  (offset fadd hop 0 = 0 /\
   forall k, offset fadd hop (S k) = fadd (offset fadd hop k) hop) /\
  ((forall a b, fadd a b = a + b) ->
   forall k, offset fadd hop k = INR k * hop) /\
  (forall st, In st usable <->
              In st starts /\ (12 <= window_len window_notes win st)%nat) /\
  (forall sid, In sid (map song_id db) ->
     dict_get d sid = Some (best_for window_notes win starts db sid)) /\
  (forall sid r,
     In r (results_for window_notes win starts db sid) <->
     exists e st, In e db /\ song_id e = sid /\ In st usable /\
                  r = window_result window_notes win e st) /\
  (forall e st, In e db ->
     dp_distance (audio_window_to_rep window_notes st win) (entry_to_rep e)
                 default_weights
     = Some (alignment window_notes win st e) /\
     best_cost (window_result window_notes win e st)
     = cost (alignment window_notes win st e) /\
     (forall c, cost (alignment window_notes win st e) = Fin c ->
        best_score (window_result window_notes win e st)
        = Fin (c / sqrt (INR (window_len window_notes win st)))) /\
     (cost (alignment window_notes win st e) = PInf ->
        best_score (window_result window_notes win e st) = PInf)).
Proof.
  split; [apply exact_loop_stops|].
  intros K Hstop Hal. cbv zeta.
  split; [|split; [|split; [|split; [|split; [|split; [|split;
    [|split; [|split]]]]]]]].
  - intros fuel Hf.
    pose proof (scan_result clip_duration window_notes win fadd db hop
                  max_sec K fuel Hstop Hal Hf) as Hscan.
    cbv zeta in Hscan. split; [exact Hscan|].
    intros topk. unfold find_windowed_matches. rewrite Hscan. reflexivity.
  - intros ->. reflexivity.
  - destruct K as [|K]; [congruence | reflexivity].
  - apply generated_length.
  - split; reflexivity.
  - intros Hex k. induction k as [|k IH]; [cbn; lra|].
    change (offset fadd hop (S k)) with (fadd (offset fadd hop k) hop).
    rewrite Hex, IH, S_INR. lra.
  - intros st. rewrite filter_In. unfold usable_window.
    now rewrite Nat.leb_le.
  - intros sid Hsid. unfold slots. apply dict_get_keyed.
    now apply (proj2 (distinct_ids_spec db)).
  - intros sid r. apply in_results_for.
  - intros e st He. split; [|split; [reflexivity|split]].
    + apply alignment_eq. unfold aligned_db in Hal.
      rewrite Forall_forall in Hal. now apply Hal.
    + intros c Hc. unfold window_result, normalized. cbn [best_score].
      now rewrite Hc.
    + intros Hc. unfold window_result, normalized. cbn [best_score].
      now rewrite Hc.
Qed.

Lemma Rmin_30_120 : Rmin 30 120 = 30.
Proof. unfold Rmin. destruct (Rle_dec 30 120); lra. Qed.

(** A clip of 30 s under windows of 20 s every 5 s: three windows. *)
Lemma three_windows : loop_stops_at Rplus 20 5 (Rmin 30 120) 3.
Proof.
  rewrite Rmin_30_120. split.
  - intros k Hk. rewrite offset_exact.
    destruct k as [|[|[|k]]]; try lia; cbn [INR]; lra.
  - rewrite offset_exact. cbn [INR]. lra.
Qed.

Lemma entry_of_aligned path notes : aligned (entry_to_rep (entry_of path notes)).
Proof. exact (notes_to_rep_aligned notes). Qed.

Lemma three_songs_aligned : aligned_db ScanSamples.three_songs.
Proof. repeat constructor; apply entry_of_aligned. Qed.

Lemma window_scan_spec_witness :
  scan Rplus 30 ScanSamples.humming 4 ScanSamples.three_songs 20 5 120
  = Some (slots ScanSamples.humming 20 (generated Rplus 5 3)
                ScanSamples.three_songs,
          3%nat, 3%nat) /\
  dict_get (slots ScanSamples.humming 20 (generated Rplus 5 3)
                  ScanSamples.three_songs) "tune"
  = Some (best_for ScanSamples.humming 20 (generated Rplus 5 3)
                   ScanSamples.three_songs "tune").
Proof.
  destruct (proj2 (window_scan_spec Rplus 30 ScanSamples.humming
                     ScanSamples.three_songs 20 5 120)
              3%nat three_windows three_songs_aligned)
    as (Hrun & _ & _ & _ & _ & _ & _ & Hslot & _).
  split.
  - exact (proj1 (Hrun 4%nat ltac:(lia))).
  - apply Hslot. right; left. reflexivity.
Defined.

(** The hummed tune gives a usable window wherever it is cut. *)
Lemma humming_usable st : usable_window ScanSamples.humming 20 st = true.
Proof. reflexivity. Qed.

Lemma humming_intervals st :
  intervals (audio_window_to_rep ScanSamples.humming st 20) <> [].
Proof.
  intros E. apply (f_equal (@length Z)) in E.
  change (window_len ScanSamples.humming 20 st = 0%nat) in E.
  discriminate E.
Qed.

(** With a hop of [0] the test of the loop stays true. *)
Lemma zero_hop_endless (k : nat) :
  offset Rplus 0 k + 20 <= Rmin 30 120.
Proof. rewrite offset_exact, Rmin_30_120. lra. Qed.

(** C7 as stated fails in three ways.  On the doubles [win = 5.0],
    [hop = 1.1], [duration = 16.0] the loop generates eleven windows,
    while [k hop + win <= duration] holds for the ten offsets
    [0, hop, ..., 9 hop] only.  With a hop of [0] the loop never ends and
    the scan reports nothing.  With a ragged record in the corpus the
    first usable window raises [IndexError] and the scan reports
    nothing. *)
Lemma window_scan_spec_counterexample :
  ((exists l, Doubles.starts 12 Doubles.d5 Doubles.d1_1 Doubles.d16 = Some l
              /\ length l = 11%nat /\ nth 10 l Doubles.d5 = Doubles.d11_below)
   /\
   loop_stops_at Rplus (Doubles.to_R Doubles.d5) (Doubles.to_R Doubles.d1_1)
                 (Doubles.to_R Doubles.d16) 10 /\
   length (generated Rplus (Doubles.to_R Doubles.d1_1) 10) = 10%nat) /\
  (forall fuel,
     scan Rplus 30 ScanSamples.humming fuel ScanSamples.three_songs 20 0 120
     = None) /\
  (loop_stops_at Rplus 20 5 (Rmin 30 120) 3 /\
   forall fuel, (3 < fuel)%nat ->
     scan Rplus 30 ScanSamples.humming fuel ScanSamples.ragged_corpus
          20 5 120
     = None).
Proof.
  split; [|split].
  - split; [exact doubles_eleven_starts|].
    split; [exact exact_ten_windows | reflexivity].
  - apply scan_endless. exact zero_hop_endless.
  - split; [exact three_windows|]. intros fuel Hf.
    unfold scan. cbv zeta.
    rewrite (window_starts_stops Rplus 20 5 _ 3 fuel three_windows Hf).
    cbn [bind seq map or_single]. unfold ScanSamples.ragged_corpus.
    rewrite scan_windows_raise; [reflexivity | apply humming_usable |].
    apply ragged_entry_raises, humming_intervals.
Qed.

Lemma one_song_nodup : NoDup (map song_id ScanSamples.one_song).
Proof. repeat constructor. intros []. Qed.

Lemma one_song_aligned : aligned_db ScanSamples.one_song.
Proof. repeat constructor. Qed.

End ScannerTheorem.

(* ------------------------------------------------------------------ *)
(** ** C8: the ranker *)

Section RankFacts.
Import Repr Similarity Database App AlignSpec ScanSpec.

Local Open Scope R_scope.

Lemma insert_desc_perm x l : Permutation (insert_desc x l) (x :: l).
Proof.
  induction l as [|y l IH]; cbn [insert_desc]; [reflexivity|].
  destruct (Rle_dec _ _); [reflexivity|].
  rewrite IH. apply perm_swap.
Qed.

Lemma sort_desc_perm l : Permutation (sort_desc l) l.
Proof.
  induction l as [|x l IH]; cbn [sort_desc fold_right]; [reflexivity|].
  fold (sort_desc l). rewrite insert_desc_perm. now constructor.
Qed.

Lemma insert_desc_sorted x l :
  descending l -> descending (insert_desc x l).
Proof.
  unfold descending. induction l as [|y l IH]; intros Hs; cbn [insert_desc].
  - repeat constructor.
  - inversion Hs as [|? ? Hl Hy]; subst.
    destruct (Rle_dec (r_similarity y) (r_similarity x)) as [Hle|Hgt].
    + constructor; [exact Hs|]. constructor; [exact Hle|].
      eapply Forall_impl; [|exact Hy]. cbn. intros z Hz. lra.
    + constructor; [now apply IH|].
      eapply Permutation_Forall;
        [symmetry; apply insert_desc_perm|].
      constructor; [lra | exact Hy].
Qed.

Lemma sort_desc_sorted l : descending (sort_desc l).
Proof.
  induction l as [|x l IH]; cbn [sort_desc fold_right].
  - constructor.
  - now apply insert_desc_sorted.
Qed.

Lemma tied_insert v x l : tied v (insert_desc x l) = tied v (x :: l).
Proof.
  unfold tied. induction l as [|y l IH]; cbn [insert_desc]; [reflexivity|].
  destruct (Rle_dec (r_similarity y) (r_similarity x)) as [Hle|Hgt];
    [reflexivity|].
  cbn [filter] in *. rewrite IH.
  destruct (Req_dec_T (r_similarity x) v), (Req_dec_T (r_similarity y) v);
    try reflexivity.
  exfalso. lra.
Qed.

Lemma tied_sort v l : tied v (sort_desc l) = tied v l.
Proof.
  induction l as [|x l IH]; cbn [sort_desc fold_right]; [reflexivity|].
  fold (sort_desc l). rewrite tied_insert. unfold tied in *. cbn [filter].
  now rewrite IH.
Qed.

Lemma tied_all v l :
  (forall r, In r l -> r_similarity r = v) -> tied v l = l.
Proof.
  unfold tied. induction l as [|x l IH]; intros H; cbn [filter];
    [reflexivity|].
  destruct (Req_dec_T (r_similarity x) v) as [_|Hn].
  - f_equal. apply IH. intros r Hr. apply H. now right.
  - exfalso. apply Hn, H. now left.
Qed.

Lemma in_prefix {A} (y : A) k : forall l, In y (firstn k l) -> In y l.
Proof.
  induction k as [|k IH]; intros [|x l] H; cbn [firstn In] in *;
    try contradiction.
  destruct H as [->|H]; [now left | right; now apply IH].
Qed.

Lemma descending_firstn k : forall l, descending l -> descending (firstn k l).
Proof.
  unfold descending. induction k as [|k IH]; intros l Hs; cbn [firstn].
  - constructor.
  - destruct l as [|x l]; [constructor|].
    inversion Hs as [|? ? Hl Hx]; subst.
    constructor; [now apply IH|].
    apply Forall_forall. intros y Hy. apply in_prefix in Hy.
    rewrite Forall_forall in Hx. now apply Hx.
Qed.

Lemma similarity_range s :
  (s = PInf \/ exists x, s = Fin x /\ 0 <= x) ->
  0 <= similarity s <= 100.
Proof.
  intros [->|(x & -> & Hx)]; cbn [similarity]; [lra|].
  unfold Rmax. destruct (Rle_dec 0 (1 - x / 5)); lra.
Qed.

Lemma similarity_zero :
  similarity PInf = 0 /\ forall x, 5 <= x -> similarity (Fin x) = 0.
Proof.
  split; cbn [similarity]; [lra|]. intros x Hx.
  unfold Rmax. destruct (Rle_dec 0 (1 - x / 5)); lra.
Qed.

Lemma fold_keep_min_cases l : forall i,
  fold_left keep_min l i = i \/ In (fold_left keep_min l i) l.
Proof.
  induction l as [|a l IH]; intros i; cbn [fold_left]; [now left|].
  destruct (IH (keep_min i a)) as [E|Hin]; [|right; now right].
  rewrite E. unfold keep_min. destruct (xlt _ _); [right; now left | now left].
Qed.

(** The best score of a song is infinite or a non-negative real. *)
Lemma best_for_score (window_notes : R -> R -> list NoteEvent) win
    starts db sid :
  aligned_db db ->
  let b := best_score (best_for window_notes win starts db sid) in
  b = PInf \/ exists x, b = Fin x /\ 0 <= x.
Proof.
  intros Hal. cbv zeta. unfold best_for.
  destruct (fold_keep_min_cases
              (results_for window_notes win starts db sid) init_best)
    as [->|Hin]; [now left|].
  apply in_results_for in Hin as (e & st & He & _ & Hst & Er).
  rewrite Er.
  apply filter_In in Hst as (_ & Hus).
  unfold usable_window in Hus. apply Nat.leb_le in Hus.
  unfold aligned_db in Hal. rewrite Forall_forall in Hal.
  specialize (Hal e He). cbn beta in Hal.
  unfold window_result. cbn [best_score].
  destruct (dp_distance_cost_nonneg _ _ _
              (notes_to_rep_aligned (window_notes st win)) Hal
              (alignment_eq window_notes win st e Hal)) as [->|(c & -> & Hc)];
    [now left|].
  right. cbn [normalized]. eexists; split; [reflexivity|].
  assert (0 < INR (window_len window_notes win st))
    by (apply lt_0_INR; lia).
  assert (0 < sqrt (INR (window_len window_notes win st)))
    by now apply sqrt_lt_R0.
  unfold Rdiv. apply Rmult_le_pos; [exact Hc|].
  left. now apply Rinv_0_lt_compat.
Qed.

(** C8 (as amended): when the loop leaves at some window and the corpus
    is aligned, every song gets one row with the similarity
    [max(0, 1 - best_score / 5.0) * 100], which lies in [[0, 100]] and is
    [0] for a best score of at least [5.0] or infinite; the rows stand in
    corpus order of the first entry of each song; the ranked list is in
    descending order of similarity, rows of equal similarity keep that
    order, and the first K rows are returned: all rows when there are
    fewer than K songs, which is the number of entries only when no two
    entries share a song id. *)
Theorem ranked_output_spec (fadd : R -> R -> R) (clip_duration : R)
    (window_notes : R -> R -> list NoteEvent)
    (db : list SongEntry) (win hop max_sec : R) (K topk : nat) :
  loop_stops_at fadd win hop (Rmin clip_duration max_sec) K ->
  aligned_db db ->
  let starts := generated fadd hop K in
  let usable := filter (usable_window window_notes win) starts in
  let rows := rows_of (slots window_notes win starts db) in
  forall fuel, (K < fuel)%nat ->
    exists ranked,
      find_windowed_matches fadd clip_duration window_notes fuel db win hop
                            max_sec topk
      = Some (ranked, length starts, length usable) /\
      map r_sid rows = distinct_ids db /\
      NoDup (distinct_ids db) /\
      (forall sid, In sid (distinct_ids db) <-> In sid (map song_id db)) /\
      (NoDup (map song_id db) -> distinct_ids db = map song_id db) /\
      rows
      = map (fun sid =>
               let b := best_for window_notes win starts db sid in
               mkRow (similarity (best_score b)) sid (best_cost b)
                     (best_len b) (best_start b))
            (distinct_ids db) /\
      (forall x, similarity (Fin x) = Rmax 0 (1 - x / 5) * 100) /\
      (forall r, In r rows -> 0 <= r_similarity r <= 100) /\
      (similarity PInf = 0 /\ forall x, 5 <= x -> similarity (Fin x) = 0) /\
      (exists sorted,
         Permutation sorted rows /\
         descending sorted /\
         (forall v, tied v sorted = tied v rows) /\
         ranked = firstn topk sorted) /\
      descending ranked /\
      length ranked = Nat.min topk (length (distinct_ids db)) /\
      (length (distinct_ids db) <= length db)%nat /\
      (NoDup (map song_id db) ->
       length ranked = Nat.min topk (length db)).
Proof.
  intros Hstop Hal. cbv zeta. intros fuel Hf.
  pose proof (scan_result clip_duration window_notes win fadd db hop
                max_sec K fuel Hstop Hal Hf) as Hscan.
  cbv zeta in Hscan.
  set (starts := generated fadd hop K) in *.
  set (rows := rows_of (slots window_notes win starts db)).
  exists (rank (slots window_notes win starts db) topk).
  destruct (distinct_ids_spec db) as (Hnd & Hkeys).
  assert (Hrows : rows
            = map (fun sid =>
                     let b := best_for window_notes win starts db sid in
                     mkRow (similarity (best_score b)) sid (best_cost b)
                           (best_len b) (best_start b))
                  (distinct_ids db)).
  { unfold rows, rows_of, slots, keyed. rewrite map_map. reflexivity. }
  assert (Hdist : NoDup (map song_id db) -> distinct_ids db = map song_id db).
  { intros Hd. unfold distinct_ids. apply first_seen_distinct;
      [exact Hd | intros k _ []]. }
  assert (Hlen : length (rank (slots window_notes win starts db) topk)
                 = Nat.min topk (length (distinct_ids db))).
  { unfold rank. fold rows.
    rewrite length_firstn, (Permutation_length (sort_desc_perm rows)).
    rewrite Hrows. now rewrite length_map. }
  split.
  { unfold find_windowed_matches. rewrite Hscan. reflexivity. }
  split.
  { rewrite Hrows, map_map. cbn [r_sid]. apply map_id. }
  split; [exact Hnd|]. split; [exact Hkeys|]. split; [exact Hdist|].
  split; [exact Hrows|]. split; [reflexivity|].
  split.
  { intros r Hr. rewrite Hrows in Hr.
    apply in_map_iff in Hr as (sid & <- & _). cbn [r_similarity].
    apply similarity_range. now apply best_for_score. }
  split; [exact similarity_zero|].
  split.
  { exists (sort_desc rows).
    split; [apply sort_desc_perm|]. split; [apply sort_desc_sorted|].
    split; [intros v; apply tied_sort | reflexivity]. }
  split; [apply descending_firstn, sort_desc_sorted|].
  split; [exact Hlen|]. split; [apply distinct_ids_length|].
  intros Hd. rewrite Hlen, (Hdist Hd). now rewrite length_map.
Qed.

Lemma ranked_output_spec_witness :
  (exists ranked,
     find_windowed_matches Rplus 30 ScanSamples.humming 4
                           ScanSamples.three_songs 20 5 120 2
     = Some (ranked, 3%nat, 3%nat) /\
     map r_sid (rows_of (slots ScanSamples.humming 20 (generated Rplus 5 3)
                               ScanSamples.three_songs))
     = ["opening"; "tune"; "ending"]%string /\
     descending ranked /\
     length ranked = 2%nat) /\
  (exists ranked,
     find_windowed_matches Rplus 30 ScanSamples.silence 4
                           ScanSamples.three_songs 20 5 120 2
     = Some (ranked, 3%nat, 0%nat) /\
     map r_sid ranked = ["opening"; "tune"]%string /\
     map r_similarity ranked = [similarity PInf; similarity PInf]).
Proof.
  split.
  - destruct (ranked_output_spec Rplus 30 ScanSamples.humming
                ScanSamples.three_songs 20 5 120 3 2 three_windows
                three_songs_aligned 4%nat ltac:(lia))
      as (ranked & Hrun & Hids & _ & _ & _ & _ & _ & _ & _ & _ & Hdesc
          & Hlen & _).
    exists ranked. split; [exact Hrun|]. split; [exact Hids|].
    split; [exact Hdesc | exact Hlen].
  - destruct (ranked_output_spec Rplus 30 ScanSamples.silence
                ScanSamples.three_songs 20 5 120 3 2 three_windows
                three_songs_aligned 4%nat ltac:(lia))
      as (ranked & Hrun & _ & _ & _ & _ & Hrows & _ & _ & _
          & (sorted & Hperm & _ & Htied & Hranked) & _).
    exists ranked. split; [exact Hrun|].
    set (rows := rows_of (slots ScanSamples.silence 20 (generated Rplus 5 3)
                                ScanSamples.three_songs)) in *.
    assert (Hall : forall r, In r rows -> r_similarity r = similarity PInf).
    { intros r Hr. rewrite Hrows in Hr.
      apply in_map_iff in Hr as (sid & <- & _). reflexivity. }
    assert (Es : sorted = rows).
    { rewrite <- (tied_all (similarity PInf) sorted),
              <- (tied_all (similarity PInf) rows); [apply Htied | exact Hall |].
      intros r Hr. apply Hall. now apply (Permutation_in _ Hperm). }
    rewrite Hranked, Es, Hrows. split; reflexivity.
Defined.

Lemma twins_aligned : aligned_db ScanSamples.twins.
Proof. repeat constructor; apply entry_of_aligned. Qed.

(** A clip of 10 s holds no window of 20 s. *)
Lemma no_window : loop_stops_at Rplus 20 5 (Rmin 10 120) 0.
Proof.
  split; [intros k Hk; lia|]. cbn.
  unfold Rmin. destruct (Rle_dec 10 120); lra.
Qed.

(** C8 as stated fails in three ways.  Two entries that share a song id,
    as [build_db] makes of two files of the same name, get one row: with
    K = 5 the corpus has fewer than K entries and yet not every entry is
    returned.  With a hop of [0] the loop never ends and nothing is
    ranked.  With a ragged record in the corpus the first usable window
    raises [IndexError] and nothing is ranked. *)
Lemma ranked_output_spec_counterexample :
  (length ScanSamples.twins = 2%nat /\
   aligned_db ScanSamples.twins /\
   map song_id ScanSamples.twins = ["take"; "take"]%string /\
   exists row,
     find_windowed_matches Rplus 10 ScanSamples.silence 1
                           ScanSamples.twins 20 5 120 5
     = Some ([row], 1%nat, 0%nat)) /\
  (forall fuel,
     find_windowed_matches Rplus 30 ScanSamples.humming fuel
                           ScanSamples.three_songs 20 0 120 5
     = None) /\
  (loop_stops_at Rplus 20 5 (Rmin 30 120) 3 /\
   forall fuel, (3 < fuel)%nat ->
     find_windowed_matches Rplus 30 ScanSamples.humming fuel
                           ScanSamples.ragged_corpus 20 5 120 5
     = None).
Proof.
  split; [|split].
  - split; [reflexivity|]. split; [exact twins_aligned|].
    split; [reflexivity|].
    eexists. unfold find_windowed_matches.
    rewrite (scan_result 10 ScanSamples.silence 20 Rplus ScanSamples.twins
               5 120 0 1 no_window twins_aligned ltac:(lia)).
    reflexivity.
  - intros fuel. unfold find_windowed_matches.
    now rewrite (scan_endless 30 ScanSamples.humming 20 Rplus
                   ScanSamples.three_songs 0 120 zero_hop_endless fuel).
  - split; [exact three_windows|]. intros fuel Hf.
    unfold find_windowed_matches, scan. cbv zeta.
    rewrite (window_starts_stops Rplus 20 5 _ 3 fuel three_windows Hf).
    cbn [bind seq map or_single]. unfold ScanSamples.ragged_corpus.
    rewrite scan_windows_raise; [reflexivity | apply humming_usable |].
    apply ragged_entry_raises, humming_intervals.
Qed.

End RankFacts.


(* ================================================================== *)
(** * Part III: further properties of the code *)
(* ================================================================== *)

(* ------------------------------------------------------------------ *)
(** ** melody_repr.py *)

Section ReprExtras.
Import Repr Transforms Samples.

Local Open Scope Z_scope.

(** X1: [bin_interval_semitones] returns a symbol in [-4..4] and is odd,
    [_contour_from_semitones] returns [-1], [0] or [1] and is odd: an
    interval and its inversion get opposite symbols. *)
Theorem bin_interval_range_odd (d : Z) :
  -4 <= bin_interval_semitones d <= 4 /\
  bin_interval_semitones (- d) = - bin_interval_semitones d /\
  -1 <= contour_from_semitones d <= 1 /\
  contour_from_semitones (- d) = - contour_from_semitones d.
Proof.
  unfold bin_interval_semitones, contour_from_semitones.
  repeat match goal with
  | |- context [if ?b then _ else _] => destruct b eqn:?
  end; lia.
Qed.

Lemma consecutive_ext {A A' B} (d : A) (d' : A') (f : A -> A -> B)
    (f' : A' -> A' -> B) xs ys :
  length xs = length ys ->
  (forall i, (i + 1 < length xs)%nat ->
     f (nth (i + 1) xs d) (nth i xs d)
     = f' (nth (i + 1) ys d') (nth i ys d')) ->
  consecutive d f xs = consecutive d' f' ys.
Proof.
  intros Hlen H. unfold consecutive. rewrite <- Hlen.
  apply map_ext_in. intros i Hi. apply in_seq in Hi. apply H. lia.
Qed.

Lemma notes_to_rep_cases notes :
  notes_to_rep notes =
    if (length notes <? 2)%nat then mkRep (map pitch notes) [] [] []
    else
      let raw := consecutive 0 (fun hi lo => hi - lo) (map pitch notes) in
      mkRep (map pitch notes)
            (map bin_interval_semitones raw)
            (map contour_from_semitones raw)
            (consecutive 0%R (fun hi lo => Rmax eps (hi - lo))
                         (map onset notes)).
Proof. reflexivity. Qed.

Lemma transpose_delay_pitches (k : Z) (t : R) (notes : list NoteEvent) :
  map pitch (map (delay t) (map (transpose k) notes))
  = map (fun p => p + k) (map pitch notes).
Proof. rewrite !map_map. reflexivity. Qed.

Lemma transpose_delay_onsets (k : Z) (t : R) (notes : list NoteEvent) :
  map onset (map (delay t) (map (transpose k) notes))
  = map (fun o => (o + t)%R) (map onset notes).
Proof. rewrite !map_map. reflexivity. Qed.

(** Raw semitone deltas do not see a common shift of the pitches. *)
Lemma shifted_deltas (k : Z) (ps : list Z) :
  consecutive 0 (fun hi lo => hi - lo) (map (fun p => p + k) ps)
  = consecutive 0 (fun hi lo => hi - lo) ps.
Proof.
  apply consecutive_ext; [now rewrite length_map|].
  intros i Hi. rewrite length_map in Hi.
  rewrite !(nth_map_in (fun p => p + k) _ 0 0) by lia. lia.
Qed.

(** Inter-onset intervals do not see a common shift of the onsets. *)
Lemma shifted_gaps (t : R) (os : list R) :
  consecutive 0%R (fun hi lo => Rmax eps (hi - lo))
              (map (fun o => (o + t)%R) os)
  = consecutive 0%R (fun hi lo => Rmax eps (hi - lo)) os.
Proof.
  apply consecutive_ext; [now rewrite length_map|].
  intros i Hi. rewrite length_map in Hi.
  rewrite !(nth_map_in (fun o => (o + t)%R) _ 0%R 0%R) by lia.
  f_equal. lra.
Qed.

(** X2: transposing every note by [k] semitones and delaying every note
    by [t] seconds changes nothing in the representation but the pitch
    list, which moves by [k]. *)
Theorem notes_to_rep_transpose_delay (k : Z) (t : R)
    (notes : list NoteEvent) :
  let r := notes_to_rep notes in
  let r' := notes_to_rep (map (delay t) (map (transpose k) notes)) in
  intervals r' = intervals r /\
  contour r' = contour r /\
  ioi r' = ioi r /\
  pitches r' = map (fun p => p + k) (pitches r).
Proof.
  cbv zeta. rewrite !notes_to_rep_cases, !length_map.
  pose proof (transpose_delay_pitches k t notes) as Hp.
  pose proof (transpose_delay_onsets k t notes) as Ho.
  destruct (length notes <? 2)%nat; cbn [intervals contour ioi pitches].
  - repeat split; try reflexivity. exact Hp.
  - rewrite Hp, Ho, shifted_deltas, shifted_gaps.
    repeat split; reflexivity.
Qed.

(** X3: every inter-onset interval of a representation is at least
    [1e-6], hence positive, whatever the onsets: repeated or decreasing
    onsets give [1e-6], never zero or a negative value. *)
Theorem ioi_floor (notes : list NoteEvent) (x : R) :
  In x (ioi (notes_to_rep notes)) -> (eps <= x)%R /\ (0 < x)%R.
Proof.
  rewrite notes_to_rep_cases.
  destruct (length notes <? 2)%nat; cbn [ioi]; [intros []|].
  unfold consecutive. intros Hin.
  apply in_map_iff in Hin as (i & <- & _).
  pose proof (Rmax_l eps
    (nth (i + 1) (map onset notes) 0 - nth i (map onset notes) 0)%R).
  unfold eps in *. split; lra.
Qed.

Lemma ioi_floor_witness :
  In eps (ioi (notes_to_rep three_notes)) /\ (0 < eps)%R.
Proof.
  assert (H : In eps (ioi (notes_to_rep three_notes))).
  { cbn. right. left. unfold Rmax, eps.
    destruct (Rle_dec _ _); lra. }
  split; [exact H|].
  exact (proj2 (ioi_floor three_notes eps H)).
Defined.

End ReprExtras.

(* ------------------------------------------------------------------ *)
(** ** similarity.py: the cost functions *)

Section CostExtras.
Import Repr Similarity AlignSpec.

Local Open Scope R_scope.

Lemma interval_cost_abs a b : interval_cost a b = Rabs (IZR a - IZR b) / 8.
Proof. unfold interval_cost. now rewrite abs_IZR, minus_IZR. Qed.

(** X4: [_interval_cost] and [_contour_cost] are metrics on the
    symbols: symmetric, zero exactly on equal symbols, and satisfying
    the triangle inequality; on interval symbols of [-4..4] the interval
    cost is at most [1]. *)
Theorem symbol_costs_metric (a b c : Z) :
  (interval_cost a b = interval_cost b a /\
   (interval_cost a b = 0 <-> a = b) /\
   interval_cost a c <= interval_cost a b + interval_cost b c) /\
  (contour_cost a b = contour_cost b a /\
   (contour_cost a b = 0 <-> a = b) /\
   contour_cost a c <= contour_cost a b + contour_cost b c) /\
  ((-4 <= a <= 4)%Z -> (-4 <= b <= 4)%Z -> interval_cost a b <= 1).
Proof.
  split; [|split].
  - rewrite !interval_cost_abs. split; [|split].
    + now rewrite Rabs_minus_sym.
    + split.
      * intros H. apply eq_IZR.
        assert (H0 : Rabs (IZR a - IZR b) = 0) by lra.
        destruct (Req_dec (IZR a - IZR b) 0) as [E|E]; [lra|].
        apply Rabs_no_R0 in E. contradiction.
      * intros ->. rewrite Rminus_diag, Rabs_R0. lra.
    + pose proof (Rabs_triang (IZR a - IZR b) (IZR b - IZR c)) as T.
      replace (IZR a - IZR b + (IZR b - IZR c)) with (IZR a - IZR c) in T
        by lra.
      lra.
  - unfold contour_cost. split; [|split].
    + destruct (Z.eqb_spec a b), (Z.eqb_spec b a); congruence.
    + destruct (Z.eqb_spec a b); split; intros; try lra; congruence.
    + destruct (Z.eqb_spec a c), (Z.eqb_spec a b), (Z.eqb_spec b c);
        try lra; congruence.
  - intros Ha Hb. unfold interval_cost.
    assert (H : (Z.abs (a - b) <= 8)%Z) by lia.
    apply IZR_le in H. lra.
Qed.

Lemma symbol_costs_metric_witness :
  (-4 <= 4 <= 4)%Z /\ (-4 <= -4 <= 4)%Z /\ interval_cost 4 (-4) <= 1.
Proof.
  assert (Ha : (-4 <= 4 <= 4)%Z) by lia.
  assert (Hb : (-4 <= -4 <= 4)%Z) by lia.
  split; [exact Ha|]. split; [exact Hb|].
  exact (proj2 (proj2 (symbol_costs_metric 4 (-4) 0)) Ha Hb).
Defined.

(** X5: [_timing_ratio_cost] is a pseudo-metric on pairs of consecutive
    inter-onset intervals: never negative, zero on identical pairs,
    symmetric in query and song, and satisfying the triangle inequality. *)
Theorem timing_cost_pseudometric (q_prev q s_prev s r_prev r : R) :
  0 <= timing_ratio_cost q_prev q s_prev s /\
  timing_ratio_cost q_prev q q_prev q = 0 /\
  timing_ratio_cost q_prev q s_prev s = timing_ratio_cost s_prev s q_prev q /\
  timing_ratio_cost q_prev q s_prev s
    <= timing_ratio_cost q_prev q r_prev r
       + timing_ratio_cost r_prev r s_prev s.
Proof.
  unfold timing_ratio_cost. cbv zeta.
  set (a := ln (Rmax eps (q / Rmax eps q_prev))).
  set (b := ln (Rmax eps (s / Rmax eps s_prev))).
  set (c := ln (Rmax eps (r / Rmax eps r_prev))).
  split; [apply Rabs_pos|]. split; [|split].
  - rewrite Rminus_diag. apply Rabs_R0.
  - apply Rabs_minus_sym.
  - pose proof (Rabs_triang (a - c) (c - b)) as T.
    replace (a - c + (c - b)) with (a - b) in T by lra. exact T.
Qed.

End CostExtras.

(* ------------------------------------------------------------------ *)
(** ** similarity.py: [dp_distance] on representations that break the
    length invariant *)

Section IndexErrorExtras.
Import Repr Similarity AlignSpec.

(** X6: on two non-empty interval sequences [dp_distance] raises
    [IndexError] instead of returning a result as soon as a contour list
    is shorter than its interval list, or, when both sides have at least
    two intervals, an inter-onset list is shorter than its interval
    list. *)
Theorem dp_distance_index_error (q s : MelodyRep) (w : Weights) :
  let m := length (intervals q) in
  let n := length (intervals s) in
  (1 <= m)%nat -> (1 <= n)%nat ->
  (length (contour q) < m)%nat \/ (length (contour s) < n)%nat \/
  ((2 <= m)%nat /\ (2 <= n)%nat /\
   ((length (ioi q) < m)%nat \/ (length (ioi s) < n)%nat)) ->
  dp_distance q s w = None.
Proof.
  cbv zeta. intros Hm Hn H.
  assert (Ht : dp_table q s w = None).
  { destruct H as [H|[H|(H2m & H2n & [H|H])]].
    - apply (dp_table_raises q s w (length (contour q) + 1) 1); try lia.
      apply local_raises. left. apply idx_none. lia.
    - apply (dp_table_raises q s w 1 (length (contour s) + 1)); try lia.
      apply local_raises. right; left. apply idx_none. lia.
    - apply (dp_table_raises q s w (Nat.max 2 (length (ioi q) + 1)) 2);
        try lia.
      apply local_raises. right; right.
      split; [lia|]. split; [lia|]. left. apply idx_none. lia.
    - apply (dp_table_raises q s w 2 (Nat.max 2 (length (ioi s) + 1)));
        try lia.
      apply local_raises. right; right.
      split; [lia|]. split; [lia|]. right. apply idx_none. lia. }
  unfold dp_distance.
  destruct (length (intervals q) =? 0)%nat eqn:Em;
    [apply Nat.eqb_eq in Em; lia|].
  destruct (length (intervals s) =? 0)%nat eqn:En;
    [apply Nat.eqb_eq in En; lia|].
  cbn [orb]. now rewrite Ht.
Qed.

Lemma dp_distance_index_error_witness :
  dp_distance (Database.entry_to_rep Database.ragged_entry) Samples.down_rep
              default_weights
  = None.
Proof.
  apply dp_distance_index_error.
  - simpl; lia.
  - simpl; lia.
  - left. simpl; lia.
Defined.

End IndexErrorExtras.

(* ------------------------------------------------------------------ *)
(** ** similarity.py: alignments that cost nothing *)

Section DiagonalExtras.
Import Repr Similarity AlignSpec TableInv Transforms Excerpts Samples.

Local Open Scope R_scope.

Lemma row_min_le D m n j :
  (1 <= j <= n)%nat -> row_min D m n <= get D m j.
Proof.
  intros Hj. unfold row_min. destruct n as [|n]; [lia|].
  cbn [seq map minimum].
  destruct (Nat.eq_dec j 1) as [->|Hne]; [apply fold_min_le_init|].
  apply fold_min_le_in, in_map, in_seq. lia.
Qed.

(** When the local cost vanishes along the diagonal that starts at
    column [off], so does the table. *)
Lemma diagonal_zero q s w D off :
  nonneg_weights w -> recurrence_capped q s w D ->
  (off + length (intervals q) <= length (intervals s))%nat ->
  (forall i, (1 <= i <= length (intervals q))%nat ->
     local_cost q s w i (off + i) = 0) ->
  forall i, (i <= length (intervals q))%nat -> get D i (off + i) = 0.
Proof.
  intros Hw Hrec Hoff Hloc. pose proof Hrec as (Hz & _ & Hr).
  induction i as [|i IH]; intros Hi.
  - apply Hz. lia.
  - apply Rle_antisym.
    + rewrite Hr by lia. cbn [minimum].
      eapply Rle_trans.
      * apply fold_min_le_in
          with (y := get D (S i - 1) (off + S i - 1)
                     + local_cost q s w (S i) (off + S i)).
        unfold transitions. now left.
      * replace (S i - 1)%nat with i by lia.
        replace (off + S i - 1)%nat with (off + i)%nat by lia.
        rewrite IH by lia. rewrite Hloc by lia. lra.
    + apply (table_nonneg q s w D Hw Hrec (S i + (off + S i))); lia.
Qed.

(** The result of [dp_distance] when the local cost vanishes along a
    diagonal: only the tie-breaker is paid, and the match ends at or before
    the end of that diagonal. *)
Lemma diagonal_result q s w off :
  aligned q -> aligned s -> nonneg_weights w ->
  (1 <= length (intervals q))%nat ->
  (off + length (intervals q) <= length (intervals s))%nat ->
  (forall i, (1 <= i <= length (intervals q))%nat ->
     local_cost q s w i (off + i) = 0) ->
  exists r,
    dp_distance q s w = Some r /\
    cost r = Fin (tie_breaker q s w) /\
    (0 <= end_j r <= Z.of_nat (off + length (intervals q)) - 1)%Z.
Proof.
  intros Hq Hs Hw Hm Hoff Hloc.
  set (m := length (intervals q)) in *.
  set (n := length (intervals s)) in *.
  assert (Hn : (1 <= n)%nat) by lia.
  destruct (dp_distance_result q s w Hq Hs Hm Hn)
    as (D & r & _ & Hrec & Er & Hc & (He & _)).
  fold m n in Hc, He.
  assert (Hd : get D m (off + m) = 0)
    by (apply (diagonal_zero q s w D off Hw Hrec Hoff Hloc); fold m; lia).
  assert (Hnn : forall j, (1 <= j <= n)%nat -> 0 <= get D m j).
  { intros j Hj.
    apply (table_nonneg q s w D Hw Hrec (m + j)); fold m n; lia. }
  assert (Hrm : row_min D m n = 0).
  { apply Rle_antisym.
    - rewrite <- Hd. apply row_min_le. lia.
    - apply row_min_nonneg; assumption. }
  exists r. split; [exact Er|]. split.
  - rewrite Hc, Hrm. f_equal. lra.
  - destruct He as (j & (Hj & Hmin & Hfirst) & ->);
      [rewrite Hrm; unfold INF; lra|].
    split; [lia|].
    destruct (Nat.le_gt_cases j (off + m)) as [Hle|Hgt]; [lia|].
    specialize (Hfirst (off + m)%nat ltac:(lia)).
    specialize (Hnn j Hj). lra.
Qed.

Lemma nth_slice {A} (off len : nat) (ys xs : list A) (d : A) k :
  slice off len ys = xs -> (k < length xs)%nat -> (length xs <= len)%nat ->
  nth (off + k) ys d = nth k xs d.
Proof.
  intros <- Hk Hlen. unfold slice in *.
  rewrite nth_firstn, nth_skipn.
  destruct (Nat.ltb_spec k len); [reflexivity | lia].
Qed.

Lemma slice_fits {A} (off len : nat) (ys xs : list A) :
  slice off len ys = xs -> length xs = len -> (1 <= len)%nat ->
  (off + len <= length ys)%nat.
Proof.
  intros <- Hlen Hpos. unfold slice in Hlen.
  rewrite length_firstn, length_skipn in Hlen. lia.
Qed.

(** On an excerpt every local cost of the diagonal is zero. *)
Lemma excerpt_local_cost q s w off i :
  aligned q -> excerpt_at off q s ->
  (1 <= i <= length (intervals q))%nat ->
  local_cost q s w i (off + i) = 0.
Proof.
  intros (Hqc & Hqt) (HI & HC & HT) Hi.
  set (m := length (intervals q)) in *.
  assert (EI : forall k, (1 <= k <= m)%nat -> cI s (off + k) = qI q k).
  { intros k Hk. unfold cI, qI, at1.
    replace (off + k - 1)%nat with (off + (k - 1))%nat by lia.
    apply (nth_slice off m _ _ _ _ HI); fold m; lia. }
  assert (EC : forall k, (1 <= k <= m)%nat -> cC s (off + k) = qC q k).
  { intros k Hk. unfold cC, qC, at1.
    replace (off + k - 1)%nat with (off + (k - 1))%nat by lia.
    apply (nth_slice off m _ _ _ _ HC); lia. }
  assert (ET : forall k, (1 <= k <= m)%nat -> cT s (off + k) = qT q k).
  { intros k Hk. unfold cT, qT, at1.
    replace (off + k - 1)%nat with (off + (k - 1))%nat by lia.
    apply (nth_slice off m _ _ _ _ HT); lia. }
  unfold local_cost. rewrite EI, EC by assumption.
  rewrite Z.sub_diag. cbn [Z.abs].
  destruct (Z.eq_dec (qC q i) (qC q i)) as [_|Hne]; [|contradiction].
  destruct ((2 <=? i)%nat && (2 <=? off + i)%nat) eqn:E.
  - apply andb_prop in E as (E1 & _). apply Nat.leb_le in E1.
    unfold timing. cbv zeta.
    replace (off + i - 1)%nat with (off + (i - 1))%nat by lia.
    rewrite !ET by lia.
    rewrite Rminus_diag, Rabs_R0. lra.
  - lra.
Qed.

(** X7: a query whose interval, contour and inter-onset sequences occur
    contiguously in the song from position [off] on aligns at no cost
    beyond the pitch tie-breaker, for any non-negative weights, and the
    match reported ends at or before the end of that occurrence. *)
Theorem excerpt_costs_tie_breaker (q s : MelodyRep) (w : Weights)
    (off : nat) :
  aligned q -> aligned s -> nonneg_weights w ->
  (1 <= length (intervals q))%nat ->
  excerpt_at off q s ->
  exists r,
    dp_distance q s w = Some r /\
    cost r = Fin (tie_breaker q s w) /\
    (0 <= end_j r <= Z.of_nat (off + length (intervals q)) - 1)%Z.
Proof.
  intros Hq Hs Hw Hm Hex.
  apply diagonal_result; try assumption.
  - destruct Hex as (HI & _).
    apply (slice_fits _ _ _ _ HI); [reflexivity | lia].
  - intros i Hi. now apply excerpt_local_cost.
Qed.

(** A song of three intervals that contains [up_rep]'s single interval
    in second position. *)
Lemma excerpt_costs_tie_breaker_witness :
  exists r,
    dp_distance up_rep
      (mkRep [60; 62; 69; 67]%Z [1; 4; -1]%Z [1; 1; -1]%Z [1; 1 / 2; 1])
      default_weights = Some r /\
    cost r = Fin (tie_breaker up_rep
                    (mkRep [60; 62; 69; 67]%Z [1; 4; -1]%Z [1; 1; -1]%Z
                           [1; 1 / 2; 1])
                    default_weights) /\
    (0 <= end_j r <= Z.of_nat (1 + length (intervals up_rep)) - 1)%Z.
Proof.
  apply excerpt_costs_tie_breaker.
  - exact aligned_up_rep.
  - split; reflexivity.
  - exact default_weights_nonneg.
  - simpl; lia.
  - repeat split.
Defined.

Lemma sum_shift (k : Z) (ps : list Z) :
  fold_right Z.add 0%Z (map (fun p => (p + k)%Z) ps)
  = (fold_right Z.add 0%Z ps + k * Z.of_nat (length ps))%Z.
Proof.
  induction ps as [|p ps IH]; cbn [map fold_right length]; [lia|].
  rewrite IH. lia.
Qed.

Lemma mean_shift (k : Z) (ps : list Z) :
  ps <> [] -> mean (map (fun p => (p + k)%Z) ps) = mean ps + IZR k.
Proof.
  intros Hne. unfold mean.
  rewrite sum_shift, length_map, plus_IZR, mult_IZR, <- INR_IZR_INZ.
  assert (0 < INR (length ps)).
  { apply lt_0_INR. destruct ps; [congruence | simpl; lia]. }
  field. lra.
Qed.

Lemma same_sequences_excerpt q s :
  aligned q ->
  intervals s = intervals q -> contour s = contour q -> ioi s = ioi q ->
  excerpt_at 0 q s.
Proof.
  intros (Hc & Ht) EI EC ET. unfold excerpt_at, slice. cbv zeta.
  rewrite EI, EC, ET. cbn [skipn].
  split; [apply firstn_all|].
  split; [rewrite <- Hc | rewrite <- Ht]; apply firstn_all.
Qed.

(** X8: humming a melody of at least two notes [k] semitones higher and
    [t] seconds later costs exactly [w_abs * |k| / 12], for any
    non-negative weights: only the tie-breaker sees the transposition. *)
Theorem transposed_melody_cost (k : Z) (t : R) (notes : list NoteEvent)
    (w : Weights) :
  nonneg_weights w -> (2 <= length notes)%nat ->
  exists r,
    dp_distance (notes_to_rep notes)
                (notes_to_rep (map (delay t) (map (transpose k) notes))) w
    = Some r /\
    cost r = Fin (w_abs w * IZR (Z.abs k) / 12) /\
    (0 <= end_j r <= Z.of_nat (length notes) - 2)%Z.
Proof.
  intros Hw HN.
  set (q := notes_to_rep notes).
  set (s := notes_to_rep (map (delay t) (map (transpose k) notes))).
  assert (Hrep : intervals s = intervals q /\ contour s = contour q /\
                 ioi s = ioi q /\
                 pitches s = map (fun p => (p + k)%Z) (pitches q)).
  { unfold s, q. rewrite !notes_to_rep_cases, !length_map.
    rewrite transpose_delay_pitches, transpose_delay_onsets.
    destruct (length notes <? 2)%nat; cbn [intervals contour ioi pitches];
      rewrite ?shifted_deltas, ?shifted_gaps; repeat split; reflexivity. }
  destruct Hrep as (EI & EC & ET & EP).
  assert (Hq : aligned q) by apply notes_to_rep_aligned.
  assert (Hs : aligned s) by apply notes_to_rep_aligned.
  assert (Hlen : length (intervals q) = (length notes - 1)%nat).
  { unfold q. rewrite (notes_to_rep_long _ HN). cbn.
    now rewrite length_map, consecutive_length, length_map. }
  pose proof (same_sequences_excerpt q s Hq EI EC ET) as Hex.
  destruct (diagonal_result q s w 0 Hq Hs Hw) as (r & Er & Hc & He).
  - lia.
  - rewrite EI. lia.
  - intros i Hi. now apply excerpt_local_cost.
  - exists r. split; [exact Er|]. split; [|lia].
    rewrite Hc. f_equal. unfold tie_breaker. rewrite EP.
    assert (Hp : pitches q <> []).
    { unfold q. rewrite (notes_to_rep_long _ HN). cbn.
      destruct notes; [simpl in HN; lia | discriminate]. }
    destruct (pitches q) as [|p ps] eqn:Epq; [congruence|].
    cbn [map]. change ((p + k)%Z :: map (fun p0 => (p0 + k)%Z) ps)
      with (map (fun p0 => (p0 + k)%Z) (p :: ps)).
    rewrite mean_shift by discriminate.
    replace (mean (p :: ps) - (mean (p :: ps) + IZR k)) with (- IZR k)
      by lra.
    now rewrite Rabs_Ropp, <- abs_IZR.
Qed.

Lemma transposed_melody_cost_witness :
  exists r,
    dp_distance (notes_to_rep three_notes)
                (notes_to_rep (map (delay 3) (map (transpose 12) three_notes)))
                default_weights
    = Some r /\
    cost r = Fin (w_abs default_weights * IZR (Z.abs 12) / 12) /\
    (0 <= end_j r <= Z.of_nat (length three_notes) - 2)%Z.
Proof.
  apply transposed_melody_cost.
  - exact default_weights_nonneg.
  - simpl; lia.
Defined.

Lemma stretch_pitches c notes :
  map pitch (map (stretch c) notes) = map pitch notes.
Proof. rewrite map_map. reflexivity. Qed.

Lemma stretch_onsets c notes :
  map onset (map (stretch c) notes) = map (Rmult c) (map onset notes).
Proof. rewrite !map_map. reflexivity. Qed.

Lemma rep_ioi_nth notes k :
  (k + 1 < length notes)%nat ->
  nth k (ioi (notes_to_rep notes)) 0
  = Rmax eps (nth (k + 1) (map onset notes) 0 - nth k (map onset notes) 0).
Proof.
  intros Hk. rewrite (notes_to_rep_long notes) by lia. cbn [ioi].
  rewrite consecutive_nth by (rewrite length_map; lia). reflexivity.
Qed.

Lemma stretch_local_cost c notes w i :
  0 < c -> gaps_at_least (Rmax eps (eps / c)) notes ->
  (1 <= i <= length notes - 1)%nat ->
  local_cost (notes_to_rep notes) (notes_to_rep (map (stretch c) notes)) w
             i (0 + i) = 0.
Proof.
  intros Hc Hgap Hi. cbn [Nat.add].
  assert (HN : (2 <= length notes)%nat) by lia.
  assert (HN' : (2 <= length (map (stretch c) notes))%nat)
    by now rewrite length_map.
  assert (Hgaps : forall k, (k + 1 < length notes)%nat ->
            let g := nth (k + 1) (map onset notes) 0
                     - nth k (map onset notes) 0 in
            eps <= g /\ eps <= c * g).
  { intros k Hk g. specialize (Hgap k Hk). fold g in Hgap.
    pose proof (Rmax_l eps (eps / c)). pose proof (Rmax_r eps (eps / c)).
    split; [lra|].
    assert (eps / c * c <= g * c) by (apply Rmult_le_compat_r; lra).
    unfold Rdiv in *. rewrite Rmult_assoc, Rinv_l in * by lra. lra. }
  assert (ET : forall k, (1 <= k <= length notes - 1)%nat ->
            eps <= qT (notes_to_rep notes) k /\
            eps <= c * qT (notes_to_rep notes) k /\
            cT (notes_to_rep (map (stretch c) notes)) k
            = c * qT (notes_to_rep notes) k).
  { intros k Hk. unfold qT, cT, at1.
    rewrite !rep_ioi_nth by (rewrite ?length_map; lia).
    rewrite stretch_onsets.
    rewrite !(nth_map_in (Rmult c) _ 0 0) by (rewrite length_map; lia).
    destruct (Hgaps (k - 1)%nat ltac:(lia)) as (G1 & G2).
    rewrite <- Rmult_minus_distr_l.
    rewrite !Rmax_right by assumption. auto. }
  assert (EI : intervals (notes_to_rep (map (stretch c) notes))
               = intervals (notes_to_rep notes)).
  { rewrite !notes_to_rep_cases, length_map.
    destruct (length notes <? 2)%nat; cbn [intervals]; [reflexivity|].
    now rewrite stretch_pitches. }
  assert (EC : contour (notes_to_rep (map (stretch c) notes))
               = contour (notes_to_rep notes)).
  { rewrite !notes_to_rep_cases, length_map.
    destruct (length notes <? 2)%nat; cbn [contour]; [reflexivity|].
    now rewrite stretch_pitches. }
  unfold local_cost, qI, cI, qC, cC, at1. rewrite EI, EC.
  rewrite Z.sub_diag. cbn [Z.abs].
  destruct (Z.eq_dec _ _) as [_|Hne]; [|contradiction].
  destruct ((2 <=? i)%nat && (2 <=? i)%nat) eqn:E.
  - apply andb_prop in E as (E1 & _). apply Nat.leb_le in E1.
    unfold timing. cbv zeta.
    destruct (ET i ltac:(lia)) as (_ & _ & ->).
    destruct (ET (i - 1)%nat ltac:(lia)) as (P1 & P2 & ->).
    rewrite scaled_ratio by assumption.
    rewrite Rminus_diag, Rabs_R0. lra.
  - lra.
Qed.

(** X9: a melody of at least two notes and the same melody played [c]
    times slower ([c > 0], every gap between onsets at least
    [max(1e-6, 1e-6 / c)] so that no floor engages) align at cost [0], for
    any non-negative weights. *)
Theorem stretched_melody_cost (c : R) (notes : list NoteEvent)
    (w : Weights) :
  0 < c -> nonneg_weights w -> (2 <= length notes)%nat ->
  gaps_at_least (Rmax eps (eps / c)) notes ->
  exists r,
    dp_distance (notes_to_rep notes)
                (notes_to_rep (map (stretch c) notes)) w
    = Some r /\
    cost r = Fin 0 /\
    (0 <= end_j r <= Z.of_nat (length notes) - 2)%Z.
Proof.
  intros Hc Hw HN Hgap.
  set (q := notes_to_rep notes).
  set (s := notes_to_rep (map (stretch c) notes)).
  assert (Hq : aligned q) by apply notes_to_rep_aligned.
  assert (Hs : aligned s) by apply notes_to_rep_aligned.
  assert (Hlen : length (intervals q) = (length notes - 1)%nat).
  { unfold q. rewrite (notes_to_rep_long _ HN). cbn.
    now rewrite length_map, consecutive_length, length_map. }
  assert (Hlen' : length (intervals s) = (length notes - 1)%nat).
  { unfold s. rewrite (notes_to_rep_long (map (stretch c) notes))
      by now rewrite length_map.
    cbn. now rewrite length_map, consecutive_length, !length_map. }
  destruct (diagonal_result q s w 0 Hq Hs Hw) as (r & Er & Hcost & He).
  - lia.
  - lia.
  - intros i Hi. apply stretch_local_cost; try assumption. lia.
  - exists r. split; [exact Er|]. split; [|lia].
    rewrite Hcost. f_equal. unfold tie_breaker.
    assert (Ep : pitches s = pitches q).
    { unfold s, q. rewrite !notes_to_rep_cases, length_map.
      destruct (length notes <? 2)%nat; cbn [pitches];
        apply stretch_pitches. }
    rewrite Ep. destruct (pitches q); [reflexivity|].
    rewrite Rminus_diag, Rabs_R0. lra.
Qed.

(** Four notes half a second apart. *)
Lemma stretched_melody_cost_witness :
  exists r,
    dp_distance
      (notes_to_rep [mkNote 60 0 (1 / 4); mkNote 62 (1 / 2) (1 / 4);
                     mkNote 64 1 (1 / 4)])
      (notes_to_rep
         (map (stretch 2)
              [mkNote 60 0 (1 / 4); mkNote 62 (1 / 2) (1 / 4);
               mkNote 64 1 (1 / 4)]))
      default_weights
    = Some r /\
    cost r = Fin 0 /\
    (0 <= end_j r <= Z.of_nat 3 - 2)%Z.
Proof.
  apply (stretched_melody_cost 2
           [mkNote 60 0 (1 / 4); mkNote 62 (1 / 2) (1 / 4);
            mkNote 64 1 (1 / 4)] default_weights).
  - lra.
  - exact default_weights_nonneg.
  - simpl; lia.
  - intros k Hk. cbn [length] in Hk.
    assert (Hm : Rmax eps (eps / 2) <= 1 / 2).
    { unfold Rmax, eps. destruct (Rle_dec _ _); lra. }
    destruct k as [|[|k]]; cbn [map onset nth Nat.add]; try lia; lra.
Defined.

(** X10: on aligned representations with non-empty interval sequences
    the cost returned, less the tie-breaker, never exceeds the sentinel
    [1e18] nor the cost [m * ins_cost] of inserting every query
    interval; with non-negative weights it is never below the
    tie-breaker. *)
Theorem dp_distance_upper_bound (q s : MelodyRep) (w : Weights) :
  aligned q -> aligned s ->
  (1 <= length (intervals q))%nat -> (1 <= length (intervals s))%nat ->
  exists r c,
    dp_distance q s w = Some r /\ cost r = Fin c /\
    (nonneg_weights w -> tie_breaker q s w <= c) /\
    c - tie_breaker q s w <= INF /\
    c - tie_breaker q s w <= INR (length (intervals q)) * ins_cost w.
Proof.
  intros Hq Hs Hm Hn.
  destruct (dp_distance_result q s w Hq Hs Hm Hn)
    as (D & r & _ & Hrec & Er & Hc & _).
  exists r. eexists. split; [exact Er|]. split; [exact Hc|].
  split.
  { intros Hw.
    assert (0 <= row_min D (length (intervals q)) (length (intervals s))).
    { apply row_min_nonneg; [exact Hn|]. intros j Hj.
      apply (table_nonneg q s w D Hw Hrec (length (intervals q) + j)); lia. }
    lra. }
  pose proof (row_min_le_first D (length (intervals q))
                (length (intervals s)) Hn) as H1.
  pose proof (capped_le_INF q s w D (length (intervals q)) 1 Hrec
                ltac:(lia) ltac:(lia)) as H2.
  pose proof (table_le_insertions q s w D Hrec (length (intervals q)) 1%nat
                ltac:(lia) ltac:(lia)) as H3.
  split; lra.
Qed.

Lemma dp_distance_upper_bound_witness :
  exists r c,
    dp_distance up_rep down_rep default_weights = Some r /\
    cost r = Fin c /\
    (nonneg_weights default_weights ->
     tie_breaker up_rep down_rep default_weights <= c) /\
    c - tie_breaker up_rep down_rep default_weights <= INF /\
    c - tie_breaker up_rep down_rep default_weights
      <= INR (length (intervals up_rep)) * ins_cost default_weights.
Proof.
  apply dp_distance_upper_bound.
  - exact aligned_up_rep.
  - exact aligned_down_rep.
  - simpl; lia.
  - simpl; lia.
Defined.

End DiagonalExtras.

(* ------------------------------------------------------------------ *)
(** ** app.py: windows, scan and ranking *)

Section AppExtras.
Import Repr Similarity Database App AlignSpec ScanSpec.

Local Open Scope R_scope.

(** X11: the similarity falls as the score grows, an infinite score is
    the worst, a non-negative score gives [100] exactly when it is [0],
    and the similarity is positive exactly when the score is below
    [5]. *)
Theorem similarity_antitone (x y : R) :
  (x <= y -> similarity (Fin y) <= similarity (Fin x)) /\
  similarity PInf <= similarity (Fin x) /\
  (0 <= x -> (similarity (Fin x) = 100 <-> x = 0)) /\
  (0 < similarity (Fin x) <-> x < 5).
Proof.
  cbn [similarity]. unfold Rmax.
  repeat match goal with
  | |- context [Rle_dec ?a ?b] => destruct (Rle_dec a b)
  end; repeat split; intros; lra.
Qed.

Lemma similarity_antitone_witness :
  similarity (Fin 5) <= similarity (Fin 1) /\
  (similarity (Fin 0) = 100 <-> 0 = 0).
Proof.
  destruct (similarity_antitone 1 5) as (H1 & _).
  destruct (similarity_antitone 0 0) as (_ & _ & H3 & _).
  split; [apply H1; lra | apply H3; lra].
Defined.

(** X12: with a hop that never moves a start forward (in exact
    arithmetic: a non-positive hop) and a clip that holds at least one
    window, the loop that generates the window starts never ends:
    [find_windowed_matches] returns for no amount of fuel. *)
Theorem nonpositive_hop_never_returns (fadd : R -> R -> R)
    (clip_duration : R)
    (window_notes : R -> R -> list NoteEvent) (db : list SongEntry)
    (win hop max_sec : R) (topk : nat) :
  (forall s, fadd s hop <= s) ->
  (forall a b, a <= b -> fadd a win <= fadd b win) ->
  fadd 0 win <= Rmin clip_duration max_sec ->
  forall fuel,
    find_windowed_matches fadd clip_duration window_notes fuel db win hop
                          max_sec topk = None.
Proof.
  intros Hhop Hmono Hwin fuel.
  assert (G : forall f s, s <= 0 ->
            window_starts fadd Rleb f win hop (Rmin clip_duration max_sec) s
            = None).
  { induction f as [|f IH]; intros s Hs; cbn [window_starts]; [reflexivity|].
    assert (Ht : Rleb (fadd s win) (Rmin clip_duration max_sec) = true).
    { apply Rleb_le. pose proof (Hmono s 0 Hs). lra. }
    rewrite Ht, IH; [reflexivity|].
    pose proof (Hhop s). lra. }
  unfold find_windowed_matches, scan. cbv zeta.
  rewrite G by lra. reflexivity.
Qed.

Lemma nonpositive_hop_never_returns_witness :
  find_windowed_matches Rplus 30 ScanSamples.silence 1000
                        ScanSamples.one_song 20 0 120 5 = None.
Proof.
  apply nonpositive_hop_never_returns.
  - intros s. lra.
  - intros a b Hab. lra.
  - unfold Rmin. destruct (Rle_dec _ _); lra.
Defined.

(** X13: a clip shorter than the window is scanned as exactly one
    window starting at [0], whatever the hop: the scan reports one
    generated window. *)
Theorem short_clip_single_window (fadd : R -> R -> R) (clip_duration : R)
    (window_notes : R -> R -> list NoteEvent) (db : list SongEntry)
    (win hop max_sec : R) (fuel : nat) :
  fadd 0 win = win ->
  Rmin clip_duration max_sec < win ->
  NoDup (map song_id db) -> aligned_db db ->
  scan fadd clip_duration window_notes (S fuel) db win hop max_sec
  = Some (best_windows window_notes win [0] db, 1%nat,
          if usable_window window_notes win 0 then 1%nat else 0%nat).
Proof.
  intros Hzero Hshort Hnd Hal.
  assert (Hstop : loop_stops_at fadd win hop (Rmin clip_duration max_sec) 0).
  { split; [intros k Hk; lia|]. cbn. rewrite Hzero. lra. }
  pose proof (scan_result_distinct clip_duration window_notes win fadd db
                hop max_sec 0 (S fuel) Hstop Hnd Hal ltac:(lia)) as Hrun.
  cbv zeta in Hrun. rewrite Hrun. cbn [generated length filter].
  destruct (usable_window window_notes win 0); reflexivity.
Qed.

Lemma short_clip_single_window_witness :
  scan Rplus 10 ScanSamples.silence 1 ScanSamples.one_song 20 5 120
  = Some (best_windows ScanSamples.silence 20 [0] ScanSamples.one_song,
          1%nat,
          if usable_window ScanSamples.silence 20 0 then 1%nat else 0%nat).
Proof.
  apply short_clip_single_window.
  - lra.
  - unfold Rmin. destruct (Rle_dec _ _); lra.
  - exact one_song_nodup.
  - exact one_song_aligned.
Defined.

Lemma sort_desc_sorted_id l : descending l -> sort_desc l = l.
Proof.
  unfold descending. induction l as [|x l IH]; intros Hs; [reflexivity|].
  inversion Hs as [|? ? Hl Hx]; subst.
  cbn [sort_desc fold_right]. fold (sort_desc l). rewrite (IH Hl).
  destruct l as [|y l]; [reflexivity|]. cbn [insert_desc].
  inversion Hx; subst.
  destruct (Rle_dec (r_similarity y) (r_similarity x)); [reflexivity|lra].
Qed.

Lemma equal_keys_descending l v :
  Forall (fun r => r_similarity r = v) l -> descending l.
Proof.
  unfold descending. induction 1 as [|x l Hx Hl IH]; constructor;
    [exact IH|].
  eapply Forall_impl; [|exact Hl]. cbn. intros y Hy. lra.
Qed.

(** X14: when no window has 12 intervals, the scan reports no usable
    window and every song, in corpus order, gets the row of a song that
    was never compared: similarity [0], infinite cost, length [0] and no
    start. *)
Theorem no_usable_window (fadd : R -> R -> R) (clip_duration : R)
    (window_notes : R -> R -> list NoteEvent) (db : list SongEntry)
    (win hop max_sec : R) (K topk : nat) :
  loop_stops_at fadd win hop (Rmin clip_duration max_sec) K ->
  NoDup (map song_id db) -> aligned_db db ->
  (forall st, (window_len window_notes win st < 12)%nat) ->
  forall fuel, (K < fuel)%nat ->
    find_windowed_matches fadd clip_duration window_notes fuel db win hop
                          max_sec topk
    = Some (firstn topk
              (map (fun e => mkRow 0 (song_id e) PInf 0 None) db),
            Nat.max 1 K, 0%nat).
Proof.
  intros Hstop Hnd Hal Hshort fuel Hf.
  pose proof (scan_result_distinct clip_duration window_notes win fadd db
                hop max_sec K fuel Hstop Hnd Hal Hf) as Hrun.
  cbv zeta in Hrun.
  set (starts := generated fadd hop K) in *.
  unfold find_windowed_matches. rewrite Hrun. cbn [bind].
  assert (Hfil : filter (usable_window window_notes win) starts = []).
  { apply filter_none. intros st _.
    unfold usable_window. apply Nat.leb_gt. apply Hshort. }
  rewrite Hfil. cbn [length].
  assert (Hrows : rows_of (best_windows window_notes win starts db)
                  = map (fun e => mkRow 0 (song_id e) PInf 0 None) db).
  { unfold rows_of, best_windows, tabulate, best_window.
    rewrite Hfil, map_map. cbn [map fold_left fst snd].
    apply map_ext. intros e. cbn. f_equal. lra. }
  unfold rank. rewrite Hrows.
  rewrite sort_desc_sorted_id.
  - unfold starts. now rewrite generated_length.
  - apply (equal_keys_descending _ 0). apply Forall_forall.
    intros r Hr. apply in_map_iff in Hr as (e & <- & _). reflexivity.
Qed.

Lemma no_usable_window_witness :
  find_windowed_matches Rplus 30 ScanSamples.silence 4 ScanSamples.one_song
                        20 5 120 5
  = Some (firstn 5
            (map (fun e => mkRow 0 (song_id e) PInf 0 None)
                 ScanSamples.one_song),
          Nat.max 1 3, 0%nat).
Proof.
  apply no_usable_window.
  - exact three_windows.
  - exact one_song_nodup.
  - exact one_song_aligned.
  - intros st. cbn. lia.
  - lia.
Defined.

Lemma filter_head_split {A} (f : A -> bool) l x t :
  filter f l = x :: t ->
  exists pre post, l = pre ++ x :: post /\
                   forall y, In y pre -> f y = false.
Proof.
  induction l as [|a l IH]; cbn [filter]; [discriminate|].
  destruct (f a) eqn:Ea.
  - intros E. injection E as -> _. exists [], l. split; [reflexivity|].
    intros y [].
  - intros E. destruct (IH E) as (pre & post & -> & Hpre).
    exists (a :: pre), post. split; [reflexivity|].
    intros y [<-|Hy]; [exact Ea | now apply Hpre].
Qed.

(** X15: when at least one row is asked for and the dict holds a song,
    the first row returned has the greatest similarity of all songs,
    and among the songs of that similarity it is the first in corpus
    order. *)
Theorem best_match_first (d : dict) (topk : nat) :
  (1 <= topk)%nat -> d <> [] ->
  exists best rest pre post,
    rank d topk = best :: rest /\
    rows_of d = pre ++ best :: post /\
    (forall r, In r pre -> r_similarity r < r_similarity best) /\
    (forall r, In r post -> r_similarity r <= r_similarity best).
Proof.
  intros Hk Hd. unfold rank.
  set (rows := rows_of d).
  assert (Hrows : rows <> []).
  { unfold rows, rows_of. destruct d; [congruence | discriminate]. }
  pose proof (sort_desc_perm rows) as Hperm.
  pose proof (sort_desc_sorted rows) as Hsorted.
  destruct (sort_desc rows) as [|best tl] eqn:Es.
  { apply Permutation_nil in Hperm. congruence. }
  unfold descending in Hsorted.
  inversion Hsorted as [|? ? _ Htl]; subst.
  rewrite Forall_forall in Htl.
  assert (Hall : forall r, In r rows -> r_similarity r <= r_similarity best).
  { intros r Hr. apply (Permutation_in _ (Permutation_sym Hperm)) in Hr.
    destruct Hr as [<-|Hr]; [lra | now apply Htl]. }
  pose proof (tied_sort (r_similarity best) rows) as Ht.
  rewrite Es in Ht. unfold tied in Ht. cbn [filter] in Ht.
  destruct (Req_dec_T (r_similarity best) (r_similarity best)) as [_|Hn];
    [|contradiction].
  symmetry in Ht.
  destruct (filter_head_split _ _ _ _ Ht) as (pre & post & Erows & Hpre).
  destruct topk as [|k]; [lia|]. cbn [firstn].
  exists best, (firstn k tl), pre, post.
  split; [reflexivity|]. split; [exact Erows|]. split.
  - intros r Hr.
    assert (Hle : r_similarity r <= r_similarity best).
    { apply Hall. rewrite Erows. apply in_or_app. now left. }
    specialize (Hpre r Hr). cbn in Hpre.
    destruct (Req_dec_T (r_similarity r) (r_similarity best));
      [discriminate | lra].
  - intros r Hr. apply Hall. rewrite Erows.
    apply in_or_app. right. now right.
Qed.

Lemma best_match_first_witness :
  exists best rest pre post,
    rank [("a"%string, init_best)] 1 = best :: rest /\
    rows_of [("a"%string, init_best)] = pre ++ best :: post /\
    (forall r, In r pre -> r_similarity r < r_similarity best) /\
    (forall r, In r post -> r_similarity r <= r_similarity best).
Proof.
  apply best_match_first.
  - lia.
  - discriminate.
Defined.

Lemma dict_set_keys d k v :
  map fst (dict_set d k v)
  = if in_dec string_dec k (map fst d) then map fst d
    else map fst d ++ [k].
Proof.
  induction d as [|[k' v'] d IH]; cbn [dict_set map fst]; [reflexivity|].
  destruct (String.eqb_spec k k') as [->|Hne].
  - cbn [map fst].
    destruct (in_dec string_dec k' (k' :: map fst d)) as [_|Hn];
      [reflexivity|].
    exfalso. apply Hn. now left.
  - cbn [map fst]. rewrite IH.
    destruct (in_dec string_dec k (map fst d)) as [Hin|Hnin],
             (in_dec string_dec k (k' :: map fst d)) as [Hin'|Hnin'];
      try reflexivity.
    + exfalso. apply Hnin'. now right.
    + destruct Hin' as [E|Hin']; [congruence | contradiction].
Qed.

Lemma dict_set_values d k :
  Forall (fun kv => snd kv = init_best) d ->
  Forall (fun kv => snd kv = init_best) (dict_set d k init_best).
Proof.
  induction d as [|[k' v'] d IH]; intros H; cbn [dict_set].
  - repeat constructor.
  - inversion H; subst.
    destruct (String.eqb k k'); constructor; auto.
Qed.

(** X16: the dict of best windows gets one slot per distinct song id,
    whatever the corpus: its keys are exactly the song ids of the corpus
    without repetition, every slot starts as "never compared", and two
    entries that share an id share one slot. *)
Theorem dict_init_keys (db : list SongEntry) :
  NoDup (map fst (dict_init db)) /\
  (forall k, In k (map fst (dict_init db)) <-> In k (map song_id db)) /\
  Forall (fun kv => snd kv = init_best) (dict_init db) /\
  (length (dict_init db) <= length db)%nat.
Proof.
  unfold dict_init.
  assert (G : forall rest d,
    NoDup (map fst d) -> Forall (fun kv => snd kv = init_best) d ->
    let d' := fold_left (fun d e => dict_set d (song_id e) init_best)
                        rest d in
    NoDup (map fst d') /\
    (forall k, In k (map fst d') <->
               In k (map fst d) \/ In k (map song_id rest)) /\
    Forall (fun kv => snd kv = init_best) d' /\
    (length d' <= length d + length rest)%nat).
  { induction rest as [|e rest IH]; intros d Hnd Hv; cbv zeta;
      cbn [fold_left map length In].
    - split; [exact Hnd|]. split; [tauto|]. split; [exact Hv | lia].
    - pose proof (dict_set_keys d (song_id e) init_best) as Hk.
      destruct (IH (dict_set d (song_id e) init_best)) as (N & K & V & L).
      + rewrite Hk. destruct (in_dec _ _ _) as [Hin|Hnin]; [exact Hnd|].
        apply NoDup_app; [exact Hnd | repeat constructor; intros [] |].
        intros x Hx [<-|[]]. contradiction.
      + now apply dict_set_values.
      + split; [exact N|]. split; [|split; [exact V|]].
        * intros k. rewrite K, Hk.
          destruct (in_dec _ _ _) as [Hin|Hnin].
          -- split; [tauto|]. intros [H|[<-|H]]; tauto.
          -- rewrite in_app_iff. cbn [In]. tauto.
        * assert (E : length (dict_set d (song_id e) init_best)
                      = length (map fst (dict_set d (song_id e) init_best)))
            by now rewrite length_map.
          rewrite Hk in E.
          destruct (in_dec _ _ _);
            rewrite ?length_app, length_map in E; cbn [length] in E; lia. }
  destruct (G db [] ltac:(constructor) ltac:(constructor)) as (N & K & V & L).
  split; [exact N|]. split; [|split; [exact V | exact L]].
  intros k. rewrite K. cbn [map In]. tauto.
Qed.

End AppExtras.

(* ------------------------------------------------------------------ *)
(** ** database.py: song ids *)

Section DatabaseExtras.
Import Repr Similarity Database.

Local Open Scope string_scope.
Local Open Scope list_scope.

Lemma has_char_app c a b :
  has_char c (a ++ b)%string = has_char c a || has_char c b.
Proof.
  induction a as [|x a IH]; cbn [String.append has_char]; [reflexivity|].
  rewrite IH. now rewrite orb_assoc.
Qed.

Lemma after_last_app c a b :
  has_char c b = false ->
  after_last c (a ++ String c b)%string = b.
Proof.
  intros Hb. induction a as [|x a IH]; cbn [String.append after_last].
  - rewrite Hb, Ascii.eqb_refl. reflexivity.
  - rewrite has_char_app. cbn [has_char]. rewrite Ascii.eqb_refl.
    cbn [orb]. rewrite orb_true_r. exact IH.
Qed.

Lemma before_last_app c a b :
  has_char c b = false ->
  before_last c (a ++ String c b)%string = a.
Proof.
  intros Hb. induction a as [|x a IH]; cbn [String.append before_last].
  - rewrite Hb, Ascii.eqb_refl. reflexivity.
  - rewrite has_char_app. cbn [has_char]. rewrite Ascii.eqb_refl.
    cbn [orb]. rewrite orb_true_r. now rewrite IH.
Qed.

Lemma without_char_fixed c s :
  has_char c s = false -> after_last c s = s /\ before_last c s = s.
Proof.
  destruct s as [|x s]; [auto|]. cbn [has_char after_last before_last].
  intros H. apply orb_false_elim in H as (Hx & Hs).
  now rewrite Hs, Hx.
Qed.

(** X18: the song id of [dir/name.ext] is [name], for a name without
    [/] and an extension without [/] or [.]; the directory plays no part,
    so files of the same name in different directories get the same id;
    a path without [/] and [.] is its own id. *)
Theorem song_id_of_path_name (dir name ext : string) :
  (has_char "/"%char name = false ->
   has_char "/"%char ext = false -> has_char "."%char ext = false ->
   song_id_of_path (dir ++ "/" ++ name ++ "." ++ ext)%string = name) /\
  (has_char "/"%char name = false -> has_char "."%char name = false ->
   song_id_of_path name = name).
Proof.
  unfold song_id_of_path. split.
  - intros Hn He1 He2.
    change ("/" ++ name ++ "." ++ ext)%string
      with (String "/"%char (name ++ String "."%char ext)).
    rewrite after_last_app.
    + now apply before_last_app.
    + rewrite has_char_app. cbn [has_char]. rewrite Hn, He1. reflexivity.
  - intros H1 H2.
    rewrite (proj1 (without_char_fixed _ _ H1)).
    exact (proj2 (without_char_fixed _ _ H2)).
Qed.

Lemma song_id_of_path_name_witness :
  song_id_of_path ("data/midi_songs" ++ "/" ++ "take.five" ++ "." ++ "mid")
  = "take.five".
Proof.
  apply (proj1 (song_id_of_path_name "data/midi_songs" "take.five" "mid"));
    reflexivity.
Defined.

End DatabaseExtras.


(* ------------------------------------------------------------------ *)
(** ** audio_query.py *)

Section AudioExtras.
Import Repr AudioQuery.

Local Open Scope R_scope.

Lemma ln_2_pos : 0 < ln 2.
Proof. rewrite <- ln_1. apply ln_increasing; lra. Qed.

(** X19: [hz_to_midi] sends 440 Hz to note 69, an octave (a doubled
    frequency) to 12 semitones more, and a higher frequency to a higher
    note. *)
Theorem hz_to_midi_octaves (f g : R) :
  hz_to_midi 440 = 69 /\
  (0 < f -> hz_to_midi (2 * f) = hz_to_midi f + 12) /\
  (0 < f -> f < g -> hz_to_midi f < hz_to_midi g).
Proof.
  pose proof ln_2_pos as H2. unfold hz_to_midi. split; [|split].
  - replace (440 / 440) with 1 by lra. rewrite ln_1. lra.
  - intros Hf. replace (2 * f / 440) with (2 * (f / 440)) by lra.
    rewrite ln_mult by lra. field. lra.
  - intros Hf Hfg.
    assert (Hln : ln (f / 440) < ln (g / 440)) by (apply ln_increasing; lra).
    assert (ln (f / 440) / ln 2 < ln (g / 440) / ln 2).
    { unfold Rdiv. apply Rmult_lt_compat_r; [|exact Hln].
      now apply Rinv_0_lt_compat. }
    lra.
Qed.

Lemma hz_to_midi_octaves_witness :
  hz_to_midi (2 * 220) = hz_to_midi 220 + 12 /\
  hz_to_midi 220 < hz_to_midi 440.
Proof.
  destruct (hz_to_midi_octaves 220 440) as (_ & H1 & H2).
  split; [apply H1; lra | apply H2; lra].
Defined.

Lemma merge_step_snoc init prev ev :
  merge_step (init ++ [prev]) ev
  = if mergeable prev ev then init ++ [absorb prev ev]
    else (init ++ [prev]) ++ [ev].
Proof.
  unfold merge_step.
  destruct (init ++ [prev]) as [|x l] eqn:E.
  { destruct init; discriminate. }
  rewrite <- E, last_last, removelast_last. reflexivity.
Qed.

Lemma snoc_cases {A} (l : list A) :
  l = [] \/ exists init x, l = init ++ [x].
Proof.
  destruct l as [|a l]; [now left|]. right.
  exists (removelast (a :: l)), (last (a :: l) a).
  apply app_removelast_last. discriminate.
Qed.

Lemma separated_replace_last init prev x :
  pitch x = pitch prev -> onset x = onset prev ->
  separated (init ++ [prev]) -> separated (init ++ [x]).
Proof.
  intros Hp Ho. induction init as [|a init IH]; [cbn; auto|].
  cbn [app separated]. intros (Hab & Ht). split; [|now apply IH].
  destruct init as [|b init]; cbn [app] in *; [|exact Hab].
  unfold mergeable in *. now rewrite Hp, Ho.
Qed.

Lemma separated_snoc init prev ev :
  separated (init ++ [prev]) -> mergeable prev ev = false ->
  separated ((init ++ [prev]) ++ [ev]).
Proof.
  intros Hs Hm. induction init as [|a init IH]; [cbn; auto|].
  cbn [app separated] in *. destruct Hs as (Hab & Ht).
  split; [|now apply IH].
  destruct init as [|b init]; cbn [app] in *; exact Hab.
Qed.

Lemma separated_middle init prev ev rest :
  separated (init ++ prev :: ev :: rest) -> mergeable prev ev = false.
Proof.
  induction init as [|a init IH]; cbn [app separated].
  - now intros (H & _).
  - intros (_ & H). now apply IH.
Qed.

Lemma merge_step_separated acc ev :
  separated acc -> separated (merge_step acc ev).
Proof.
  intros Hs. destruct (snoc_cases acc) as [->|(init & prev & ->)].
  - cbn. auto.
  - rewrite merge_step_snoc. destruct (mergeable prev ev) eqn:E.
    + now apply (separated_replace_last init prev).
    + now apply separated_snoc.
Qed.

Lemma merge_step_length acc ev :
  (1 <= length (merge_step acc ev) <= length acc + 1)%nat.
Proof.
  destruct (snoc_cases acc) as [->|(init & prev & ->)].
  - cbn. lia.
  - rewrite merge_step_snoc. destruct (mergeable prev ev);
      rewrite !length_app; cbn [length]; lia.
Qed.

(** The loop keeps its list separated, adds at most one note per step
    and never empties it. *)
Lemma merge_fold_inv l : forall acc,
  separated acc ->
  separated (fold_left merge_step l acc) /\
  (length (fold_left merge_step l acc) <= length acc + length l)%nat /\
  (acc <> [] \/ l <> [] -> fold_left merge_step l acc <> []).
Proof.
  induction l as [|ev l IH]; intros acc Hs; cbn [fold_left length].
  - split; [exact Hs|]. split; [lia|]. intros [H|H]; congruence.
  - destruct (IH (merge_step acc ev) (merge_step_separated acc ev Hs))
      as (I1 & I2 & I3).
    pose proof (merge_step_length acc ev) as Hl.
    split; [exact I1|]. split; [lia|]. intros _. apply I3. left.
    intros E. rewrite E in Hl. cbn in Hl. lia.
Qed.

(** X20: after the final loop of [segment_notes_from_f0] no note can be
    merged into the note before it (their pitches differ by more than one
    semitone or the gap between them is at least 0.05 s); the loop never
    adds a note and keeps at least one when there is one. *)
Theorem merge_notes_separated (notes : list NoteEvent) :
  separated (merge_notes notes) /\
  (length (merge_notes notes) <= length notes)%nat /\
  (notes <> [] -> merge_notes notes <> []).
Proof.
  unfold merge_notes.
  destruct (merge_fold_inv notes [] Logic.I) as (H1 & H2 & H3).
  split; [exact H1|]. split; [exact H2|].
  intros Hn. apply H3. now right.
Qed.

Lemma merge_notes_separated_witness :
  merge_notes [mkNote 60 0 1; mkNote 61 1 1] <> [].
Proof.
  apply (proj2 (proj2 (merge_notes_separated _))). discriminate.
Defined.

Lemma merge_fold_separated l : forall acc,
  separated (acc ++ l) -> fold_left merge_step l acc = acc ++ l.
Proof.
  induction l as [|ev l IH]; intros acc Hs; cbn [fold_left].
  - now rewrite app_nil_r.
  - assert (E : merge_step acc ev = acc ++ [ev]).
    { destruct (snoc_cases acc) as [->|(init & prev & ->)]; [reflexivity|].
      rewrite merge_step_snoc. rewrite <- app_assoc in Hs. cbn [app] in Hs.
      now rewrite (separated_middle _ _ _ _ Hs). }
    rewrite E, IH; rewrite <- app_assoc; [reflexivity | exact Hs].
Qed.

(** X21: a note sequence in which no note can be merged into the note
    before it goes through the final loop of [segment_notes_from_f0]
    unchanged; hence running the loop twice gives what running it once
    gives. *)
Theorem merge_notes_idempotent (notes : list NoteEvent) :
  (separated notes -> merge_notes notes = notes) /\
  merge_notes (merge_notes notes) = merge_notes notes.
Proof.
  assert (H : forall l, separated l -> merge_notes l = l).
  { intros l Hl. unfold merge_notes. now rewrite merge_fold_separated. }
  split; [apply H|]. apply H. unfold merge_notes.
  exact (proj1 (merge_fold_inv notes [] Logic.I)).
Qed.

Lemma merge_notes_idempotent_witness :
  merge_notes [mkNote 60 0 1; mkNote 64 1 1]
  = [mkNote 60 0 1; mkNote 64 1 1].
Proof.
  apply (proj1 (merge_notes_idempotent _)).
  cbn. repeat split.
Defined.

End AudioExtras.

(* ------------------------------------------------------------------ *)
(** ** midi_io.py *)

Section SortFacts.
Import MidiIO.

Local Open Scope R_scope.

Context {A : Type}.
Variable le : A -> A -> bool.
Variable key : A -> R.
Hypothesis le_true : forall x y, le x y = true -> key x <= key y.
Hypothesis le_false : forall x y, le x y = false -> key y <= key x.

Lemma insert_by_perm x l : Permutation (insert_by le x l) (x :: l).
Proof.
  induction l as [|y l IH]; cbn [insert_by]; [reflexivity|].
  destruct (le x y); [reflexivity|].
  rewrite IH. apply perm_swap.
Qed.

Lemma sorted_by_perm l : Permutation (sorted_by le l) l.
Proof.
  induction l as [|x l IH]; cbn [sorted_by fold_right]; [reflexivity|].
  fold (sorted_by le l). rewrite insert_by_perm. now constructor.
Qed.

Lemma insert_by_sorted x l :
  StronglySorted (fun a b => key a <= key b) l ->
  StronglySorted (fun a b => key a <= key b) (insert_by le x l).
Proof.
  induction l as [|y l IH]; intros Hs; cbn [insert_by].
  - repeat constructor.
  - inversion Hs as [|? ? Hl Hy]; subst.
    destruct (le x y) eqn:E.
    + apply le_true in E. constructor; [exact Hs|].
      constructor; [exact E|].
      eapply Forall_impl; [|exact Hy]. cbn. intros z Hz. lra.
    + apply le_false in E. constructor; [now apply IH|].
      eapply Permutation_Forall; [symmetry; apply insert_by_perm|].
      constructor; [exact E | exact Hy].
Qed.

Lemma sorted_by_sorted l :
  StronglySorted (fun a b => key a <= key b) (sorted_by le l).
Proof.
  induction l as [|x l IH]; cbn [sorted_by fold_right].
  - constructor.
  - now apply insert_by_sorted.
Qed.

End SortFacts.

Section MidiExtras.
Import Repr MidiIO.

Local Open Scope R_scope.

Lemma Rle_bool_true a b : Rle_bool a b = true <-> a <= b.
Proof. unfold Rle_bool. destruct (Rle_dec a b); split; intros; auto; discriminate. Qed.

Lemma Rlt_bool_true a b : Rlt_bool a b = true <-> a < b.
Proof. unfold Rlt_bool. destruct (Rlt_dec a b); split; intros; auto; discriminate. Qed.

Lemma Req_bool_true a b : Req_bool a b = true <-> a = b.
Proof. unfold Req_bool. destruct (Req_dec_T a b); split; intros; auto; discriminate. Qed.

Lemma remove_too_short_in notes d n :
  In n (remove_too_short notes d)
  <-> In n notes /\ d <= Rmax 0 (n_end n - n_start n).
Proof.
  unfold remove_too_short. now rewrite filter_In, Rle_bool_true.
Qed.

(** X22: [_remove_too_short] keeps exactly the notes whose length,
    counted as [0] when the end precedes the start, reaches the threshold;
    with a positive threshold every note kept really lasts that long,
    with a threshold of [0] or less nothing is removed, and filtering
    twice changes nothing more. *)
Theorem remove_too_short_spec (notes : list MidiNote) (d : R) :
  (forall n, In n (remove_too_short notes d)
             <-> In n notes /\ d <= Rmax 0 (n_end n - n_start n)) /\
  (0 < d -> forall n, In n (remove_too_short notes d) ->
                      d <= n_end n - n_start n) /\
  (d <= 0 -> remove_too_short notes d = notes) /\
  remove_too_short (remove_too_short notes d) d = remove_too_short notes d.
Proof.
  split; [intros n; apply remove_too_short_in|]. split; [|split].
  - intros Hd n Hn. apply remove_too_short_in in Hn as (_ & Hn).
    unfold Rmax in Hn. destruct (Rle_dec _ _); lra.
  - intros Hd. unfold remove_too_short.
    induction notes as [|n notes IH]; cbn [filter]; [reflexivity|].
    pose proof (Rmax_l 0 (n_end n - n_start n)).
    replace (Rle_bool d (Rmax 0 (n_end n - n_start n))) with true
      by (symmetry; apply Rle_bool_true; lra).
    now rewrite IH.
  - unfold remove_too_short.
    induction notes as [|n notes IH]; cbn [filter]; [reflexivity|].
    destruct (Rle_bool d _) eqn:E; cbn [filter]; [|exact IH].
    now rewrite E, IH.
Qed.

Lemma remove_too_short_spec_witness :
  In (mkMidi 60 0 1) (remove_too_short [mkMidi 60 0 1; mkMidi 62 1 1] (1 / 2))
  /\ 1 / 2 <= n_end (mkMidi 60 0 1) - n_start (mkMidi 60 0 1).
Proof.
  assert (H : In (mkMidi 60 0 1)
                 (remove_too_short [mkMidi 60 0 1; mkMidi 62 1 1] (1 / 2))).
  { apply remove_too_short_in. split; [now left|]. cbn [n_end n_start].
    unfold Rmax. destruct (Rle_dec _ _); lra. }
  split; [exact H|].
  exact (proj1 (proj2 (remove_too_short_spec
                        [mkMidi 60 0 1; mkMidi 62 1 1] (1 / 2)))
               ltac:(lra) _ H).
Defined.

Lemma le_high_true x y :
  le_start_end_high x y = true -> n_start x <= n_start y.
Proof.
  unfold le_start_end_high. intros H.
  apply orb_prop in H as [H|H].
  - apply Rlt_bool_true in H. lra.
  - apply andb_prop in H as (H & _). apply Req_bool_true in H. lra.
Qed.

Lemma le_high_false x y :
  le_start_end_high x y = false -> n_start y <= n_start x.
Proof.
  unfold le_start_end_high. intros H.
  apply orb_false_elim in H as (H & _).
  unfold Rlt_bool in H. destruct (Rlt_dec _ _); [discriminate | lra].
Qed.

Lemma clean_from_spec melody : forall last_end,
  StronglySorted (fun a b => onset a <= onset b) melody ->
  let out := clean_from last_end melody in
  monophonic_melody out /\
  (forall ev, In ev out -> In ev melody) /\
  match out with
  | [] => True
  | b :: _ => last_end - eps <= onset b
  end.
Proof.
  induction melody as [|ev t IH]; intros last_end Hs; cbv zeta;
    cbn [clean_from].
  - cbn. auto.
  - inversion Hs as [|? ? Ht Hev]; subst.
    destruct (Rge_dec (onset ev) (last_end - eps)) as [Hge|Hlt].
    + destruct (IH (onset ev + duration ev) Ht) as (M & Hsub & Hd).
      split; [|split].
      * cbn [monophonic_melody]. split; [|exact M].
        destruct (clean_from (onset ev + duration ev) t) as [|b out'];
          [exact Logic.I|].
        split; [|exact Hd].
        rewrite Forall_forall in Hev. apply Hev, Hsub. now left.
      * intros x [<-|Hx]; [now left | right; now apply Hsub].
      * lra.
    + destruct (IH last_end Ht) as (M & Hsub & Hd).
      split; [exact M|]. split; [|exact Hd].
      intros x Hx. right. now apply Hsub.
Qed.

(** X23: when the MIDI file was read, [extract_melody_notes] returns a
    melody in time order that is monophonic up to [1e-6]: every note starts
    no earlier than the note before it and no earlier than [1e-6] before
    that note ends; no note has a negative duration or one below the
    threshold.  When the file could not be read it raises the
    [ValueError]. *)
Theorem extract_melody_notes_monophonic (pm : option (list Instrument))
    (d : R) :
  match extract_melody_notes pm d with
  | inl melody =>
      pm <> None /\
      monophonic_melody melody /\
      forall ev, In ev melody -> 0 <= duration ev /\ d <= duration ev
  | inr msg => pm = None /\ msg = load_failed
  end.
Proof.
  unfold extract_melody_notes. destruct pm as [instruments|]; [|auto].
  destruct (choose_melody_instrument instruments d) as [inst|].
  - cbv zeta. split; [discriminate|].
    set (kept := remove_too_short (i_notes inst) d).
    set (sorted := sorted_by le_start_end_high kept).
    assert (Hs : StronglySorted (fun a b => onset a <= onset b)
                                (map to_event sorted)).
    { pose proof (sorted_by_sorted le_start_end_high n_start
                    le_high_true le_high_false kept) as H.
      fold sorted in H. clearbody sorted.
      induction H as [|n l Hl IH Hn]; cbn [map]; constructor; [exact IH|].
      apply Forall_forall. intros ev Hev.
      apply in_map_iff in Hev as (m & <- & Hm).
      rewrite Forall_forall in Hn. cbn [to_event onset]. now apply Hn. }
    destruct (clean_from_spec (map to_event sorted) (-1) Hs) as (M & Hsub & _).
    split; [exact M|].
    intros ev Hev. apply Hsub in Hev. apply in_map_iff in Hev as (n & <- & Hn).
    apply (Permutation_in _ (sorted_by_perm le_start_end_high kept)) in Hn.
    apply remove_too_short_in in Hn as (_ & Hn).
    cbn [to_event duration]. split; [apply Rmax_l | exact Hn].
  - split; [discriminate|]. split; [exact Logic.I | intros ev []].
Qed.

Lemma in_candidates instruments d c :
  In c (candidates instruments d) <->
  exists inst,
    In inst instruments /\ is_drum inst = false /\
    (4 <= length (remove_too_short (i_notes inst) d))%nat /\
    c = (melody_score (remove_too_short (i_notes inst) d), inst,
         remove_too_short (i_notes inst) d).
Proof.
  unfold candidates. rewrite in_flat_map. split.
  - intros (inst & Hin & Hc). exists inst.
    destruct (is_drum inst); [contradiction|].
    destruct (Nat.ltb_spec (length (remove_too_short (i_notes inst) d)) 4);
      [contradiction|].
    destruct Hc as [<-|[]]. auto.
  - intros (inst & Hin & Hd & Hl & ->). exists inst. split; [exact Hin|].
    rewrite Hd.
    destruct (Nat.ltb_spec (length (remove_too_short (i_notes inst) d)) 4);
      [lia | now left].
Qed.

Lemma ge_score_true x y :
  ge_score x y = true -> - fst (fst x) <= - fst (fst y).
Proof. unfold ge_score. rewrite Rle_bool_true. lra. Qed.

Lemma ge_score_false x y :
  ge_score x y = false -> - fst (fst y) <= - fst (fst x).
Proof.
  unfold ge_score, Rle_bool. destruct (Rle_dec _ _); [discriminate | lra].
Qed.

(** X24: [choose_melody_instrument] returns nothing exactly when every
    instrument is a drum or has fewer than 4 notes of sufficient length;
    otherwise it returns an instrument of the file that is not a drum, has
    at least 4 such notes, and whose score no other eligible instrument
    exceeds. *)
Theorem choose_melody_instrument_spec (instruments : list Instrument)
    (d : R) :
  (choose_melody_instrument instruments d = None <->
   forall inst, In inst instruments ->
     is_drum inst = true \/
     (length (remove_too_short (i_notes inst) d) < 4)%nat) /\
  (forall inst, choose_melody_instrument instruments d = Some inst ->
     In inst instruments /\ is_drum inst = false /\
     (4 <= length (remove_too_short (i_notes inst) d))%nat /\
     forall other, In other instruments -> is_drum other = false ->
       (4 <= length (remove_too_short (i_notes other) d))%nat ->
       melody_score (remove_too_short (i_notes other) d)
       <= melody_score (remove_too_short (i_notes inst) d)).
Proof.
  unfold choose_melody_instrument.
  pose proof (sorted_by_perm ge_score (candidates instruments d)) as Hperm.
  pose proof (sorted_by_sorted ge_score (fun c => - fst (fst c))
                ge_score_true ge_score_false (candidates instruments d))
    as Hsorted.
  destruct (sorted_by ge_score (candidates instruments d)) as [|c tl].
  - apply Permutation_nil in Hperm. split.
    + split; [|reflexivity]. intros _ inst Hin.
      destruct (is_drum inst) eqn:Hd; [now left | right].
      destruct (Nat.lt_ge_cases
                  (length (remove_too_short (i_notes inst) d)) 4)
        as [Hlt|Hge]; [exact Hlt|].
      exfalso.
      assert (Hc : In (melody_score (remove_too_short (i_notes inst) d),
                       inst, remove_too_short (i_notes inst) d)
                      (candidates instruments d)).
      { apply in_candidates. exists inst. auto. }
      rewrite Hperm in Hc. contradiction.
    + discriminate.
  - assert (Hc : In c (candidates instruments d)).
    { apply (Permutation_in _ Hperm). now left. }
    apply in_candidates in Hc as (inst & Hin & Hd & Hl & ->).
    cbn [fst snd]. split.
    + split; [discriminate|]. intros H.
      destruct (H inst Hin) as [H1|H1]; [congruence | lia].
    + intros inst' E. injection E as <-.
      split; [exact Hin|]. split; [exact Hd|]. split; [exact Hl|].
      intros other Ho Hdo Hlo.
      assert (Hc : In (melody_score (remove_too_short (i_notes other) d),
                       other, remove_too_short (i_notes other) d)
                      (candidates instruments d)).
      { apply in_candidates. exists other. auto. }
      apply (Permutation_in _ (Permutation_sym Hperm)) in Hc.
      destruct Hc as [Hc|Hc].
      * injection Hc as -> _ _. lra.
      * inversion Hsorted as [|? ? _ Htl]; subst.
        rewrite Forall_forall in Htl. specialize (Htl _ Hc).
        cbn [fst] in Htl. lra.
Qed.

Lemma choose_melody_instrument_spec_witness :
  choose_melody_instrument [mkInst true []] 0 = None.
Proof.
  apply (proj1 (choose_melody_instrument_spec [mkInst true []] 0)).
  intros inst [<-|[]]. now left.
Defined.

Lemma no_overlap_spec l : forall e,
  no_overlap e l = true <->
  forall pre n post, l = pre ++ n :: post ->
    e - eps <= n_start n /\
    forall m, In m pre -> n_end m - eps <= n_start n.
Proof.
  induction l as [|x t IH]; intros e; cbn [no_overlap].
  - split; [|reflexivity]. intros _ pre n post E.
    destruct pre; discriminate.
  - destruct (Rlt_dec (n_start x) (e - eps)) as [Hlt|Hge].
    + split; [discriminate|]. intros H.
      destruct (H [] x t eq_refl) as (H1 & _). lra.
    + rewrite IH. split.
      * intros H pre n post E. destruct pre as [|y pre].
        -- injection E as <- <-. split; [lra | intros m []].
        -- injection E as <- ->.
           destruct (H pre n post eq_refl) as (H1 & H2).
           pose proof (Rmax_l e (n_end x)). pose proof (Rmax_r e (n_end x)).
           split; [lra|]. intros m [<-|Hm]; [lra | now apply H2].
      * intros H pre n post ->.
        destruct (H (x :: pre) n post eq_refl) as (H1 & H2).
        split.
        -- specialize (H2 x ltac:(now left)).
           unfold Rmax. destruct (Rle_dec e (n_end x)); lra.
        -- intros m Hm. apply H2. now right.
Qed.

(** X25: [_is_monophonic] answers [True] exactly when, with the notes
    taken in order of start and end, every note starts no earlier than
    [1e-6] before the end of each note that comes before it. *)
Theorem is_monophonic_spec (notes : list MidiNote) :
  is_monophonic notes = true <->
  forall pre n post,
    sorted_by le_start_end notes = pre ++ n :: post ->
    forall m, In m pre -> n_end m - eps <= n_start n.
Proof.
  unfold is_monophonic.
  destruct notes as [|a notes'] eqn:En.
  - split; [|reflexivity]. intros _ pre n post E.
    cbn in E. destruct pre; discriminate.
  - rewrite <- En. clear En.
    destruct (sorted_by le_start_end notes) as [|n0 rest].
    + split; [|reflexivity]. intros _ pre n post E.
      destruct pre; discriminate.
    + rewrite no_overlap_spec. split.
      * intros H pre n post E m Hm. destruct pre as [|y pre]; [contradiction|].
        injection E as <- ->.
        destruct (H pre n post eq_refl) as (H1 & H2).
        destruct Hm as [<-|Hm]; [exact H1 | now apply H2].
      * intros H pre n post ->. split.
        -- apply (H (n0 :: pre) n post eq_refl). now left.
        -- intros m Hm. apply (H (n0 :: pre) n post eq_refl). now right.
Qed.

Lemma is_monophonic_spec_witness :
  is_monophonic [mkMidi 60 0 1] = true.
Proof.
  apply (proj2 (is_monophonic_spec [mkMidi 60 0 1])).
  intros pre n post E m Hm. cbn in E.
  destruct pre as [|y [|z pre]]; try discriminate; contradiction.
Defined.

End MidiExtras.

(* ------------------------------------------------------------------ *)
(** ** database.py: what [build_db] stores *)

Section BuildExtras.
Import Repr Similarity Database.

Local Open Scope Z_scope.

Variable extract_melody_notes : string -> R -> list NoteEvent + string.

Lemma bin_interval_bounds d : -4 <= bin_interval_semitones d <= 4.
Proof.
  unfold bin_interval_semitones.
  repeat match goal with
  | |- context [if ?b then _ else _] => destruct b
  end; lia.
Qed.

Lemma contour_bounds d : -1 <= contour_from_semitones d <= 1.
Proof.
  unfold contour_from_semitones.
  repeat match goal with
  | |- context [if ?b then _ else _] => destruct b
  end; lia.
Qed.

Lemma build_db_forall (P : SongEntry -> Prop) (d : R) :
  (forall path notes,
     extract_melody_notes path d = inl notes ->
     (2 <= length (intervals (notes_to_rep notes)))%nat ->
     P (entry_of path notes)) ->
  forall paths, Forall P (fst (build_db extract_melody_notes paths d)).
Proof.
  intros HP paths. unfold build_db.
  assert (G : forall l db bad, Forall P db ->
            Forall P (fst (fold_left (build_step extract_melody_notes d) l
                                     (db, bad)))).
  { induction l as [|p l IH]; intros db bad Hdb; cbn [fold_left];
      [exact Hdb|].
    unfold build_step at 2.
    destruct (extract_melody_notes p d) as [notes|msg] eqn:Ex;
      [|now apply IH].
    destruct (Nat.ltb_spec (length (intervals (notes_to_rep notes))) 2);
      [now apply IH|].
    apply IH. apply Forall_app. split; [exact Hdb|].
    constructor; [|constructor]. now apply (HP p notes). }
  apply G. constructor.
Qed.

(** X26: every entry that [build_db] stores comes from the notes read
    from its own path: its four sequences are those of [notes_to_rep] on
    these notes and its id is derived from the path; it has at least three
    pitches, interval symbols in [-4..4], contour symbols in [-1..1] and
    inter-onset intervals of at least [1e-6]. *)
Theorem build_db_entries (paths : list string) (d : R) :
  Forall
    (fun e =>
       (exists notes,
          extract_melody_notes (midi_path e) d = inl notes /\
          entry_to_rep e = notes_to_rep notes) /\
       song_id e = song_id_of_path (midi_path e) /\
       (3 <= length (e_pitches e))%nat /\
       Forall (fun x => -4 <= x <= 4) (e_intervals e) /\
       Forall (fun c => -1 <= c <= 1) (e_contour e) /\
       Forall (fun t => (eps <= t)%R) (e_ioi e))
    (fst (build_db extract_melody_notes paths d)).
Proof.
  apply build_db_forall. intros path notes Ex Hlen.
  unfold entry_of. cbv zeta. cbn [midi_path song_id e_pitches e_intervals
                                  e_contour e_ioi].
  assert (HN : (2 <= length notes)%nat).
  { destruct (Nat.lt_ge_cases (length notes) 2) as [Hs|Hl]; [|exact Hl].
    rewrite (notes_to_rep_short _ Hs) in Hlen. cbn in Hlen. lia. }
  split; [|split; [reflexivity|]].
  - exists notes. split; [exact Ex|].
    unfold entry_to_rep. cbn. now destruct (notes_to_rep notes).
  - rewrite (notes_to_rep_long _ HN) in *. cbn [pitches intervals contour ioi] in *.
    rewrite length_map, consecutive_length, length_map in Hlen.
    split; [rewrite length_map; lia|].
    split; [|split].
    + apply Forall_forall. intros x Hx.
      apply in_map_iff in Hx as (r & <- & _). apply bin_interval_bounds.
    + apply Forall_forall. intros x Hx.
      apply in_map_iff in Hx as (r & <- & _). apply contour_bounds.
    + apply Forall_forall. intros t Ht. unfold consecutive in Ht.
      apply in_map_iff in Ht as (i & <- & _). apply Rmax_l.
Qed.

End BuildExtras.
